(** * rtc-lib: the peer session and the room

    A shallow embedding of [src/remote_peer.ts], [src/room.ts] and
    [src/remote_peer.coffee].

    The three files are written against the JavaScript runtime: plain
    objects used as dictionaries, promises and the microtask queue.  The
    first two parts of this development give that runtime a small
    executable model (objects with their own-key order, a promise heap with
    reaction lists and a job queue).  The later parts translate the source
    methods line by line on top of it and state the properties of the
    specification. *)

From Stdlib Require Import ZArith NArith Lia Ascii String.
From stdpp Require Import base list strings.

Open Scope string_scope.
Open Scope list_scope.

(** ** JavaScript values *)

(** A promise is a reference into the promise heap. *)
Abbreviation pid := nat (only parsing).

(** [rtc.Stream] lives outside the translated files; the code only calls
    [id()] on it. *)
Record Stream := mkStream { stream_id : string }.

#[warnings="-register-all"]
Inductive jsval :=
| JUndefined
| JNull
| JBool (b : bool)
| JNum (n : Z)
| JStr (s : string)
| JArr (l : list jsval)
| JObj (fields : list (string * jsval))
| JPromise (p : pid)
| JStream (s : Stream).

(** [if (v)] *)
Definition truthy (v : jsval) : bool :=
  match v with
  | JUndefined | JNull => false
  | JBool b => b
  | JNum n => negb (n =? 0)%Z
  | JStr s => negb (s =? "")
  | JArr _ | JObj _ | JPromise _ | JStream _ => true
  end.

(** [v == null] *)
Definition nullish (v : jsval) : bool :=
  match v with
  | JUndefined | JNull => true
  | _ => false
  end.

(** [v === false] *)
Definition strict_false (v : jsval) : bool :=
  match v with
  | JBool false => true
  | _ => false
  end.

(** ** Plain objects used as dictionaries

    An object is the list of its own properties in creation order.
    Enumeration ([Object.entries], [Object.assign], spread, [for in])
    follows the own-property-key order of the language: array indices in
    ascending numeric order first, then the other keys in creation
    order.

    Prototypes are not part of the model.  It is exact for every key but
    ["__proto__"]: in the language [o["__proto__"] = v] sets the prototype
    of [o] and creates no property, and [delete o["__proto__"]] removes
    nothing.  A statement that follows a key from an assignment to an
    enumeration or a removal excludes that key. *)
Module Obj.

Definition t (V : Type) := list (string * V).

Section Ops.
Context {V : Type}.

Fixpoint get (k : string) (o : t V) : option V :=
  match o with
  | [] => None
  | (k', v) :: o' => if k' =? k then Some v else get k o'
  end.

(** [o[k] = v]: an existing property keeps its place. *)
Fixpoint set (k : string) (v : V) (o : t V) : t V :=
  match o with
  | [] => [(k, v)]
  | (k', v') :: o' =>
      if k' =? k then (k', v) :: o' else (k', v') :: set k v o'
  end.

(** [delete o[k]] *)
Fixpoint remove (k : string) (o : t V) : t V :=
  match o with
  | [] => []
  | (k', v') :: o' =>
      if k' =? k then remove k o' else (k', v') :: remove k o'
  end.

Definition digit (a : ascii) : option N :=
  let n := N_of_ascii a in
  if ((48 <=? n) && (n <=? 57))%N then Some (n - 48)%N else None.

Fixpoint parse_dec (s : string) (acc : N) : option N :=
  match s with
  | EmptyString => Some acc
  | String a s' =>
      match digit a with
      | Some d => parse_dec s' (10 * acc + d)%N
      | None => None
      end
  end.

(** A key is an array index when it is the canonical decimal form of an
    integer below [2^32 - 1]. *)
Definition array_index (k : string) : option N :=
  match k with
  | EmptyString => None
  | String a s' =>
      if (Ascii.eqb a "0" && negb (s' =? ""))%bool then None
      else match parse_dec k 0 with
           | Some n => if (n <? 4294967295)%N then Some n else None
           | None => None
           end
  end.

Fixpoint insert_index (n : N) (kv : string * V)
    (l : list (N * (string * V))) : list (N * (string * V)) :=
  match l with
  | [] => [(n, kv)]
  | (m, kv') :: l' =>
      if (n <? m)%N then (n, kv) :: l else (m, kv') :: insert_index n kv l'
  end.

Fixpoint index_entries (o : t V) : list (N * (string * V)) :=
  match o with
  | [] => []
  | (k, v) :: o' =>
      match array_index k with
      | Some n => insert_index n (k, v) (index_entries o')
      | None => index_entries o'
      end
  end.

Fixpoint named_entries (o : t V) : list (string * V) :=
  match o with
  | [] => []
  | (k, v) :: o' =>
      match array_index k with
      | Some _ => named_entries o'
      | None => (k, v) :: named_entries o'
      end
  end.

(** [Object.entries(o)] *)
Definition entries (o : t V) : list (string * V) :=
  map snd (index_entries o) ++ named_entries o.

(** [Object.assign(target, src)] *)
Definition assign (target src : t V) : t V :=
  fold_left (fun tg kv => set (fst kv) (snd kv) tg) (entries src) target.

(** [Object.assign({}, a, b)] and [{...a, ...b}] *)
Definition merge (a b : t V) : t V := assign (assign [] a) b.

(** An object has each of its keys once. *)
Definition wf (o : t V) : Prop := NoDup (map fst o).

End Ops.
End Obj.

(** ** Promises and the job queue *)

Inductive outcome :=
| Fulfilled (v : jsval)
| Rejected (e : jsval).

(** How a callback ends. *)
Inductive completion :=
| Return (v : jsval)
| Throw (e : jsval).

Definition type_error : jsval := JStr "TypeError".

Fixpoint collect {X : Type} (l : list (option X)) : option (list X) :=
  match l with
  | [] => Some []
  | Some x :: l' =>
      match collect l' with
      | Some xs => Some (x :: xs)
      | None => None
      end
  | None :: _ => None
  end.

Module Promise.
Section Machine.
(** [K] names the callbacks of the program, [A] is the program's own
    state. *)
Context {K A : Type}.

(** What a pending promise holds for later:
    - [RThen onF onR q]: a [then(onF, onR)] whose result is [q]
      ([catch(f)] is [then(undefined, f)]);
    - [RAllElem i agg]: element [i] of the [Promise.all] that made [agg];
    - [RForward q]: [q] was resolved with this promise and follows it. *)
Inductive reaction :=
| RThen (onF onR : option K) (q : pid)
| RAllElem (i : nat) (agg : pid)
| RForward (q : pid).

Inductive pstate :=
| Pending (rs : list reaction)
| Settled (o : outcome).

(** [slots] is the value array of a [Promise.all] result; [external]
    marks a promise that code outside the translated files settles. *)
Record cell := Cell {
  st : pstate;
  slots : list (option jsval);
  external : bool
}.

Inductive job :=
| JReact (r : reaction) (o : outcome)
| JThenable (t q : pid).

Record World := mkWorld {
  heap : list cell;
  queue : list job;
  app : A
}.

Definition set_heap (h : list cell) (w : World) : World :=
  {| heap := h; queue := queue w; app := app w |}.
Definition set_queue (q : list job) (w : World) : World :=
  {| heap := heap w; queue := q; app := app w |}.
Definition set_app (a : A) (w : World) : World :=
  {| heap := heap w; queue := queue w; app := a |}.

Definition set_st (s : pstate) (c : cell) : cell :=
  {| st := s; slots := slots c; external := external c |}.
Definition set_slots (sl : list (option jsval)) (c : cell) : cell :=
  {| st := st c; slots := sl; external := external c |}.

Definition enqueue (j : job) (w : World) : World :=
  set_queue (queue w ++ [j]) w.

Definition alloc (c : cell) (w : World) : pid * World :=
  (length (heap w), set_heap (heap w ++ [c]) w).

Definition derived : cell :=
  {| st := Pending []; slots := []; external := false |}.

(** A promise made outside, for the environment to settle. *)
Definition new_external (w : World) : pid * World :=
  alloc {| st := Pending []; slots := []; external := true |} w.

(** [Promise.resolve(v)] for a value that is not a promise *)
Definition promise_resolve (v : jsval) (w : World) : pid * World :=
  alloc {| st := Settled (Fulfilled v); slots := []; external := false |} w.

(** [Promise.reject(e)] *)
Definition promise_reject (e : jsval) (w : World) : pid * World :=
  alloc {| st := Settled (Rejected e); slots := []; external := false |} w.

Definition pstate_of (w : World) (p : pid) : option pstate :=
  st <$> heap w !! p.

(** Register [r] on [p]: kept while [p] is pending, queued as a job at
    once when [p] is settled. *)
Definition subscribe (p : pid) (r : reaction) (w : World) : World :=
  match heap w !! p with
  | Some c =>
      match st c with
      | Pending rs => set_heap (<[p := set_st (Pending (rs ++ [r])) c]> (heap w)) w
      | Settled o => enqueue (JReact r o) w
      end
  | None => w
  end.

(** [p.then(onF, onR)] *)
Definition then_ (p : pid) (onF onR : option K) (w : World) : pid * World :=
  let (q, w1) := alloc derived w in
  (q, subscribe p (RThen onF onR q) w1).

(** A pending promise takes its outcome and hands its reactions to the
    job queue; a settled promise is left alone. *)
Definition settle (p : pid) (o : outcome) (w : World) : World :=
  match heap w !! p with
  | Some c =>
      match st c with
      | Pending rs =>
          set_queue (queue w ++ map (fun r => JReact r o) rs)
            (set_heap (<[p := set_st (Settled o) c]> (heap w)) w)
      | Settled _ => w
      end
  | None => w
  end.

(** The resolve function of [q]: a promise is followed, any other value
    fulfils. *)
Definition resolve (q : pid) (v : jsval) (w : World) : World :=
  match v with
  | JPromise t =>
      if (t =? q)%nat then settle q (Rejected type_error) w
      else enqueue (JThenable t q) w
  | _ => settle q (Fulfilled v) w
  end.

Definition complete (q : pid) (c : completion) (w : World) : World :=
  match c with
  | Return v => resolve q v w
  | Throw e => settle q (Rejected e) w
  end.

Fixpoint subscribe_all (agg : pid) (i : nat) (ps : list pid) (w : World)
    : World :=
  match ps with
  | [] => w
  | p :: ps' => subscribe_all agg (S i) ps' (subscribe p (RAllElem i agg) w)
  end.

(** [Promise.all(ps)] for an array of promises *)
Definition promise_all (ps : list pid) (w : World) : pid * World :=
  let (agg, w1) :=
    alloc {| st := Pending [];
             slots := replicate (length ps) None;
             external := false |} w in
  let w2 := subscribe_all agg 0 ps w1 in
  (agg, match ps with
        | [] => settle agg (Fulfilled (JArr [])) w2
        | _ :: _ => w2
        end).

(** Element [i] of a [Promise.all] was fulfilled. *)
Definition fill_slot (agg : pid) (i : nat) (v : jsval) (w : World) : World :=
  match heap w !! agg with
  | Some c =>
      let sl := <[i := Some v]> (slots c) in
      let w1 := set_heap (<[agg := set_slots sl c]> (heap w)) w in
      match collect sl with
      | Some vs => resolve agg (JArr vs) w1
      | None => w1
      end
  | None => w
  end.

(** The environment settles a promise it owns. *)
Definition settle_external (p : pid) (o : outcome) (w : World) : World :=
  match heap w !! p with
  | Some c => if external c then settle p o w else w
  | None => w
  end.

Section Run.
(** The callbacks of the program. *)
Variable run_callback : K -> jsval -> World -> completion * World.

Definition run_job (j : job) (w : World) : World :=
  match j with
  | JReact (RThen onF onR q) (Fulfilled v) =>
      match onF with
      | Some k => let (c, w1) := run_callback k v w in complete q c w1
      | None => settle q (Fulfilled v) w
      end
  | JReact (RThen onF onR q) (Rejected e) =>
      match onR with
      | Some k => let (c, w1) := run_callback k e w in complete q c w1
      | None => settle q (Rejected e) w
      end
  | JReact (RAllElem i agg) (Fulfilled v) => fill_slot agg i v w
  | JReact (RAllElem i agg) (Rejected e) => settle agg (Rejected e) w
  | JReact (RForward q) o => settle q o w
  | JThenable t q => subscribe t (RForward q) w
  end.

Definition step (w : World) : option World :=
  match queue w with
  | [] => None
  | j :: js => Some (run_job j (set_queue js w))
  end.

Fixpoint drain_fuel (n : nat) (w : World) : World :=
  match n with
  | 0 => w
  | S n' =>
      match step w with
      | None => w
      | Some w' => drain_fuel n' w'
      end
  end.

(** Reactions and jobs still to run, counted with a weight [wt] for each
    reaction and [jt] for a job that follows a promise. *)
Definition job_total (wt : reaction -> nat) (jt : nat) (j : job) : nat :=
  match j with
  | JReact r _ => wt r
  | JThenable _ _ => jt
  end.

Definition cell_total (wt : reaction -> nat) (c : cell) : nat :=
  match st c with
  | Pending rs => sum_list_with wt rs
  | Settled _ => 0
  end.

Definition total (wt : reaction -> nat) (jt : nat) (w : World) : nat :=
  sum_list_with (cell_total wt) (heap w)
  + sum_list_with (job_total wt jt) (queue w).

(** A bound on the jobs still to run. *)
Definition reaction_weight (r : reaction) : nat :=
  match r with
  | RThen _ _ _ => 3
  | RAllElem _ _ => 1
  | RForward _ => 1
  end.

Definition measure (w : World) : nat := total reaction_weight 2 w.

(** Run the job queue until it is empty. *)
Definition drain (w : World) : World := drain_fuel (measure w) w.

End Run.
End Machine.

Arguments reaction : clear implicits.
Arguments pstate : clear implicits.
Arguments cell : clear implicits.
Arguments job : clear implicits.
Arguments World : clear implicits.

End Promise.

(** ** [src/remote_peer.ts]: one peer session

    The world of a session is the promise heap, the job queue and the
    fields of the [RemotePeer] object.  The peer connection and the channel
    collection are classes outside the translated files: the instructions
    that [connect] and [close] give them are recorded, in order, in
    [calls].

    The handlers that the constructor registers pass signaling payloads,
    candidates and arriving streams and channels between the signaling, the
    peer connection and the two collections (the handler of ['left'] also
    closes the peer connection).  They, and the methods [status],
    [message], [currentFingerprints] and [isLocal], change none of the
    fields below; they are not part of the model. *)
Module RemotePeer.
Import Promise.

(** The two closures that [connect] hands to [then]. *)
Inductive callback :=
| CbTag (name : string)
| CbBody.

(** [rtc.LocalPeer], shared by all sessions of a room: its [streams] and
    [channels] dictionaries. *)
Record LocalPeer := mkLocal {
  l_streams : Obj.t pid;
  l_channels : Obj.t jsval
}.

Inductive call :=
| AddStream (stream : jsval)
| AddDataChannel (name : string) (options : jsval)
| Connect
| Close
| SetLocal (desc : Obj.t jsval).

Record state := mkState {
  options : Obj.t jsval;
  local : LocalPeer;
  private_streams : Obj.t pid;
  private_channels : Obj.t jsval;
  streams_desc : Obj.t jsval;
  channels_desc : Obj.t jsval;
  connect_p : option pid;
  streams : Obj.t pid;
  channels : Obj.t pid;
  calls : list call
}.

Definition W := World callback state.

Definition set_local (x : LocalPeer) (s : state) : state :=
  mkState (options s) x (private_streams s) (private_channels s)
    (streams_desc s) (channels_desc s) (connect_p s) (streams s) (channels s)
    (calls s).
Definition set_private_streams (x : Obj.t pid) (s : state) : state :=
  mkState (options s) (local s) x (private_channels s)
    (streams_desc s) (channels_desc s) (connect_p s) (streams s) (channels s)
    (calls s).
Definition set_private_channels (x : Obj.t jsval) (s : state) : state :=
  mkState (options s) (local s) (private_streams s) x
    (streams_desc s) (channels_desc s) (connect_p s) (streams s) (channels s)
    (calls s).
Definition set_streams_desc (x : Obj.t jsval) (s : state) : state :=
  mkState (options s) (local s) (private_streams s) (private_channels s)
    x (channels_desc s) (connect_p s) (streams s) (channels s) (calls s).
Definition set_channels_desc (x : Obj.t jsval) (s : state) : state :=
  mkState (options s) (local s) (private_streams s) (private_channels s)
    (streams_desc s) x (connect_p s) (streams s) (channels s) (calls s).
Definition set_connect_p (x : option pid) (s : state) : state :=
  mkState (options s) (local s) (private_streams s) (private_channels s)
    (streams_desc s) (channels_desc s) x (streams s) (channels s) (calls s).
Definition set_streams (x : Obj.t pid) (s : state) : state :=
  mkState (options s) (local s) (private_streams s) (private_channels s)
    (streams_desc s) (channels_desc s) (connect_p s) x (channels s) (calls s).
Definition set_channels (x : Obj.t pid) (s : state) : state :=
  mkState (options s) (local s) (private_streams s) (private_channels s)
    (streams_desc s) (channels_desc s) (connect_p s) (streams s) x (calls s).

(** A call on the peer connection or on the channel collection. *)
Definition record (c : call) (s : state) : state :=
  mkState (options s) (local s) (private_streams s) (private_channels s)
    (streams_desc s) (channels_desc s) (connect_p s) (streams s) (channels s)
    (calls s ++ [c]).

(** [Peer.DEFAULT_STREAM] and [Peer.DEFAULT_CHANNEL]: the class [Peer] is
    outside the translated files, the values are the ones the JSDoc of
    [stream] and [channel] gives. *)
Definition DEFAULT_STREAM : string := "stream".
Definition DEFAULT_CHANNEL : string := "data".

(** [this.options.auto_connect] *)
Definition auto_connect (s : state) : jsval :=
  default JUndefined (Obj.get "auto_connect" (options s)).

(** The streams [connect] waits for:
    [Object.assign({}, this.local.streams, this.private_streams)]. *)
Definition gathered_streams (s : state) : Obj.t pid :=
  Obj.merge (l_streams (local s)) (private_streams s).

(** The channels [connect] creates:
    [{...this.local.channels, ...this.private_channels}]. *)
Definition gathered_channels (s : state) : Obj.t jsval :=
  Obj.merge (l_channels (local s)) (private_channels s).

(** The first loop of [connect]:
    [stream.then(stream => [name, stream])] for every entry. *)
Fixpoint tag_streams (ents : list (string * pid)) (w : W) : list pid * W :=
  match ents with
  | [] => ([], w)
  | (name, stream) :: rest =>
      let (promise, w1) := then_ stream (Some (CbTag name)) None w in
      let (promises, w2) := tag_streams rest w1 in
      (promise :: promises, w2)
  end.

(** [connect()] *)
Definition connect (w : W) : pid * W :=
  match connect_p (app w) with
  | Some p => (p, w)
  | None =>
      let object := gathered_streams (app w) in
      let (stream_promises, w1) := tag_streams (Obj.entries object) w in
      let (all, w2) := promise_all stream_promises w1 in
      let (p, w3) := then_ all (Some CbBody) None w2 in
      (p, set_app (set_connect_p (Some p) (app w3)) w3)
  end.

(** The loop "add all streams" of the callback in [connect].  The
    array is typed [[string, Stream][]] and its elements are the pairs made
    by the closures of the first loop.  When the second component is not a
    [Stream], it is handed to [addStream] all the same and [stream.id()]
    raises a [TypeError]. *)
Fixpoint add_streams (streams : list jsval) (s : state) : option jsval * state :=
  match streams with
  | [] => (None, s)
  | JArr [JStr name; JStream stream] :: rest =>
      let s1 := record (AddStream (JStream stream)) s in
      let s2 :=
        set_streams_desc
          (Obj.set name (JStr (stream_id stream)) (streams_desc s1)) s1 in
      add_streams rest s2
  | JArr [JStr name; v] :: _ => (Some type_error, record (AddStream v) s)
  | _ :: _ => (Some type_error, s)
  end.

(** The loop "create data channels". *)
Fixpoint add_channels (ents : list (string * jsval)) (s : state) : state :=
  match ents with
  | [] => s
  | (name, opts) :: rest =>
      let s1 := record (AddDataChannel name opts) s in
      let s2 := set_channels_desc (Obj.set name opts (channels_desc s1)) s1 in
      add_channels rest s2
  end.

(** The callback [streams => { ... }] of [connect]; its result is the
    promise of [peer_connection.connect()]. *)
Definition connect_body (v : jsval) (w : W) : completion * W :=
  match v with
  | JArr streams =>
      match add_streams streams (app w) with
      | (Some e, s1) => (Throw e, set_app s1 w)
      | (None, s1) =>
          let s2 := add_channels (Obj.entries (gathered_channels s1)) s1 in
          let s3 := record (SetLocal (channels_desc s2)) s2 in
          let s4 := record Connect s3 in
          let (t, w1) := new_external (set_app s4 w) in
          (Return (JPromise t), w1)
      end
  | _ => (Throw type_error, w)
  end.

Definition run_callback (k : callback) (v : jsval) (w : W) : completion * W :=
  match k with
  | CbTag name => (Return (JArr [JStr name; v]), w)
  | CbBody => connect_body v w
  end.

(** The fields as the constructor leaves them before its last statement. *)
Definition init (opts : Obj.t jsval) (l : LocalPeer) : state :=
  {| options := opts; local := l;
     private_streams := []; private_channels := [];
     streams_desc := []; channels_desc := [];
     connect_p := None; streams := []; channels := []; calls := [] |}.

(** [new RemotePeer(peer_connection, signaling, local, options)], in a heap
    [h] of promises that exist already. *)
Definition constructor (opts : Obj.t jsval) (l : LocalPeer)
    (h : list (cell callback)) : W :=
  let w := mkWorld h [] (init opts l) in
  if nullish (auto_connect (app w)) || truthy (auto_connect (app w))
  then snd (connect w)
  else w.

(** [close()] *)
Definition close (w : W) : W := set_app (record Close (app w)) w.

(** Modelled from the spec: [StreamCollection.get] and
    [ChannelCollection.get] ([src/internal] is not among the translated
    files): the future already held for the name, or else a new pending one
    that the collection keeps. *)
Definition collection_get (name : string) (held : Obj.t pid) (w : W)
    : pid * Obj.t pid * W :=
  match Obj.get name held with
  | Some p => (p, held, w)
  | None => let (p, w1) := new_external w in (p, Obj.set name p held, w1)
  end.

(** [stream(name)] *)
Definition stream (name : option string) (w : W) : pid * W :=
  let name := default DEFAULT_STREAM name in
  let '(p, held, w1) := collection_get name (streams (app w)) w in
  (p, set_app (set_streams held (app w1)) w1).

(** [channel(name)] *)
Definition channel (name : option string) (w : W) : pid * W :=
  let name := default DEFAULT_CHANNEL name in
  let '(p, held, w1) := collection_get name (channels (app w)) w in
  (p, set_app (set_channels held (app w1)) w1).

(** [addStream(name, obj)].  [obj] is a promise, a [Stream], or a
    configuration, which goes to [Stream.createStream]; a primitive makes
    the [in] operator raise.  A configuration is taken to have no property
    [then], as its type [MediaStreamConstraints] has none: the test
    ['then' in obj] would take an object with such a property for a
    promise and store it as it is. *)
Definition addStream (name obj : jsval) (w : W) : completion * W :=
  if negb (strict_false (auto_connect (app w))) then
    let (p, w1) :=
      promise_reject
        (JStr "Unable to add streams directly to remote peers without 'auto_connect' option set to 'false'")
        w in
    (Return (JPromise p), w1)
  else
    let saveStream (name : string) (stream_p : pid) (w : W) :=
      (Return (JPromise stream_p),
       set_app
         (set_private_streams
            (Obj.set name stream_p (private_streams (app w))) (app w)) w) in
    let '(name, obj) :=
      match name with
      | JStr s => (s, obj)
      | _ => (DEFAULT_STREAM, name)
      end in
    match obj with
    | JPromise p => saveStream name p w
    | JStream s =>
        let (p, w1) := promise_resolve (JStream s) w in saveStream name p w1
    | JObj _ | JArr _ =>
        let (p, w1) := new_external w in saveStream name p w1
    | JUndefined | JNull | JBool _ | JNum _ | JStr _ => (Throw type_error, w)
    end.

(** [addDataChannel(name, desc)] *)
Definition addDataChannel (name desc : jsval) (w : W) : completion * W :=
  if negb (strict_false (auto_connect (app w))) then
    let (p, w1) :=
      promise_reject
        (JStr "Unable to add channels directly to remote peers without 'auto_connect' option set to 'false'")
        w in
    (Return (JPromise p), w1)
  else
    let '(name, desc) :=
      match name with
      | JStr s => (s, desc)
      | _ => (DEFAULT_CHANNEL, name)
      end in
    let desc := if nullish desc then JObj [("ordered", JBool true)] else desc in
    let w1 :=
      set_app
        (set_private_channels
           (Obj.set name desc (private_channels (app w))) (app w)) w in
    let (p, w2) := channel (Some name) w1 in
    (Return (JPromise p), w2).

(** What can happen to a session: the application calls one of the methods
    [connect], [addStream], [addDataChannel], [close], [stream] and
    [channel], changes the shared local peer, or a promise owned by the
    environment settles.  After each, the job queue runs until it is
    empty. *)
Inductive event :=
| EConnect
| EAddStream (name obj : jsval)
| EAddDataChannel (name desc : jsval)
| EClose
| EGetStream (name : option string)
| EGetChannel (name : option string)
| ELocalStream (name : string) (p : pid)
| ELocalChannel (name : string) (opts : jsval)
| ESettle (p : pid) (o : outcome).

Definition apply (e : event) (w : W) : W :=
  match e with
  | EConnect => snd (connect w)
  | EAddStream name obj => snd (addStream name obj w)
  | EAddDataChannel name desc => snd (addDataChannel name desc w)
  | EClose => close w
  | EGetStream name => snd (stream name w)
  | EGetChannel name => snd (channel name w)
  | ELocalStream name p =>
      let l := local (app w) in
      set_app (set_local (mkLocal (Obj.set name p (l_streams l)) (l_channels l))
                 (app w)) w
  | ELocalChannel name opts =>
      let l := local (app w) in
      set_app (set_local (mkLocal (l_streams l) (Obj.set name opts (l_channels l)))
                 (app w)) w
  | ESettle p o => settle_external p o w
  end.

Definition run_event (w : W) (e : event) : W := drain run_callback (apply e w).

Definition run (evs : list event) (w : W) : W := fold_left run_event evs w.

End RemotePeer.

(** ** [src/room.ts]: the room

    The world of a room is the promise heap, the job queue and the fields
    of the [Room] object.  What the room sends out (the events it emits,
    the calls it makes on the signaling, the peers it creates) is recorded
    in order in [trace]; listeners are outside the translated files and
    are taken to return normally.  A remote peer is known to the room by
    its identity only: the n-th peer made by [createPeer]. *)
Module Room.
Import Promise.

Inductive RoomState := idle | connecting | connected | closed | failed.

(** The two closures of [connect]:
    [() => { this.setState("connected") }] and
    [(err) => { this.setState("failed"); throw err }]. *)
Inductive callback :=
| CbJoined
| CbJoinFailed.

Inductive output :=
| Emit_closed
| Emit_state_changed (s : RoomState)
| Emit_peer_joined (peer : nat) (id : string)
| Emit_peer_left (peer : nat)
| Emit_peers_changed (peers : Obj.t nat)
| Emit_peer_status_changed (peer : nat) (status : jsval)
| Emit_peer_message (peer : nat) (data : jsval)
| Signaling_connect
| Signaling_close
| Signaling_setStatus (status : jsval)
| Create_peer (id : string) (first : bool).

(** [sessions] lists the signaling ids of the peers created so far: the
    handlers registered on peer [n] close over [sessions !! n]. *)
Record room := mkRoom {
  peers : Obj.t nat;
  join_p : option pid;
  state : RoomState;
  sessions : list string;
  trace : list output
}.

Definition W := World callback room.

Definition set_peers (x : Obj.t nat) (r : room) : room :=
  mkRoom x (join_p r) (state r) (sessions r) (trace r).
Definition set_join_p (x : option pid) (r : room) : room :=
  mkRoom (peers r) x (state r) (sessions r) (trace r).
Definition set_state (x : RoomState) (r : room) : room :=
  mkRoom (peers r) (join_p r) x (sessions r) (trace r).
Definition set_sessions (x : list string) (r : room) : room :=
  mkRoom (peers r) (join_p r) (state r) x (trace r).
Definition out (o : output) (r : room) : room :=
  mkRoom (peers r) (join_p r) (state r) (sessions r) (trace r ++ [o]).

(** [setState(state)] *)
Definition setState (s : RoomState) (r : room) : room :=
  out (Emit_state_changed s) (set_state s r).

(** [new Room(signaling, options)]; [status] is [local._status]. *)
Definition constructor (status : jsval) (h : list (cell callback)) : W :=
  mkWorld h []
    {| peers := []; join_p := None; state := idle; sessions := [];
       trace := [Signaling_setStatus status] |}.

(** The handler of the signaling's ['closed']. *)
Definition on_closed (r : room) : room :=
  let r1 := set_peers [] r in
  let r2 := out Emit_closed r1 in
  match state r2 with
  | connected => setState closed r2
  | _ => r2
  end.

(** The handler of the signaling's ['peer_joined']. *)
Definition on_peer_joined (id : string) (first : bool) (r : room) : room :=
  let peer := length (sessions r) in
  let r1 := set_sessions (sessions r ++ [id]) (out (Create_peer id first) r) in
  let r2 := set_peers (Obj.set id peer (peers r1)) r1 in
  let r3 := out (Emit_peer_joined peer id) r2 in
  out (Emit_peers_changed (peers r3)) r3.

(** The handler of a peer's ['left']. *)
Definition on_peer_left (peer : nat) (r : room) : room :=
  match sessions r !! peer with
  | Some id =>
      let r1 := set_peers (Obj.remove id (peers r)) r in
      let r2 := out (Emit_peer_left peer) r1 in
      out (Emit_peers_changed (peers r2)) r2
  | None => r
  end.

(** The handlers of a peer's ['status_changed'] and ['message']. *)
Definition on_peer_status (peer : nat) (status : jsval) (r : room) : room :=
  match sessions r !! peer with
  | Some _ => out (Emit_peer_status_changed peer status) r
  | None => r
  end.

Definition on_peer_message (peer : nat) (data : jsval) (r : room) : room :=
  match sessions r !! peer with
  | Some _ => out (Emit_peer_message peer data) r
  | None => r
  end.

(** [connect()] *)
Definition connect (w : W) : pid * W :=
  let (join, w1) :=
    match join_p (app w) with
    | Some p => (p, w)
    | None =>
        let r1 := setState connecting (app w) in
        let (p, w') := new_external (set_app (out Signaling_connect r1) w) in
        (p, set_app (set_join_p (Some p) (app w')) w')
    end in
  let (joined, w2) := then_ join (Some CbJoined) None w1 in
  then_ joined None (Some CbJoinFailed) w2.

(** [leave()] and [destroy()]: both are [this.signaling.close()]. *)
Definition leave (w : W) : pid * W :=
  new_external (set_app (out Signaling_close (app w)) w).

Definition destroy (w : W) : pid * W := leave w.

Definition run_callback (k : callback) (v : jsval) (w : W) : completion * W :=
  match k with
  | CbJoined => (Return JUndefined, set_app (setState connected (app w)) w)
  | CbJoinFailed => (Throw v, set_app (setState failed (app w)) w)
  end.

Inductive event :=
| EConnect
| ELeave
| EDestroy
| ESignalingClosed
| ESignalingPeerJoined (id : string) (first : bool)
| EPeerLeft (peer : nat)
| EPeerStatus (peer : nat) (status : jsval)
| EPeerMessage (peer : nat) (data : jsval)
| ELocalStatus (status : jsval)
| ESettle (p : pid) (o : outcome).

Definition apply (e : event) (w : W) : W :=
  match e with
  | EConnect => snd (connect w)
  | ELeave => snd (leave w)
  | EDestroy => snd (destroy w)
  | ESignalingClosed => set_app (on_closed (app w)) w
  | ESignalingPeerJoined id first => set_app (on_peer_joined id first (app w)) w
  | EPeerLeft peer => set_app (on_peer_left peer (app w)) w
  | EPeerStatus peer status => set_app (on_peer_status peer status (app w)) w
  | EPeerMessage peer data => set_app (on_peer_message peer data (app w)) w
  | ELocalStatus status => set_app (out (Signaling_setStatus status) (app w)) w
  | ESettle p o => settle_external p o w
  end.

Definition run_event (w : W) (e : event) : W := drain run_callback (apply e w).

Definition run (evs : list event) (w : W) : W := fold_left run_event evs w.

(** The states the room went through, read off the trace. *)
Fixpoint state_history (t : list output) : list RoomState :=
  match t with
  | [] => []
  | Emit_state_changed s :: t' => s :: state_history t'
  | _ :: t' => state_history t'
  end.

End Room.

(** ** [src/remote_peer.coffee]: the earlier peer session

    Translated through the JavaScript that CoffeeScript emits: [name] is
    one variable of the activation of [connect], declared at its top,
    assigned by the loops and read by the closure inside the first loop
    when it runs.  The class has no peer-private resources. *)
Module Coffee.
Import Promise.

Inductive callback :=
| CbTag
| CbBody.

Record state := mkState {
  options : Obj.t jsval;
  local : RemotePeer.LocalPeer;
  streams_desc : Obj.t jsval;
  channels_desc : Obj.t jsval;
  connect_p : option pid;
  name : jsval;
  calls : list RemotePeer.call
}.

Definition W := World callback state.

Definition set_streams_desc (x : Obj.t jsval) (s : state) : state :=
  mkState (options s) (local s) x (channels_desc s) (connect_p s) (name s)
    (calls s).
Definition set_channels_desc (x : Obj.t jsval) (s : state) : state :=
  mkState (options s) (local s) (streams_desc s) x (connect_p s) (name s)
    (calls s).
Definition set_connect_p (x : option pid) (s : state) : state :=
  mkState (options s) (local s) (streams_desc s) (channels_desc s) x (name s)
    (calls s).
Definition set_name (x : jsval) (s : state) : state :=
  mkState (options s) (local s) (streams_desc s) (channels_desc s)
    (connect_p s) x (calls s).
Definition record (c : RemotePeer.call) (s : state) : state :=
  mkState (options s) (local s) (streams_desc s) (channels_desc s)
    (connect_p s) (name s) (calls s ++ [c]).

Definition auto_connect (s : state) : jsval :=
  default JUndefined (Obj.get "auto_connect" (options s)).

(** The streams [connect] waits for: [for name, stream of @local.streams]. *)
Definition gathered_streams (s : state) : Obj.t pid :=
  RemotePeer.l_streams (local s).

(** The channels [connect] creates: [for name, options of @local.channels]. *)
Definition gathered_channels (s : state) : Obj.t jsval :=
  RemotePeer.l_channels (local s).

(** [for name, stream of @local.streams]: each round assigns [name] and
    calls [stream.then]. *)
Fixpoint tag_streams (ents : list (string * pid)) (w : W) : list pid * W :=
  match ents with
  | [] => ([], w)
  | (n, stream) :: rest =>
      let w0 := set_app (set_name (JStr n) (app w)) w in
      let (promise, w1) := then_ stream (Some CbTag) None w0 in
      let (promises, w2) := tag_streams rest w1 in
      (promise :: promises, w2)
  end.

(** [connect: () ->] *)
Definition connect (w : W) : pid * W :=
  match connect_p (app w) with
  | Some p => (p, w)
  | None =>
      let w0 := set_app (set_name JUndefined (app w)) w in
      let (stream_promises, w1) :=
        tag_streams (Obj.entries (gathered_streams (app w0))) w0 in
      let (all, w2) := promise_all stream_promises w1 in
      let (p, w3) := then_ all (Some CbBody) None w2 in
      (p, set_app (set_connect_p (Some p) (app w3)) w3)
  end.

(** [for [name, stream] in streams]; a second component that is not a
    [Stream] is handed to [addStream] all the same, then [stream.id()]
    raises a [TypeError]. *)
Fixpoint add_streams (streams : list jsval) (s : state) : option jsval * state :=
  match streams with
  | [] => (None, s)
  | JArr [JStr n; JStream stream] :: rest =>
      let s0 := set_name (JStr n) s in
      let s1 := record (RemotePeer.AddStream (JStream stream)) s0 in
      let s2 :=
        set_streams_desc
          (Obj.set n (JStr (stream_id stream)) (streams_desc s1)) s1 in
      add_streams rest s2
  | JArr [JStr n; v] :: _ =>
      (Some type_error, record (RemotePeer.AddStream v) (set_name (JStr n) s))
  | _ :: _ => (Some type_error, s)
  end.

(** [for name, options of @local.channels] *)
Fixpoint add_channels (ents : list (string * jsval)) (s : state) : state :=
  match ents with
  | [] => s
  | (n, opts) :: rest =>
      let s0 := set_name (JStr n) s in
      let s1 := record (RemotePeer.AddDataChannel n opts) s0 in
      let s2 := set_channels_desc (Obj.set n opts (channels_desc s1)) s1 in
      add_channels rest s2
  end.

Definition connect_body (v : jsval) (w : W) : completion * W :=
  match v with
  | JArr streams =>
      match add_streams streams (app w) with
      | (Some e, s1) => (Throw e, set_app s1 w)
      | (None, s1) =>
          let s2 := add_channels (Obj.entries (gathered_channels s1)) s1 in
          let s3 := record (RemotePeer.SetLocal (channels_desc s2)) s2 in
          let s4 := record RemotePeer.Connect s3 in
          let (t, w1) := new_external (set_app s4 w) in
          (Return (JPromise t), w1)
      end
  | _ => (Throw type_error, w)
  end.

(** The closure [(stream) -> return [name, stream]] reads [name] when it
    runs. *)
Definition run_callback (k : callback) (v : jsval) (w : W) : completion * W :=
  match k with
  | CbTag => (Return (JArr [name (app w); v]), w)
  | CbBody => connect_body v w
  end.

Definition init (opts : Obj.t jsval) (l : RemotePeer.LocalPeer) : state :=
  {| options := opts; local := l; streams_desc := []; channels_desc := [];
     connect_p := None; name := JUndefined; calls := [] |}.

(** [constructor: (@peer_connection, @signaling, @local, @options) ->];
    its last statement is
    [if not @options.auto_connect? or not @options.auto_connect]. *)
Definition constructor (opts : Obj.t jsval) (l : RemotePeer.LocalPeer)
    (h : list (cell callback)) : W :=
  let w := mkWorld h [] (init opts l) in
  if nullish (auto_connect (app w)) || negb (truthy (auto_connect (app w)))
  then snd (connect w)
  else w.

End Coffee.

(** * Properties *)

(** ** The promise machine *)
Module PromiseFacts.
Import Promise.

Lemma sum_list_with_insert {X : Type} (f : X -> nat) (l : list X) i x y :
  l !! i = Some x ->
  sum_list_with f (<[i:=y]> l) + f x = sum_list_with f l + f y.
Proof.
  revert i. induction l as [|a l IH]; intros [|i] Hi; simplify_eq/=; try lia.
  specialize (IH i Hi). lia.
Qed.

Section Facts.
Context {K A : Type}.
Implicit Types (w : World K A) (c : cell K) (r : reaction K) (j : job K).

(** *** The machine leaves the program's state alone *)

Lemma app_settle p o w : app (settle p o w) = app w.
Proof. unfold settle. destruct (heap w !! p) as [c|]; [destruct (st c)|]; done. Qed.

Lemma app_subscribe p r w : app (subscribe p r w) = app w.
Proof. unfold subscribe. destruct (heap w !! p) as [c|]; [destruct (st c)|]; done. Qed.

Lemma app_resolve q v w : app (resolve q v w) = app w.
Proof.
  unfold resolve. destruct v; try apply app_settle.
  destruct (p =? q)%nat; [apply app_settle | done].
Qed.

Lemma app_complete q cpl w : app (complete q cpl w) = app w.
Proof. destruct cpl; [apply app_resolve | apply app_settle]. Qed.

Lemma app_fill_slot agg i v w : app (fill_slot agg i v w) = app w.
Proof.
  unfold fill_slot. destruct (heap w !! agg) as [c|]; [|done].
  simpl. destruct (collect _); [|done]. by rewrite app_settle.
Qed.

Lemma app_then p onF onR w : app (snd (then_ p onF onR w)) = app w.
Proof. unfold then_. simpl. by rewrite app_subscribe. Qed.

Lemma app_subscribe_all agg ps : forall i w, app (subscribe_all agg i ps w) = app w.
Proof.
  induction ps as [|p ps IH]; intros i w; simpl; [done|].
  by rewrite IH, app_subscribe.
Qed.

Lemma app_promise_all ps w : app (snd (promise_all ps w)) = app w.
Proof.
  unfold promise_all. simpl. destruct ps; simpl.
  - by rewrite app_settle.
  - by rewrite app_subscribe_all, app_subscribe.
Qed.

Lemma app_settle_external p o w : app (settle_external p o w) = app w.
Proof.
  unfold settle_external. destruct (heap w !! p) as [c|]; [|done].
  destruct (external c); [apply app_settle | done].
Qed.

(** *** A settled promise stays as it is *)

Definition keeps_settled (f : World K A -> World K A) : Prop :=
  forall w p o,
    pstate_of w p = Some (Settled o) -> pstate_of (f w) p = Some (Settled o).

Lemma keeps_settle q o' : keeps_settled (settle q o').
Proof.
  intros w p o Hp. unfold settle.
  destruct (heap w !! q) as [c|] eqn:Hq; [|done].
  destruct (st c) as [rs|] eqn:Hc; [|done].
  unfold pstate_of in *. simpl.
  destruct (decide (q = p)) as [->|Hne].
  - rewrite Hq in Hp. simpl in Hp. congruence.
  - by rewrite list_lookup_insert_ne.
Qed.

Lemma keeps_subscribe q r : keeps_settled (subscribe q r).
Proof.
  intros w p o Hp. unfold subscribe.
  destruct (heap w !! q) as [c|] eqn:Hq; [|done].
  destruct (st c) as [rs|] eqn:Hc; [|done].
  unfold pstate_of in *. simpl.
  destruct (decide (q = p)) as [->|Hne].
  - rewrite Hq in Hp. simpl in Hp. congruence.
  - by rewrite list_lookup_insert_ne.
Qed.

Lemma keeps_alloc c : keeps_settled (fun w => snd (alloc c w)).
Proof.
  intros w p o Hp. unfold pstate_of in *. simpl.
  destruct (heap w !! p) as [c0|] eqn:E; [|done].
  by rewrite (lookup_app_l_Some _ _ _ _ E).
Qed.

Lemma keeps_resolve q v : keeps_settled (resolve q v).
Proof.
  intros w p o Hp. unfold resolve.
  destruct v; try by apply keeps_settle.
  destruct (p0 =? q)%nat; [by apply keeps_settle | done].
Qed.

Lemma keeps_complete q cpl : keeps_settled (complete q cpl).
Proof. destruct cpl; [apply keeps_resolve | apply keeps_settle]. Qed.

Lemma keeps_fill_slot agg i v : keeps_settled (fill_slot agg i v).
Proof.
  intros w p o Hp. unfold fill_slot.
  destruct (heap w !! agg) as [c|] eqn:Hq; [|done].
  assert (pstate_of (set_heap (<[agg:=set_slots (<[i:=Some v]> (slots c)) c]> (heap w)) w) p
          = Some (Settled o)) as H.
  { unfold pstate_of in *. simpl.
    destruct (decide (agg = p)) as [->|Hne].
    - rewrite list_lookup_insert_eq by (by eapply lookup_lt_Some).
      rewrite Hq in Hp. done.
    - by rewrite list_lookup_insert_ne. }
  simpl. destruct (collect _); [|done]. by apply keeps_settle.
Qed.

Lemma keeps_then q onF onR : keeps_settled (fun w => snd (then_ q onF onR w)).
Proof.
  intros w p o Hp. unfold then_. simpl.
  apply keeps_subscribe. by apply (keeps_alloc derived).
Qed.

Lemma keeps_subscribe_all agg ps : forall i, keeps_settled (subscribe_all agg i ps).
Proof.
  induction ps as [|q ps IH]; intros i w p o Hp; simpl; [done|].
  by apply IH, keeps_subscribe.
Qed.

Lemma keeps_promise_all ps : keeps_settled (fun w => snd (promise_all ps w)).
Proof.
  intros w p o Hp. unfold promise_all. simpl.
  assert (pstate_of
            (subscribe_all (length (heap w)) 0 ps
               (set_heap (heap w ++ [{| st := Pending []; slots := replicate (length ps) None; external := false |}]) w)) p
          = Some (Settled o)) as H.
  { apply keeps_subscribe_all. by apply (keeps_alloc _ w). }
  destruct ps; [by apply keeps_settle | done].
Qed.

Lemma keeps_settle_external q o' : keeps_settled (settle_external q o').
Proof.
  intros w p o Hp. unfold settle_external.
  destruct (heap w !! q) as [c|]; [|done].
  destruct (external c); [by apply keeps_settle | done].
Qed.

(** *** Counting reactions *)

Section Total.
Variable wt : reaction K -> nat.
Variable jt : nat.

Lemma total_set_app (a : A) w : total wt jt (set_app a w) = total wt jt w.
Proof. done. Qed.

Lemma total_enqueue j w :
  total wt jt (enqueue j w) = total wt jt w + job_total wt jt j.
Proof.
  unfold total, enqueue. simpl. rewrite sum_list_with_app. simpl. lia.
Qed.

Lemma total_alloc c w :
  total wt jt (snd (alloc c w)) = total wt jt w + cell_total wt c.
Proof.
  unfold total, alloc. simpl. rewrite sum_list_with_app. simpl. lia.
Qed.

Lemma total_jobs (o : outcome) (rs : list (reaction K)) :
  sum_list_with (job_total wt jt) (map (fun r => JReact r o) rs)
  = sum_list_with wt rs.
Proof. induction rs; simpl; lia. Qed.

Lemma total_settle p o w : total wt jt (settle p o w) = total wt jt w.
Proof.
  unfold settle. destruct (heap w !! p) as [c|] eqn:Hp; [|done].
  destruct (st c) as [rs|] eqn:Hc; [|done].
  unfold total. simpl. rewrite sum_list_with_app, total_jobs.
  pose proof (sum_list_with_insert (cell_total wt) _ _ _
                (set_st (Settled o) c) Hp) as E.
  assert (cell_total wt c = sum_list_with wt rs) as Ec
    by (unfold cell_total; by rewrite Hc).
  change (cell_total wt (set_st (Settled o) c)) with 0 in E. lia.
Qed.

Lemma total_subscribe p r w :
  total wt jt (subscribe p r w) <= total wt jt w + wt r.
Proof.
  unfold subscribe. destruct (heap w !! p) as [c|] eqn:Hp; [|lia].
  destruct (st c) as [rs|] eqn:Hc.
  - unfold total. simpl.
    pose proof (sum_list_with_insert (cell_total wt) _ _ _
                  (set_st (Pending (rs ++ [r])) c) Hp) as E.
    assert (cell_total wt c = sum_list_with wt rs) as Ec
      by (unfold cell_total; by rewrite Hc).
    change (cell_total wt (set_st (Pending (rs ++ [r])) c))
      with (sum_list_with wt (rs ++ [r])) in E.
    rewrite sum_list_with_app in E. simpl in E. lia.
  - rewrite total_enqueue. simpl. lia.
Qed.

Lemma total_resolve q v w :
  total wt jt (resolve q v w) <= total wt jt w + jt.
Proof.
  unfold resolve. destruct v; rewrite ?total_settle; try lia.
  destruct (p =? q)%nat; rewrite ?total_settle, ?total_enqueue; simpl; lia.
Qed.

Lemma total_complete q cpl w :
  total wt jt (complete q cpl w) <= total wt jt w + jt.
Proof.
  destruct cpl; simpl; [apply total_resolve | rewrite total_settle; lia].
Qed.

Lemma total_fill_slot agg i v w :
  total wt jt (fill_slot agg i v w) = total wt jt w.
Proof.
  unfold fill_slot. destruct (heap w !! agg) as [c|] eqn:Hp; [|done].
  assert (total wt jt
            (set_heap (<[agg:=set_slots (<[i:=Some v]> (slots c)) c]> (heap w)) w)
          = total wt jt w) as E.
  { unfold total. simpl.
    pose proof (sum_list_with_insert (cell_total wt) _ _ _
                  (set_slots (<[i:=Some v]> (slots c)) c) Hp) as E.
    change (cell_total wt (set_slots (<[i:=Some v]> (slots c)) c))
      with (cell_total wt c) in E. lia. }
  simpl. destruct (collect _); [|done]. by rewrite total_settle.
Qed.

Lemma total_then p onF onR w :
  total wt jt (snd (then_ p onF onR w))
  <= total wt jt w + wt (RThen onF onR (length (heap w))).
Proof.
  unfold then_. simpl.
  pose proof (total_subscribe p (RThen onF onR (length (heap w)))
                (snd (alloc derived w))) as H.
  rewrite total_alloc in H. simpl in *. unfold cell_total in H. simpl in H. lia.
Qed.

Lemma total_subscribe_all agg ps : forall i w,
  (forall i, wt (RAllElem i agg) = 0) ->
  total wt jt (subscribe_all agg i ps w) <= total wt jt w.
Proof.
  induction ps as [|p ps IH]; intros i w H0; simpl; [lia|].
  etrans; [by apply IH|].
  pose proof (total_subscribe p (RAllElem i agg) w). rewrite H0 in *. lia.
Qed.

Lemma total_promise_all ps w :
  (forall i agg, wt (RAllElem i agg) = 0) ->
  total wt jt (snd (promise_all ps w)) <= total wt jt w.
Proof.
  intros H0. unfold promise_all. simpl.
  set (c := {| st := Pending []; slots := replicate (length ps) None; external := false |}).
  pose proof (total_subscribe_all (length (heap w)) ps 0 (snd (alloc c w))
                (fun i => H0 i _)) as H.
  rewrite total_alloc in H. unfold cell_total in H. simpl in H.
  destruct ps; [rewrite total_settle|]; simpl in *; lia.
Qed.

Lemma total_settle_external p o w :
  total wt jt (settle_external p o w) = total wt jt w.
Proof.
  unfold settle_external. destruct (heap w !! p) as [c|]; [|done].
  destruct (external c); [apply total_settle | done].
Qed.

End Total.

(** *** Callbacks *)

(** A cell nothing is registered on. *)
Definition quiet (c : cell K) : Prop :=
  match st c with
  | Pending rs => rs = []
  | Settled _ => True
  end.

(** A callback is tame when all it does to the promise machine is to
    allocate promises that nothing is registered on. *)
Definition tame (run_callback : K -> jsval -> World K A -> completion * World K A) :=
  forall k v w, exists cs a,
    snd (run_callback k v w) = mkWorld (heap w ++ cs) (queue w) a
    /\ Forall quiet cs.

Lemma quiet_total wt (cs : list (cell K)) :
  Forall quiet cs -> sum_list_with (cell_total wt) cs = 0.
Proof.
  induction 1 as [|c cs Hc _ IH]; simpl; [done|].
  unfold quiet, cell_total in *. destruct (st c); subst; simpl; lia.
Qed.

Section Run.
Variable run_callback : K -> jsval -> World K A -> completion * World K A.
Hypothesis callbacks_tame : tame run_callback.

Lemma total_callback wt jt k v w :
  total wt jt (snd (run_callback k v w)) = total wt jt w.
Proof.
  destruct (callbacks_tame k v w) as (cs & a & -> & Hcs).
  unfold total. simpl. rewrite sum_list_with_app, (quiet_total wt cs Hcs). lia.
Qed.

Lemma keeps_callback k v : keeps_settled (fun w => snd (run_callback k v w)).
Proof.
  intros w p o Hp. destruct (callbacks_tame k v w) as (cs & a & -> & Hcs).
  unfold pstate_of in *. simpl.
  destruct (heap w !! p) as [c0|] eqn:E; [|done].
  by rewrite (lookup_app_l_Some _ _ _ _ E).
Qed.

Lemma keeps_run_job j : keeps_settled (run_job run_callback j).
Proof.
  intros w p o Hp.
  destruct j as [[onF onR q|i agg|q] [v|e]|t q]; simpl.
  - destruct onF as [k|]; [|by apply keeps_settle].
    pose proof (keeps_callback k v w p o Hp) as H. simpl in H.
    destruct (run_callback k v w) as [cpl w1]. exact (keeps_complete q cpl _ _ _ H).
  - destruct onR as [k|]; [|by apply keeps_settle].
    pose proof (keeps_callback k e w p o Hp) as H. simpl in H.
    destruct (run_callback k e w) as [cpl w1]. exact (keeps_complete q cpl _ _ _ H).
  - by apply keeps_fill_slot.
  - by apply keeps_settle.
  - by apply keeps_settle.
  - by apply keeps_settle.
  - by apply keeps_subscribe.
Qed.

Lemma measure_run_job j w :
  measure (run_job run_callback j w) + 1
  <= measure w + job_total reaction_weight 2 j.
Proof.
  unfold measure.
  destruct j as [[onF onR q|i agg|q] [v|e]|t q]; simpl.
  - destruct onF as [k|].
    + pose proof (total_callback reaction_weight 2 k v w).
      destruct (run_callback k v w) as [cpl w1]. simpl in *.
      pose proof (total_complete reaction_weight 2 q cpl w1). lia.
    + rewrite total_settle. lia.
  - destruct onR as [k|].
    + pose proof (total_callback reaction_weight 2 k e w).
      destruct (run_callback k e w) as [cpl w1]. simpl in *.
      pose proof (total_complete reaction_weight 2 q cpl w1). lia.
    + rewrite total_settle. lia.
  - rewrite total_fill_slot. lia.
  - rewrite total_settle. lia.
  - rewrite total_settle. lia.
  - rewrite total_settle. lia.
  - pose proof (total_subscribe reaction_weight 2 t (RForward q) w). simpl in *. lia.
Qed.

Lemma job_weight_pos j : 0 < job_total reaction_weight 2 j.
Proof. destruct j as [[]|]; simpl; lia. Qed.

Lemma measure_step w w' :
  step run_callback w = Some w' -> measure w' < measure w.
Proof.
  unfold step. destruct (queue w) as [|j js] eqn:Hq; [done|].
  intros [= <-]. pose proof (measure_run_job j (set_queue js w)) as H.
  assert (measure (set_queue js w) + job_total reaction_weight 2 j = measure w).
  { unfold measure, total. simpl. rewrite Hq. simpl. lia. }
  lia.
Qed.

Lemma step_None w : step run_callback w = None <-> queue w = [].
Proof. unfold step. destruct (queue w); split; done. Qed.

Lemma drain_fuel_enough n : forall m w,
  measure w <= n -> measure w <= m ->
  drain_fuel run_callback n w = drain_fuel run_callback m w.
Proof.
  induction n as [|n IH]; intros m w Hn Hm.
  - destruct m; [done|]. simpl.
    destruct (step run_callback w) as [w'|] eqn:Hs; [|done].
    apply measure_step in Hs. lia.
  - destruct m; simpl.
    + destruct (step run_callback w) as [w'|] eqn:Hs; [|done].
      apply measure_step in Hs. lia.
    + destruct (step run_callback w) as [w'|] eqn:Hs; [|done].
      apply measure_step in Hs. apply IH; lia.
Qed.

(** [drain] runs one job and goes on, until the queue is empty. *)
Lemma drain_step w w' :
  step run_callback w = Some w' ->
  drain run_callback w = drain run_callback w'.
Proof.
  intros Hs. unfold drain. pose proof (measure_step _ _ Hs).
  destruct (measure w) as [|n] eqn:Hm; [lia|]. simpl. rewrite Hs.
  apply drain_fuel_enough; lia.
Qed.

Lemma drain_idle w : queue w = [] -> drain run_callback w = w.
Proof.
  intros Hq. unfold drain. destruct (measure w); [done|].
  simpl. apply step_None in Hq. by rewrite Hq.
Qed.

Lemma drain_cons j js w :
  queue w = j :: js ->
  drain run_callback w = drain run_callback (run_job run_callback j (set_queue js w)).
Proof. intros Hq. apply drain_step. unfold step. by rewrite Hq. Qed.

Lemma drain_fuel_quiescent n : forall w,
  measure w <= n -> queue (drain_fuel run_callback n w) = [].
Proof.
  induction n as [|n IH]; intros w Hn; simpl.
  - destruct (queue w) as [|j js] eqn:Hq; [done|].
    pose proof (job_weight_pos j). unfold measure, total in Hn. rewrite Hq in Hn.
    simpl in Hn. lia.
  - destruct (step run_callback w) as [w'|] eqn:Hs.
    + apply IH. apply measure_step in Hs. lia.
    + by apply step_None.
Qed.

(** [drain] always ends with an empty queue. *)
Lemma drain_quiescent w : queue (drain run_callback w) = [].
Proof. by apply drain_fuel_quiescent. Qed.

(** A property kept by every job is kept by [drain]. *)
Lemma drain_ind (P : World K A -> Prop) :
  (forall j js w, queue w = j :: js -> P w ->
                  P (run_job run_callback j (set_queue js w))) ->
  forall w, P w -> P (drain run_callback w).
Proof.
  intros Hstep w. unfold drain. generalize (measure w) as n.
  intros n. revert w. induction n as [|n IH]; intros w Hw; simpl; [done|].
  unfold step. destruct (queue w) as [|j js] eqn:Hq; [done|].
  apply IH. by eapply Hstep.
Qed.

Lemma keeps_drain : keeps_settled (drain run_callback).
Proof.
  intros w p o Hp. revert w Hp. apply drain_ind.
  intros j js w _ Hp. by apply keeps_run_job.
Qed.

End Run.
End Facts.
End PromiseFacts.

(** ** Objects *)
Module ObjFacts.
Section Facts.
Context {V : Type}.
Implicit Types (o : Obj.t V) (k : string) (v : V).

Lemma get_set_eq k v o : Obj.get k (Obj.set k v o) = Some v.
Proof.
  induction o as [|[k' v'] o IH]; simpl.
  - by rewrite String.eqb_refl.
  - destruct (k' =? k) eqn:E; simpl; rewrite E; done.
Qed.

Lemma get_set_ne k k' v o : k <> k' -> Obj.get k' (Obj.set k v o) = Obj.get k' o.
Proof.
  intros Hne. induction o as [|[k0 v0] o IH]; simpl.
  - destruct (String.eqb_spec k k'); done.
  - destruct (String.eqb_spec k0 k) as [->|]; simpl.
    + destruct (String.eqb_spec k k'); done.
    + by rewrite IH.
Qed.

Lemma get_None k o : Obj.get k o = None <-> k ∉ map fst o.
Proof.
  induction o as [|[k' v'] o IH]; simpl.
  - split; [intros _; apply not_elem_of_nil | done].
  - destruct (String.eqb_spec k' k) as [->|Hne].
    + split; [done|]. intros H. destruct H. by left.
    + rewrite IH, not_elem_of_cons. split; [by intros; split|by intros [_ ?]].
Qed.

Lemma get_Some_elem k v o : Obj.get k o = Some v -> (k, v) ∈ o.
Proof.
  induction o as [|[k' v'] o IH]; simpl; [done|].
  destruct (String.eqb_spec k' k) as [->|Hne].
  - intros [= ->]. by left.
  - intros H. right. by apply IH.
Qed.

Lemma elem_get k v o : Obj.wf o -> (k, v) ∈ o -> Obj.get k o = Some v.
Proof.
  unfold Obj.wf. induction o as [|[k' v'] o IH]; simpl; intros Hnd Hin.
  - by apply elem_of_nil in Hin.
  - inversion Hnd as [|? ? Hnotin Hnd']; subst.
    apply elem_of_cons in Hin as [E|Hin].
    + injection E as <- <-. by rewrite String.eqb_refl.
    + destruct (String.eqb_spec k' k) as [->|Hne]; [|by apply IH].
      destruct Hnotin. apply list_elem_of_fmap. by exists (k, v).
Qed.

Lemma keys_set k v o :
  map fst (Obj.set k v o)
  = if decide (k ∈ map fst o) then map fst o else map fst o ++ [k].
Proof.
  induction o as [|[k' v'] o IH].
  - destruct (decide (k ∈ map fst (@nil (string * V)))) as [Hin|_]; [|done].
    by apply elem_of_nil in Hin.
  - cbn [Obj.set map fst].
    destruct (String.eqb_spec k' k) as [->|Hne]; cbn [map fst].
    + destruct (decide (k ∈ k :: map fst o)) as [_|Hnin]; [done|].
      destruct Hnin. by left.
    + rewrite IH. destruct (decide (k ∈ map fst o)) as [Hin|Hnin];
        destruct (decide (k ∈ k' :: map fst o)) as [Hin'|Hnin']; try done.
      * destruct Hnin'. by right.
      * apply elem_of_cons in Hin' as [->|Hin']; done.
Qed.

Lemma wf_set k v o : Obj.wf o -> Obj.wf (Obj.set k v o).
Proof.
  unfold Obj.wf. rewrite keys_set. destruct (decide _) as [Hin|Hnin]; [done|].
  intros Hnd. apply NoDup_app. repeat split; [done| |apply NoDup_singleton].
  intros x Hx ->%list_elem_of_singleton. done.
Qed.

Lemma wf_fold_set (es : list (string * V)) : forall o,
  Obj.wf o -> Obj.wf (fold_left (fun tg kv => Obj.set (fst kv) (snd kv) tg) es o).
Proof.
  induction es as [|[k v] es IH]; intros o Ho; simpl; [done|].
  by apply IH, wf_set.
Qed.

Lemma get_fold_set (es : list (string * V)) : forall o k,
  NoDup (map fst es) ->
  Obj.get k (fold_left (fun tg kv => Obj.set (fst kv) (snd kv) tg) es o)
  = match Obj.get k es with
    | Some v => Some v
    | None => Obj.get k o
    end.
Proof.
  induction es as [|[k0 v0] es IH]; intros o k Hnd; simpl; [done|].
  inversion Hnd as [|? ? Hnotin Hnd']; subst.
  rewrite IH by done.
  destruct (String.eqb_spec k0 k) as [->|Hne].
  - apply get_None in Hnotin. rewrite Hnotin. apply get_set_eq.
  - by rewrite get_set_ne.
Qed.

Lemma insert_index_perm n (kv : string * V) l :
  map snd (Obj.insert_index n kv l) ≡ₚ kv :: map snd l.
Proof.
  induction l as [|[m kv'] l IH]; simpl; [done|].
  destruct (n <? m)%N; simpl; [done|].
  rewrite IH. apply Permutation_swap.
Qed.

(** [Object.entries] lists the properties of the object, each once. *)
Lemma entries_perm o : Obj.entries o ≡ₚ o.
Proof.
  unfold Obj.entries. induction o as [|[k v] o IH]; simpl; [done|].
  destruct (Obj.array_index k) as [n|].
  - rewrite insert_index_perm. simpl. by rewrite IH.
  - rewrite <- Permutation_middle. by rewrite IH.
Qed.

Lemma wf_entries o : Obj.wf o -> Obj.wf (Obj.entries o).
Proof. unfold Obj.wf. by rewrite entries_perm. Qed.

Lemma get_entries k o : Obj.wf o -> Obj.get k (Obj.entries o) = Obj.get k o.
Proof.
  intros Ho. destruct (Obj.get k o) as [v|] eqn:E.
  - apply elem_get; [by apply wf_entries|].
    rewrite entries_perm. by apply get_Some_elem.
  - apply get_None. rewrite entries_perm. by apply get_None.
Qed.

Lemma wf_assign (t src : Obj.t V) : Obj.wf t -> Obj.wf (Obj.assign t src).
Proof. apply wf_fold_set. Qed.

Lemma wf_merge (a b : Obj.t V) : Obj.wf (Obj.merge a b).
Proof. apply wf_assign, wf_assign. constructor. Qed.

(** [Object.assign]: a property of the source overrides the target's. *)
Lemma get_assign k (t src : Obj.t V) :
  Obj.wf src ->
  Obj.get k (Obj.assign t src)
  = match Obj.get k src with
    | Some v => Some v
    | None => Obj.get k t
    end.
Proof.
  intros Hsrc. unfold Obj.assign.
  rewrite get_fold_set by (by apply wf_entries).
  by rewrite get_entries.
Qed.

(** In [Object.assign({}, a, b)] a name of [b] has the value of [b]. *)
Lemma get_merge_private k v (a b : Obj.t V) :
  Obj.wf b -> Obj.get k b = Some v -> Obj.get k (Obj.merge a b) = Some v.
Proof. intros Hb Hk. unfold Obj.merge. by rewrite get_assign, Hk. Qed.

End Facts.
End ObjFacts.

(** ** The order of enumeration *)
Module ObjOrder.
Section Order.
Context {V : Type}.
Implicit Types (o : Obj.t V) (k : string) (v : V).

Lemma digit_inj (a b : ascii) (d : N) :
  Obj.digit a = Some d -> Obj.digit b = Some d -> a = b.
Proof.
  unfold Obj.digit. intros Ha Hb.
  destruct ((48 <=? N_of_ascii a) && (N_of_ascii a <=? 57))%N eqn:Ea; [|done].
  destruct ((48 <=? N_of_ascii b) && (N_of_ascii b <=? 57))%N eqn:Eb; [|done].
  apply andb_true_iff in Ea as [Ea _]. apply andb_true_iff in Eb as [Eb _].
  apply N.leb_le in Ea. apply N.leb_le in Eb.
  injection Ha as Ha. injection Hb as Hb.
  rewrite <- (ascii_N_embedding a), <- (ascii_N_embedding b).
  f_equal. lia.
Qed.

Lemma digit_lt (a : ascii) (d : N) : Obj.digit a = Some d -> (d < 10)%N.
Proof.
  unfold Obj.digit. intros Ha.
  destruct ((48 <=? N_of_ascii a) && (N_of_ascii a <=? 57))%N eqn:Ea; [|done].
  apply andb_true_iff in Ea as [E1 E2].
  apply N.leb_le in E1. apply N.leb_le in E2. injection Ha as <-. lia.
Qed.

Definition width (s : string) : N := N.of_nat (String.length s).

Lemma parse_dec_bounds (s : string) : forall acc n,
  Obj.parse_dec s acc = Some n ->
  (acc * 10 ^ width s <= n < (acc + 1) * 10 ^ width s)%N.
Proof.
  induction s as [|a s IH]; intros acc n H.
  - injection H as <-. unfold width. simpl. lia.
  - cbn [Obj.parse_dec] in H.
    destruct (Obj.digit a) as [d|] eqn:Ed; [|done].
    pose proof (digit_lt a d Ed) as Hd.
    apply IH in H.
    assert (width (String a s) = N.succ (width s)) as ->.
    { unfold width. simpl. lia. }
    rewrite N.pow_succ_r'. nia.
Qed.

Lemma parse_dec_inj (s : string) : forall s' acc n,
  String.length s = String.length s' ->
  Obj.parse_dec s acc = Some n -> Obj.parse_dec s' acc = Some n -> s = s'.
Proof.
  induction s as [|a s IH]; intros [|a' s'] acc n Hlen H H'; try done.
  cbn [Obj.parse_dec] in H, H'.
  destruct (Obj.digit a) as [d|] eqn:Ed; [|done].
  destruct (Obj.digit a') as [d'|] eqn:Ed'; [|done].
  injection Hlen as Hlen.
  pose proof (parse_dec_bounds _ _ _ H) as B.
  pose proof (parse_dec_bounds _ _ _ H') as B'.
  assert (width s = width s') as Ew by (unfold width; by rewrite Hlen).
  rewrite <- Ew in B'.
  assert (0 < 10 ^ width s)%N as Hpos by (apply N.neq_0_lt_0, N.pow_nonzero; lia).
  assert (d = d') as <- by nia.
  f_equal; [by eapply digit_inj|]. by eapply IH.
Qed.

Lemma array_index_range k n :
  Obj.array_index k = Some n ->
  (n < 10 ^ width k)%N
  /\ (1 <= width k)%N
  /\ ((2 <= width k)%N -> (10 ^ (width k - 1) <= n)%N).
Proof.
  unfold Obj.array_index. destruct k as [|a s]; [done|].
  destruct (Ascii.eqb a "0" && negb (s =? ""))%bool eqn:E0; [done|].
  destruct (Obj.parse_dec (String a s) 0) as [m|] eqn:Ep; [|done].
  destruct (m <? 4294967295)%N; [|done]. intros [= ->].
  cbn [Obj.parse_dec] in Ep.
  destruct (Obj.digit a) as [d|] eqn:Ed; [|done].
  pose proof (digit_lt a d Ed) as Hd.
  apply parse_dec_bounds in Ep.
  assert (width (String a s) = N.succ (width s)) as ->.
  { unfold width. simpl. lia. }
  rewrite N.pow_succ_r'.
  assert (0 < 10 ^ width s)%N as Hpos by (apply N.neq_0_lt_0, N.pow_nonzero; lia).
  split; [nia|]. split; [lia|]. intros Hw.
  replace (N.succ (width s) - 1)%N with (width s) by lia.
  assert (d <> 0%N) as Hd0.
  { intros ->. assert (a = "0"%char) as -> by (by eapply digit_inj).
    simpl in E0. destruct s; [|done]. unfold width in Hw. simpl in Hw. lia. }
  nia.
Qed.

(** Two keys that are the same array index are the same key. *)
Lemma array_index_inj k k' n :
  Obj.array_index k = Some n -> Obj.array_index k' = Some n -> k = k'.
Proof.
  intros H H'.
  destruct (array_index_range k n H) as (B1 & B2 & B3).
  destruct (array_index_range k' n H') as (B1' & B2' & B3').
  assert (width k = width k') as Ew.
  { destruct (N.lt_trichotomy (width k) (width k')) as [Hlt|[E|Hlt]]; [|done|].
    - assert (10 ^ width k <= 10 ^ (width k' - 1))%N
        by (apply N.pow_le_mono_r; lia).
      specialize (B3' ltac:(lia)). lia.
    - assert (10 ^ width k' <= 10 ^ (width k - 1))%N
        by (apply N.pow_le_mono_r; lia).
      specialize (B3 ltac:(lia)). lia. }
  unfold Obj.array_index in H, H'.
  destruct k as [|a s]; [done|]. destruct k' as [|a' s']; [done|].
  destruct (Ascii.eqb a "0" && negb (s =? ""))%bool; [done|].
  destruct (Ascii.eqb a' "0" && negb (s' =? ""))%bool; [done|].
  destruct (Obj.parse_dec (String a s) 0) as [m|] eqn:Ep; [|done].
  destruct (Obj.parse_dec (String a' s') 0) as [m'|] eqn:Ep'; [|done].
  destruct (m <? 4294967295)%N; [|done].
  destruct (m' <? 4294967295)%N; [|done].
  injection H as ->. injection H' as ->.
  eapply parse_dec_inj; [|exact Ep|exact Ep'].
  unfold width in Ew. lia.
Qed.

(** The array-index part of an enumeration: every entry carries the index
    of its key, and the indices go up. *)
Definition tagged (l : list (N * (string * V))) : Prop :=
  Forall (fun e => Obj.array_index (fst (snd e)) = Some (fst e)) l.

Fixpoint ascending (l : list (N * (string * V))) : Prop :=
  match l with
  | [] => True
  | e :: l' => Forall (fun e' => (fst e < fst e')%N) l' /\ ascending l'
  end.

Lemma insert_index_elem n (kv : string * V) l e :
  e ∈ Obj.insert_index n kv l <-> e = (n, kv) \/ e ∈ l.
Proof.
  induction l as [|[m kv'] l IH]; simpl.
  - rewrite list_elem_of_singleton. split; [by left|].
    intros [->|H]; [done|]. by apply elem_of_nil in H.
  - destruct (n <? m)%N.
    + by rewrite elem_of_cons.
    + rewrite !elem_of_cons, IH. tauto.
Qed.

Lemma insert_index_tagged n (kv : string * V) l :
  Obj.array_index (fst kv) = Some n -> tagged l ->
  tagged (Obj.insert_index n kv l).
Proof.
  intros Hn Hl. apply Forall_forall. intros e He.
  apply insert_index_elem in He as [->|He]; [done|].
  by eapply Forall_forall in Hl.
Qed.

Lemma insert_index_ascending n (kv : string * V) l :
  n ∉ map fst l -> ascending l -> ascending (Obj.insert_index n kv l).
Proof.
  induction l as [|[m kv'] l IH]; intros Hn Hl; simpl.
  - by split.
  - cbn [map fst] in Hn. apply not_elem_of_cons in Hn as [Hne Hn].
    destruct Hl as [Hm Hl].
    destruct (n <? m)%N eqn:E.
    + apply N.ltb_lt in E. split; [|by split].
      constructor; [done|].
      eapply Forall_impl; [exact Hm|]. simpl. intros e He. lia.
    + apply N.ltb_ge in E. split; [|by apply IH].
      apply Forall_forall. intros e He.
      apply insert_index_elem in He as [->|He]; simpl; [lia|].
      by eapply Forall_forall in Hm.
Qed.

Lemma insert_index_head n (kv : string * V) l :
  Forall (fun e => (n < fst e)%N) l -> Obj.insert_index n kv l = (n, kv) :: l.
Proof.
  destruct l as [|[m kv'] l]; [done|]. intros H.
  apply Forall_cons in H as [H _]. simpl in *.
  by apply N.ltb_lt in H as ->.
Qed.

Lemma index_entries_keys o e :
  e ∈ Obj.index_entries o -> snd e ∈ o.
Proof.
  induction o as [|[k v] o IH]; simpl.
  { intros H. by apply elem_of_nil in H. }
  destruct (Obj.array_index k) as [n|].
  - intros [->|He]%insert_index_elem; [by left|]. right. by apply IH.
  - intros He. right. by apply IH.
Qed.

Lemma index_entries_tagged o : tagged (Obj.index_entries o).
Proof.
  induction o as [|[k v] o IH]; simpl; [constructor|].
  destruct (Obj.array_index k) as [n|] eqn:E; [|done].
  by apply insert_index_tagged.
Qed.

Lemma index_entries_ascending o :
  Obj.wf o -> ascending (Obj.index_entries o).
Proof.
  unfold Obj.wf. induction o as [|[k v] o IH]; simpl; intros Hnd; [done|].
  apply NoDup_cons in Hnd as [Hk Hnd].
  destruct (Obj.array_index k) as [n|] eqn:E; [|by apply IH].
  apply insert_index_ascending; [|by apply IH].
  intros Hin. apply list_elem_of_fmap in Hin as ([m [k' v']] & Hm & He).
  simpl in Hm. subst m.
  pose proof (index_entries_tagged o) as Ht.
  eapply Forall_forall in Ht; [|exact He]. simpl in Ht.
  assert (k' = k) as -> by (by eapply array_index_inj).
  apply index_entries_keys in He. simpl in He.
  destruct Hk. apply list_elem_of_fmap. by exists (k, v').
Qed.

Lemma named_entries_plain o :
  Forall (fun e => Obj.array_index (fst e) = None) (Obj.named_entries o).
Proof.
  induction o as [|[k v] o IH]; simpl; [constructor|].
  destruct (Obj.array_index k) eqn:E; [done|]. by constructor.
Qed.

(** Enumerating an enumeration gives it back. *)
Lemma index_entries_id (l : list (N * (string * V))) (named : Obj.t V) :
  tagged l -> ascending l ->
  Forall (fun e => Obj.array_index (fst e) = None) named ->
  Obj.index_entries (map snd l ++ named) = l.
Proof.
  intros Ht Ha Hn. induction l as [|[n [k v]] l IH].
  - simpl. induction named as [|[k v] named IH]; [done|].
    apply Forall_cons in Hn as [Hk Hn]. simpl in *. rewrite Hk. by apply IH.
  - apply Forall_cons in Ht as [Hk Ht]. destruct Ha as [Hlt Ha].
    simpl in *. rewrite Hk, IH by done. by apply insert_index_head.
Qed.

Lemma named_entries_id (l : list (N * (string * V))) (named : Obj.t V) :
  tagged l ->
  Forall (fun e => Obj.array_index (fst e) = None) named ->
  Obj.named_entries (map snd l ++ named) = named.
Proof.
  intros Ht Hn. induction l as [|[n [k v]] l IH].
  - simpl. induction named as [|[k v] named IH]; [done|].
    apply Forall_cons in Hn as [Hk Hn]. simpl in *. rewrite Hk.
    f_equal. by apply IH.
  - apply Forall_cons in Ht as [Hk Ht]. simpl in *. rewrite Hk. by apply IH.
Qed.

Lemma entries_entries o : Obj.wf o -> Obj.entries (Obj.entries o) = Obj.entries o.
Proof.
  intros Ho. unfold Obj.entries at 1.
  unfold Obj.entries at 1 2.
  rewrite index_entries_id, named_entries_id;
    auto using index_entries_tagged, index_entries_ascending, named_entries_plain.
Qed.

Lemma set_fresh k v o : k ∉ map fst o -> Obj.set k v o = o ++ [(k, v)].
Proof.
  induction o as [|[k' v'] o IH]; simpl; intros Hk; [done|].
  apply not_elem_of_cons in Hk as [Hne Hk].
  destruct (String.eqb_spec k' k) as [->|_]; [done|]. by rewrite IH.
Qed.

Lemma fold_set_fresh (es : list (string * V)) : forall o,
  NoDup (map fst o ++ map fst es) ->
  fold_left (fun tg kv => Obj.set (fst kv) (snd kv) tg) es o = o ++ es.
Proof.
  induction es as [|[k v] es IH]; intros o Hnd; simpl.
  - by rewrite app_nil_r.
  - rewrite set_fresh.
    + rewrite IH; [by rewrite <- app_assoc|].
      rewrite map_app. simpl. by rewrite <- app_assoc.
    + apply NoDup_app in Hnd as (_ & Hd & _). intros Hin.
      apply (Hd k Hin). by left.
Qed.

(** [Object.assign({}, o)] and [{...o}] list the properties of [o] in the
    order of its enumeration. *)
Lemma merge_nil_r o : Obj.wf o -> Obj.merge o [] = Obj.entries o.
Proof.
  intros Ho. unfold Obj.merge, Obj.assign.
  change (Obj.entries (@nil (string * V))) with (@nil (string * V)).
  cbn [fold_left]. rewrite fold_set_fresh; [done|].
  simpl. by apply ObjFacts.wf_entries.
Qed.

Lemma entries_merge_nil o :
  Obj.wf o -> Obj.entries (Obj.merge o []) = Obj.entries o.
Proof. intros Ho. rewrite merge_nil_r by done. by apply entries_entries. Qed.

End Order.
End ObjOrder.

(** ** The peer session *)
Module RemotePeerFacts.
Import Promise PromiseFacts RemotePeer.

Lemma app_tag_streams ents : forall w, app (snd (tag_streams ents w)) = app w.
Proof.
  induction ents as [|[n p] ents IH]; intros w; simpl; [done|].
  destruct (tag_streams ents _) as [ps w2] eqn:E. simpl.
  change w2 with (snd (ps, w2)). rewrite <- E, IH. by rewrite app_subscribe.
Qed.

(** The first call of [connect] stores the promise it returns. *)
Lemma connect_first w :
  connect_p (app w) = None ->
  connect_p (app (snd (connect w))) = Some (fst (connect w)).
Proof.
  intros H. unfold connect. rewrite H.
  destruct (tag_streams _ w) as [ps w1].
  destruct (promise_all ps w1) as [all w2].
  destruct (then_ all _ _ w2) as [p w3]. done.
Qed.

(** A later call returns the stored promise and does nothing else. *)
Lemma connect_again w p :
  connect_p (app w) = Some p -> connect w = (p, w).
Proof. intros H. unfold connect. by rewrite H. Qed.

Lemma callbacks_tame : tame run_callback.
Proof.
  intros k v w. destruct k as [name|]; simpl.
  - exists [], (app w). rewrite app_nil_r. by destruct w.
  - unfold connect_body. destruct v; try (exists [], (app w); rewrite app_nil_r; by destruct w).
    destruct (add_streams l (app w)) as [[e|] s1]; simpl.
    + exists [], s1. by rewrite app_nil_r.
    + eexists [_], _. split; [reflexivity|]. by repeat constructor.
Qed.

(** C5.  When [auto_connect] is not strictly [false], [addStream] and
    [addDataChannel] each return a promise that is rejected already, and
    the only change to the world is that promise: every field of the peer,
    [private_streams] and [private_channels] among them, is as before. *)
Theorem add_rejected_unless_auto_connect_false (w : W) (name arg : jsval) :
  auto_connect (app w) <> JBool false ->
  (exists e,
      addStream name arg w
      = (Return (JPromise (length (heap w))),
         mkWorld (heap w ++ [Cell (Settled (Rejected e)) [] false])
           (queue w) (app w)))
  /\ (exists e,
      addDataChannel name arg w
      = (Return (JPromise (length (heap w))),
         mkWorld (heap w ++ [Cell (Settled (Rejected e)) [] false])
           (queue w) (app w))).
Proof.
  intros Hac.
  assert (strict_false (auto_connect (app w)) = false) as E.
  { destruct (auto_connect (app w)) as [| |[|]| | | | | |]; done. }
  unfold addStream, addDataChannel. rewrite E. simpl.
  split; eexists; reflexivity.
Qed.

Lemma add_rejected_unless_auto_connect_false_witness :
  let w := constructor [("auto_connect", JBool true)] (mkLocal [] []) [] in
  auto_connect (app w) <> JBool false
  /\ (exists e,
      addStream (JStr "cam") (JStream (mkStream "s1")) w
      = (Return (JPromise (length (heap w))),
         mkWorld (heap w ++ [Cell (Settled (Rejected e)) [] false])
           (queue w) (app w)))
  /\ (exists e,
      addDataChannel (JStr "cam") (JStream (mkStream "s1")) w
      = (Return (JPromise (length (heap w))),
         mkWorld (heap w ++ [Cell (Settled (Rejected e)) [] false])
           (queue w) (app w))).
Proof.
  intros w.
  assert (auto_connect (app w) <> JBool false) as H by (vm_compute; discriminate).
  split; [exact H|].
  exact (add_rejected_unless_auto_connect_false w (JStr "cam")
           (JStream (mkStream "s1")) H).
Defined.

(** C6.  The constructor ends with a call of [connect] when
    [auto_connect] is [true] or absent (not a property of the options,
    [undefined] or [null]); with [auto_connect] set to [false] it leaves
    the fresh object as it is, [connect_p] unset and the heap untouched. *)
Theorem constructor_auto_connect (opts : Obj.t jsval) (l : LocalPeer)
    (h : list (cell callback)) :
  let w0 := mkWorld h [] (init opts l) in
  (Obj.get "auto_connect" opts = Some (JBool true)
   \/ Obj.get "auto_connect" opts = None
   \/ Obj.get "auto_connect" opts = Some JUndefined
   \/ Obj.get "auto_connect" opts = Some JNull ->
   constructor opts l h = snd (connect w0)
   /\ connect_p (app (constructor opts l h)) = Some (fst (connect w0)))
  /\ (Obj.get "auto_connect" opts = Some (JBool false) ->
      constructor opts l h = w0
      /\ connect_p (app (constructor opts l h)) = None).
Proof.
  intros w0. unfold constructor. fold w0.
  unfold auto_connect. simpl. split.
  - intros H.
    assert (nullish (default JUndefined (Obj.get "auto_connect" opts))
            || truthy (default JUndefined (Obj.get "auto_connect" opts)) = true) as ->.
    { destruct H as [-> | [-> | [-> | ->]]]; done. }
    split; [done|]. by apply connect_first.
  - intros ->. done.
Qed.

Lemma constructor_auto_connect_witness :
  (let opts := [("auto_connect", JBool true)] in
   let w0 := mkWorld [] [] (init opts (mkLocal [] [])) in
   constructor opts (mkLocal [] []) [] = snd (connect w0)
   /\ connect_p (app (constructor opts (mkLocal [] []) [])) = Some (fst (connect w0)))
  /\ (let opts := [("auto_connect", JBool false)] in
      let w0 := mkWorld [] [] (init opts (mkLocal [] [])) in
      constructor opts (mkLocal [] []) [] = w0
      /\ connect_p (app (constructor opts (mkLocal [] []) [])) = None).
Proof.
  split.
  - exact (proj1 (constructor_auto_connect [("auto_connect", JBool true)]
                    (mkLocal [] []) []) (or_introl eq_refl)).
  - exact (proj2 (constructor_auto_connect [("auto_connect", JBool false)]
                    (mkLocal [] []) []) eq_refl).
Defined.

(** C9.  With [auto_connect] set to [false], [addDataChannel(name)]
    without options registers [{ordered: true}] under [name] in
    [private_channels]. *)
Theorem addDataChannel_default_options (w : W) (name : string) :
  auto_connect (app w) = JBool false ->
  Obj.get name
    (private_channels (app (snd (addDataChannel (JStr name) JUndefined w))))
  = Some (JObj [("ordered", JBool true)]).
Proof.
  intros Hac. unfold addDataChannel. rewrite Hac. simpl.
  unfold channel, collection_get. simpl.
  destruct (Obj.get name (channels (app w))); simpl;
    apply ObjFacts.get_set_eq.
Qed.

Lemma addDataChannel_default_options_witness :
  let w := constructor [("auto_connect", JBool false)] (mkLocal [] []) [] in
  auto_connect (app w) = JBool false
  /\ Obj.get "chat"
       (private_channels (app (snd (addDataChannel (JStr "chat") JUndefined w))))
     = Some (JObj [("ordered", JBool true)]).
Proof.
  intros w. split; [reflexivity|].
  exact (addDataChannel_default_options w "chat" eq_refl).
Defined.

End RemotePeerFacts.

(** ** Reading a heap past its known prefix *)
Module HeapTactics.
Import Promise PromiseFacts.

Lemma lookup_past {X : Type} (h l : list X) i :
  (h ++ l) !! (length h + i) = l !! i.
Proof. rewrite lookup_app_r by lia. f_equal. lia. Qed.

Lemma lookup_end {X : Type} (h l : list X) : (h ++ l) !! length h = l !! 0.
Proof. rewrite <- (Nat.add_0_r (length h)) at 1. apply lookup_past. Qed.

Lemma insert_end {X : Type} (h l : list X) x :
  <[length h := x]> (h ++ l) = h ++ <[0 := x]> l.
Proof. rewrite <- (Nat.add_0_r (length h)) at 1. apply insert_app_r. Qed.

Ltac hs :=
  repeat first
    [ progress (unfold set_heap, set_queue, set_app, set_st, set_slots, enqueue,
                derived, alloc, new_external)
    | progress simpl
    | rewrite <- app_assoc
    | rewrite length_app
    | rewrite lookup_end
    | rewrite lookup_past
    | rewrite insert_end
    | rewrite insert_app_r ].

(** Run the job at the head of the queue. *)
Ltac run1 tame := erewrite (drain_cons _ tame); [|hs; reflexivity]; hs.

End HeapTactics.

(** ** The room *)
Module RoomFacts.
Import Promise PromiseFacts HeapTactics Room.

Lemma callbacks_tame_room : tame run_callback.
Proof.
  intros k v w. destruct k; simpl; eexists [], _; rewrite app_nil_r; done.
Qed.

(** C7.  The first call of [connect] (the room is idle, [join_p] unset)
    emits the change to [connecting], then calls the signaling's
    [connect] and keeps its promise in [join_p]; the promise returned is
    pending.  When the signaling's promise is fulfilled the room goes to
    [connected] and the returned promise is fulfilled; when it is rejected
    with [e] the room goes to [failed] and the returned promise is rejected
    with the same [e]. *)
Theorem connect_first_call (w : W) (o : outcome) :
  state (app w) = idle ->
  join_p (app w) = None ->
  queue w = [] ->
  let join := length (heap w) in
  let ret := fst (connect w) in
  let w1 := snd (connect w) in
  let w2 := run_event w1 (ESettle join o) in
  state (app w1) = connecting
  /\ trace (app w1)
     = trace (app w) ++ [Emit_state_changed connecting; Signaling_connect]
  /\ join_p (app w1) = Some join
  /\ pstate_of w1 ret = Some (Pending [])
  /\ state (app w2)
     = match o with Fulfilled _ => connected | Rejected _ => failed end
  /\ trace (app w2)
     = trace (app w1)
       ++ [Emit_state_changed
             match o with Fulfilled _ => connected | Rejected _ => failed end]
  /\ pstate_of w2 ret
     = Some (Settled match o with
                     | Fulfilled _ => Fulfilled JUndefined
                     | Rejected e => Rejected e
                     end).
Proof.
  destruct w as [h q a]. simpl. intros _ Hj ->.
  unfold connect. simpl. rewrite Hj. unfold then_, subscribe. hs.
  unfold pstate_of. hs. repeat split.
  all: unfold run_event, apply, settle_external; hs; unfold settle; hs.
  all: destruct o as [v|e].
  all: run1 callbacks_tame_room; unfold settle; hs.
  all: run1 callbacks_tame_room; unfold settle; hs.
  all: rewrite drain_idle by done; hs; done.
Qed.

Lemma connect_first_call_witness :
  let w := constructor JUndefined [] in
  let o := Rejected (JStr "no route") in
  let ret := fst (connect w) in
  let w1 := snd (connect w) in
  let w2 := run_event w1 (ESettle 0 o) in
  state (app w1) = connecting
  /\ trace (app w1)
     = trace (app w) ++ [Emit_state_changed connecting; Signaling_connect]
  /\ join_p (app w1) = Some 0
  /\ pstate_of w1 ret = Some (Pending [])
  /\ state (app w2) = failed
  /\ trace (app w2) = trace (app w1) ++ [Emit_state_changed failed]
  /\ pstate_of w2 ret = Some (Settled (Rejected (JStr "no route"))).
Proof.
  exact (connect_first_call (constructor JUndefined [])
           (Rejected (JStr "no route")) eq_refl eq_refl eq_refl).
Defined.

(** C8.  When the signaling emits ['closed'] the room empties its peer
    map, emits ['closed'], and goes to [closed] exactly when it was
    [connected]; in every other state the state is left as it is and no
    state change is emitted.  Nothing else of the world changes. *)
Theorem signaling_closed (w : W) :
  let w' := apply ESignalingClosed w in
  peers (app w') = []
  /\ state (app w')
     = match state (app w) with connected => closed | s => s end
  /\ trace (app w')
     = trace (app w) ++ Emit_closed ::
         match state (app w) with
         | connected => [Emit_state_changed closed]
         | _ => []
         end
  /\ join_p (app w') = join_p (app w)
  /\ sessions (app w') = sessions (app w)
  /\ heap w' = heap w
  /\ queue w' = queue w.
Proof.
  destruct w as [h q [ps j s ss t]]. simpl. unfold on_closed. simpl.
  destruct s; simpl; rewrite <- ?app_assoc; done.
Qed.

(** C2.  A room that was closed by the signaling goes back to [connected]
    when [connect] is called again: the promise kept in [join_p] is
    fulfilled already, and every call of [connect] attaches the state
    change to it anew. *)
Theorem closed_room_goes_back_to_connected :
  let w :=
    run [EConnect; ESettle 0 (Fulfilled JUndefined); ESignalingClosed]
      (constructor JUndefined []) in
  state (app w) = closed
  /\ state (app (run_event w EConnect)) = connected
  /\ state_history (trace (app (run_event w EConnect)))
     = [connecting; connected; closed; connected]
  /\ trace (app (run_event w EConnect))
     = [Signaling_setStatus JUndefined; Emit_state_changed connecting;
        Signaling_connect; Emit_state_changed connected; Emit_closed;
        Emit_state_changed closed; Emit_state_changed connected].
Proof. vm_compute. done. Qed.

End RoomFacts.

(** ** The peer session: [connect] is single-flight *)
Module RemotePeerOnce.
Import Promise PromiseFacts RemotePeer RemotePeerFacts.

(** *** What the callback of [connect] does to the peer *)

Definition channel_call (e : string * jsval) : call :=
  AddDataChannel (fst e) (snd e).

Lemma add_streams_calls l : forall s,
  exists ss,
    calls (snd (add_streams l s)) = calls s ++ map AddStream ss
    /\ connect_p (snd (add_streams l s)) = connect_p s.
Proof.
  induction l as [|x l IH]; intros s; simpl.
  - exists []. by rewrite app_nil_r.
  - destruct x as [| | | | |[|[| | | |n| | | |] [|v [|]]]| | |];
      try (exists []; by rewrite app_nil_r).
    all: destruct v as [| | | | | | | |st];
      try (exists []; by rewrite app_nil_r); try (by eexists [_]).
    destruct (IH (set_streams_desc
                    (Obj.set n (JStr (stream_id st))
                       (streams_desc (record (AddStream (JStream st)) s)))
                    (record (AddStream (JStream st)) s))) as (ss & Hc & Hp).
    exists (JStream st :: ss). simpl in *. rewrite Hc, Hp.
    by rewrite <- app_assoc.
Qed.

Lemma add_channels_calls ents : forall s,
  calls (add_channels ents s) = calls s ++ map channel_call ents
  /\ connect_p (add_channels ents s) = connect_p s.
Proof.
  induction ents as [|[n o] ents IH]; intros s; simpl.
  - by rewrite app_nil_r.
  - split.
    + rewrite (proj1 (IH _)). simpl. by rewrite <- app_assoc.
    + by rewrite (proj2 (IH _)).
Qed.

(** The calls made by the callback: it stops after the streams when an
    element is ill-typed, otherwise it goes through to [Connect]. *)
Definition one_run (cs : list call) : Prop :=
  exists ss,
    cs = map AddStream ss
    \/ exists chans d,
         cs = map AddStream ss ++ map channel_call chans ++ [SetLocal d; Connect].

(** The calls other than [Close], which only [close()] makes. *)
Fixpoint body_calls (cs : list call) : list call :=
  match cs with
  | [] => []
  | Close :: cs' => body_calls cs'
  | c :: cs' => c :: body_calls cs'
  end.

Lemma body_calls_app cs1 cs2 :
  body_calls (cs1 ++ cs2) = body_calls cs1 ++ body_calls cs2.
Proof. induction cs1 as [|[] cs1 IH]; simpl; by rewrite ?IH. Qed.

Lemma body_calls_streams ss : body_calls (map AddStream ss) = map AddStream ss.
Proof. induction ss; simpl; by f_equal. Qed.

Lemma body_calls_channels chans :
  body_calls (map channel_call chans) = map channel_call chans.
Proof. induction chans; simpl; by f_equal. Qed.

Lemma connect_body_calls v w :
  exists out,
    calls (app (snd (connect_body v w))) = calls (app w) ++ out
    /\ body_calls out = out
    /\ one_run out
    /\ connect_p (app (snd (connect_body v w))) = connect_p (app w).
Proof.
  unfold connect_body.
  destruct v as [| | | | |l| | |];
    try (exists []; rewrite app_nil_r; repeat split; try done; exists []; by left).
  destruct (add_streams_calls l (app w)) as (ss & Hc & Hp).
  destruct (add_streams l (app w)) as [[e|] s1]; simpl in *.
  - exists (map AddStream ss). repeat split; try done.
    + apply body_calls_streams.
    + exists ss. by left.
  - destruct (add_channels_calls (Obj.entries (gathered_channels s1)) s1) as [Hc2 Hp2].
    set (s2 := add_channels _ s1) in *.
    exists (map AddStream ss ++ map channel_call (Obj.entries (gathered_channels s1))
              ++ [SetLocal (channels_desc s2); Connect]).
    repeat split.
    + rewrite Hc2, Hc. by rewrite <- !app_assoc.
    + by rewrite !body_calls_app, body_calls_streams, body_calls_channels.
    + exists ss. right. eauto.
    + congruence.
Qed.

Lemma callback_connect_p k v w :
  connect_p (app (snd (run_callback k v w))) = connect_p (app w).
Proof.
  destruct k; simpl; [done|].
  by destruct (connect_body_calls v w) as (_ & _ & _ & _ & ->).
Qed.

(** *** [connect_p] is set once *)

Lemma run_job_connect_p j w :
  connect_p (app (run_job run_callback j w)) = connect_p (app w).
Proof.
  destruct j as [[onF onR q|i agg|q] [v|e]|t q]; simpl;
    rewrite ?app_fill_slot, ?app_settle, ?app_subscribe; try done.
  - destruct onF as [k|]; [|by rewrite app_settle].
    pose proof (callback_connect_p k v w) as H.
    destruct (run_callback k v w) as [cpl w1]. by rewrite app_complete.
  - destruct onR as [k|]; [|by rewrite app_settle].
    pose proof (callback_connect_p k e w) as H.
    destruct (run_callback k e w) as [cpl w1]. by rewrite app_complete.
Qed.

Lemma drain_connect_p w :
  connect_p (app (drain run_callback w)) = connect_p (app w).
Proof.
  apply (drain_ind run_callback
           (fun w' => connect_p (app w') = connect_p (app w))); [|done].
  intros j js w' _ H. by rewrite run_job_connect_p.
Qed.

Lemma app_collection_get name held w :
  app (snd (collection_get name held w)) = app w.
Proof. unfold collection_get. by destruct (Obj.get name held). Qed.

Lemma apply_connect_p e w p :
  connect_p (app w) = Some p -> connect_p (app (apply e w)) = Some p.
Proof.
  intros H. destruct e; simpl; try done.
  - by rewrite (connect_again w p H).
  - unfold addStream. destruct (negb _); [done|].
    destruct name; try (by destruct obj); by destruct name.
  - unfold addDataChannel. destruct (negb _); [done|].
    unfold channel, collection_get.
    destruct name; simpl; by destruct (Obj.get _ _).
  - unfold stream, collection_get. by destruct (Obj.get _ _).
  - unfold channel, collection_get. by destruct (Obj.get _ _).
  - by rewrite app_settle_external.
Qed.

Lemma run_event_connect_p e w p :
  connect_p (app w) = Some p -> connect_p (app (run_event w e)) = Some p.
Proof.
  intros H. unfold run_event. rewrite drain_connect_p. by apply apply_connect_p.
Qed.

Lemma run_connect_p evs : forall w p,
  connect_p (app w) = Some p -> connect_p (app (run evs w)) = Some p.
Proof.
  induction evs as [|e evs IH]; intros w p H; simpl; [done|].
  by apply IH, run_event_connect_p.
Qed.

(** *** The callback of [connect] runs at most once *)

Definition body_weight (r : reaction callback) : nat :=
  match r with
  | RThen (Some CbBody) _ _ => 1
  | RThen _ (Some CbBody) _ => 1
  | _ => 0
  end.

(** How many times the callback is still waiting to run, on a promise or
    in the job queue. *)
Definition pending_bodies (w : W) : nat := total body_weight 0 w.

Record once (w : W) : Prop := mkOnce {
  once_shape : one_run (body_calls (calls (app w)));
  once_pending : pending_bodies w <= 1;
  once_not_yet : pending_bodies w = 1 -> body_calls (calls (app w)) = [];
  once_unset :
    connect_p (app w) = None ->
    pending_bodies w = 0 /\ body_calls (calls (app w)) = []
}.

Lemma once_frame w w' :
  body_calls (calls (app w')) = body_calls (calls (app w)) ->
  (connect_p (app w') = None -> connect_p (app w) = None) ->
  pending_bodies w' <= pending_bodies w ->
  once w -> once w'.
Proof.
  intros Hc Hp Hn [H1 H2 H3 H4]. split; rewrite ?Hc.
  - done.
  - lia.
  - intros E. apply H3. lia.
  - intros E. destruct (H4 (Hp E)). split; [lia|done].
Qed.

Lemma once_run_job j js w :
  queue w = j :: js -> once w -> once (run_job run_callback j (set_queue js w)).
Proof.
  intros Hq Hw.
  assert (pending_bodies (set_queue js w) + job_total body_weight 0 j
          = pending_bodies w) as Hn.
  { unfold pending_bodies, total. simpl. rewrite Hq. simpl. lia. }
  set (w0 := set_queue js w) in *.
  assert (forall k x q,
             (k = CbBody -> job_total body_weight 0 j = 1) ->
             once (let (c, w1) := run_callback k x w0 in complete q c w1)) as Hcb.
  { intros k x q Hk.
    pose proof (total_callback run_callback callbacks_tame body_weight 0 k x w0) as Ht.
    pose proof (callback_connect_p k x w0) as Hp.
    destruct k as [n|].
    - unfold run_callback. cbv beta iota.
      apply (once_frame w); rewrite ?app_complete; try done.
      pose proof (total_complete body_weight 0 q (Return (JArr [JStr n; x])) w0).
      unfold pending_bodies in *. lia.
    - specialize (Hk eq_refl).
      destruct (connect_body_calls x w0) as (out & Hc & Hout & Hrun & _).
      simpl in *. destruct (connect_body x w0) as [cpl w1]. simpl in *.
      pose proof (total_complete body_weight 0 q cpl w1) as Hcpl.
      destruct Hw as [H1 H2 H3 H4].
      assert (pending_bodies w = 1) as E1 by (unfold pending_bodies in *; lia).
      specialize (H3 E1).
      split; rewrite ?app_complete, ?Hc, ?body_calls_app, ?H3, ?Hout; simpl.
      + done.
      + unfold pending_bodies in *. lia.
      + unfold pending_bodies in *. lia.
      + rewrite Hp. intros E. destruct (H4 E). lia. }
  destruct j as [[onF onR q|i agg|q] [v|e]|t q]; simpl.
  - destruct onF as [k|].
    + apply Hcb. intros ->. by destruct onR as [[]|].
    + apply (once_frame w); rewrite ?app_settle; try done.
      unfold pending_bodies in *. rewrite total_settle. lia.
  - destruct onR as [k|].
    + apply Hcb. intros ->. by destruct onF as [[]|].
    + apply (once_frame w); rewrite ?app_settle; try done.
      unfold pending_bodies in *. rewrite total_settle. lia.
  - apply (once_frame w); rewrite ?app_fill_slot; try done.
    unfold pending_bodies in *. rewrite total_fill_slot. lia.
  - apply (once_frame w); rewrite ?app_settle; try done.
    unfold pending_bodies in *. rewrite total_settle. lia.
  - apply (once_frame w); rewrite ?app_settle; try done.
    unfold pending_bodies in *. rewrite total_settle. lia.
  - apply (once_frame w); rewrite ?app_settle; try done.
    unfold pending_bodies in *. rewrite total_settle. lia.
  - apply (once_frame w); rewrite ?app_subscribe; try done.
    pose proof (total_subscribe body_weight 0 t (RForward q) w0).
    unfold pending_bodies in *. simpl in *. lia.
Qed.

Lemma once_drain w : once w -> once (drain run_callback w).
Proof. apply drain_ind. intros j js w'. apply once_run_job. Qed.

Lemma total_tag_streams ents : forall w,
  total body_weight 0 (snd (tag_streams ents w)) <= total body_weight 0 w.
Proof.
  induction ents as [|[n p] ents IH]; intros w; [simpl; lia|].
  cbn [tag_streams].
  pose proof (total_then body_weight 0 p (Some (CbTag n)) None w) as H1.
  destruct (then_ p (Some (CbTag n)) None w) as [q w1]. simpl in H1.
  pose proof (IH w1) as H2.
  destruct (tag_streams ents w1) as [ps w2]. simpl in *. lia.
Qed.

Lemma connect_app w :
  connect_p (app w) = None ->
  app (snd (connect w)) = set_connect_p (Some (fst (connect w))) (app w).
Proof.
  intros H. unfold connect. rewrite H.
  pose proof (app_tag_streams (Obj.entries (gathered_streams (app w))) w) as H1.
  destruct (tag_streams _ w) as [ps w1].
  pose proof (app_promise_all ps w1) as H2.
  destruct (promise_all ps w1) as [all w2].
  pose proof (app_then all (Some CbBody) None w2) as H3.
  destruct (then_ all _ _ w2) as [p w3]. simpl in *. congruence.
Qed.

Lemma connect_pending w :
  connect_p (app w) = None ->
  pending_bodies (snd (connect w)) <= pending_bodies w + 1.
Proof.
  intros H. unfold connect. rewrite H. unfold pending_bodies.
  pose proof (total_tag_streams (Obj.entries (gathered_streams (app w))) w) as H1.
  destruct (tag_streams _ w) as [ps w1].
  pose proof (total_promise_all body_weight 0 ps w1 (fun _ _ => eq_refl)) as H2.
  destruct (promise_all ps w1) as [all w2].
  pose proof (total_then body_weight 0 all (Some CbBody) None w2) as H3.
  destruct (then_ all _ _ w2) as [p w3]. simpl in *.
  rewrite total_set_app. lia.
Qed.

(** The methods other than [connect] only allocate promises. *)
Definition only_allocates (w w' : W) : Prop :=
  exists cs,
    heap w' = heap w ++ cs /\ Forall quiet cs /\ queue w' = queue w
    /\ body_calls (calls (app w')) = body_calls (calls (app w))
    /\ connect_p (app w') = connect_p (app w).

Lemma once_only_allocates w w' : only_allocates w w' -> once w -> once w'.
Proof.
  intros (cs & Hh & Hcs & Hq & Hc & Hp). apply once_frame; try done.
  - by rewrite Hp.
  - unfold pending_bodies, total. rewrite Hh, Hq, sum_list_with_app.
    rewrite (quiet_total body_weight cs Hcs). lia.
Qed.

Ltac solve_only_allocates :=
  first
    [ by (exists []; simpl; rewrite ?app_nil_r, ?body_calls_app; simpl;
          rewrite ?app_nil_r)
    | by (eexists [_]; simpl; repeat split; try done; by repeat constructor) ].

Lemma apply_only_allocates e w :
  match e with EConnect | ESettle _ _ => False | _ => True end ->
  only_allocates w (apply e w).
Proof.
  destruct e; cbn [apply]; try done; intros _.
  - unfold addStream.
    destruct (negb _); [solve_only_allocates|].
    destruct name; try (destruct obj); simpl; solve_only_allocates.
  - unfold addDataChannel.
    destruct (negb _); [solve_only_allocates|].
    unfold channel, collection_get.
    destruct name; simpl; destruct (Obj.get _ _); simpl; solve_only_allocates.
  - unfold close. solve_only_allocates.
  - unfold stream, collection_get.
    destruct (Obj.get _ _); simpl; solve_only_allocates.
  - unfold channel, collection_get.
    destruct (Obj.get _ _); simpl; solve_only_allocates.
  - solve_only_allocates.
  - solve_only_allocates.
Qed.

Lemma once_apply e w : once w -> once (apply e w).
Proof.
  intros Hw.
  destruct e;
    try (apply (once_only_allocates w); [by apply apply_only_allocates|done]);
    cbn [apply].
  - destruct (connect_p (app w)) as [p|] eqn:Hp.
    + by rewrite (connect_again w p Hp).
    + destruct (once_unset w Hw Hp) as [H0 Hc].
      pose proof (connect_pending w Hp). pose proof (connect_app w Hp) as Ha.
      split; rewrite ?Ha; simpl; rewrite ?Hc.
      * exists []. by left.
      * lia.
      * done.
      * done.
  - apply (once_frame w); rewrite ?app_settle_external; try done.
    unfold pending_bodies. by rewrite total_settle_external.
Qed.

Lemma once_run_event e w : once w -> once (run_event w e).
Proof. intros. by apply once_drain, once_apply. Qed.

Lemma once_run evs : forall w, once w -> once (run evs w).
Proof.
  induction evs as [|e evs IH]; intros w H; simpl; [done|].
  by apply IH, once_run_event.
Qed.

Lemma once_init opts l h : Forall quiet h -> once (mkWorld h [] (init opts l)).
Proof.
  intros Hh.
  assert (pending_bodies (mkWorld h [] (init opts l)) = 0) as E.
  { unfold pending_bodies, total. simpl. rewrite (quiet_total _ _ Hh). lia. }
  split; simpl; rewrite ?E; try done; try lia. exists []. by left.
Qed.

Lemma once_constructor opts l h : Forall quiet h -> once (constructor opts l h).
Proof.
  intros Hh. unfold constructor.
  destruct (_ || _); [|by apply once_init].
  apply (once_apply EConnect). by apply once_init.
Qed.

(** *** A settled promise stays settled through the whole session *)

Lemma keeps_tag_streams ents :
  keeps_settled (fun w => snd (tag_streams ents w)).
Proof.
  induction ents as [|[n q] ents IH]; intros w p o Hp; [done|].
  cbn [tag_streams].
  pose proof (keeps_then q (Some (CbTag n)) None w p o Hp) as H1.
  cbv beta in H1.
  destruct (then_ q (Some (CbTag n)) None w) as [q' w1]. cbn [snd] in H1.
  pose proof (IH w1 p o H1) as H2. cbv beta in H2.
  by destruct (tag_streams ents w1) as [ps w2].
Qed.

Lemma keeps_connect : keeps_settled (fun w => snd (connect w)).
Proof.
  intros w p o Hp. unfold connect.
  destruct (connect_p (app w)); [done|].
  pose proof (keeps_tag_streams (Obj.entries (gathered_streams (app w))) w p o Hp) as H1.
  cbv beta in H1. destruct (tag_streams _ w) as [ps w1]. cbn [snd] in H1.
  pose proof (keeps_promise_all ps w1 p o H1) as H2. cbv beta in H2.
  destruct (promise_all ps w1) as [all w2]. cbn [snd] in H2.
  pose proof (keeps_then all (Some CbBody) None w2 p o H2) as H3. cbv beta in H3.
  by destruct (then_ all _ _ w2) as [q w3].
Qed.

Lemma keeps_apply e : keeps_settled (apply e).
Proof.
  intros w p o Hp. destruct e;
    try (match goal with
         | |- pstate_of (apply ?e _) _ = _ =>
             destruct (apply_only_allocates e w I) as (cs & Hh & _)
         end;
         unfold pstate_of in *; rewrite Hh;
         destruct (heap w !! p) as [c0|] eqn:E; [|done];
         by rewrite (lookup_app_l_Some _ _ _ _ E)).
  - by apply keeps_connect.
  - by apply keeps_settle_external.
Qed.

Lemma keeps_run evs : keeps_settled (run evs).
Proof.
  induction evs as [|e evs IH]; intros w p o Hp; simpl; [done|].
  apply IH. unfold run_event.
  by apply (keeps_drain run_callback callbacks_tame), keeps_apply.
Qed.

Lemma connect_sets w :
  connect_p (app (snd (connect w))) = Some (fst (connect w)).
Proof.
  destruct (connect_p (app w)) as [p|] eqn:Hp.
  - by rewrite (connect_again w p Hp).
  - by apply connect_first.
Qed.

(** How often [peer_connection.connect()] was called. *)
Fixpoint connects (cs : list call) : nat :=
  match cs with
  | [] => 0
  | Connect :: cs' => S (connects cs')
  | _ :: cs' => connects cs'
  end.

Lemma connects_app cs1 cs2 : connects (cs1 ++ cs2) = connects cs1 + connects cs2.
Proof. induction cs1 as [|[] cs1 IH]; simpl; by rewrite ?IH. Qed.

Lemma connects_body_calls cs : connects (body_calls cs) = connects cs.
Proof. induction cs as [|[] cs IH]; simpl; by rewrite ?IH. Qed.

Lemma connects_streams ss : connects (map AddStream ss) = 0.
Proof. by induction ss. Qed.

Lemma connects_channels chans : connects (map channel_call chans) = 0.
Proof. by induction chans. Qed.

Lemma one_run_connects cs : one_run cs -> connects cs <= 1.
Proof.
  intros (ss & [-> | (chans & d & ->)]).
  - rewrite connects_streams. lia.
  - rewrite !connects_app, connects_streams, connects_channels. simpl. lia.
Qed.

(** C1.  Take any moment [w1] of a session, a call of [connect] at that
    moment returning [p], and any later moment [w2].  A call of [connect]
    at [w2] returns the same promise [p] and changes nothing; once [p] is
    settled it keeps its outcome; and over the whole session the calls
    made on the peer connection and the channel collection (apart from
    [close()]) are those of at most one run of the callback of [connect]:
    [peer_connection.connect()] is called at most once. *)
Theorem connect_single_flight (opts : Obj.t jsval) (l : LocalPeer)
    (h : list (cell callback)) (evs1 evs2 : list event) :
  Forall quiet h ->
  let w1 := run evs1 (constructor opts l h) in
  let p := fst (connect w1) in
  let w2 := run evs2 (run_event w1 EConnect) in
  connect w2 = (p, w2)
  /\ (forall o evs3,
        pstate_of w2 p = Some (Settled o) ->
        pstate_of (run evs3 w2) p = Some (Settled o))
  /\ one_run (body_calls (calls (app w2)))
  /\ connects (calls (app w2)) <= 1.
Proof.
  intros Hh w1 p w2.
  assert (once w2) as Hw2.
  { apply once_run, once_run_event, once_run. by apply once_constructor. }
  repeat split.
  - apply connect_again. apply run_connect_p. unfold run_event. cbn [apply].
    rewrite drain_connect_p. apply connect_sets.
  - intros o evs3. apply keeps_run.
  - apply Hw2.
  - rewrite <- connects_body_calls. apply one_run_connects, Hw2.
Qed.

Lemma connect_single_flight_witness :
  let h := [Cell (Settled (Fulfilled (JStream (mkStream "cam-1")))) [] true] in
  let l := mkLocal [("cam", 0)] [("chat", JObj [])] in
  let w1 := run [] (constructor [("auto_connect", JBool false)] l h) in
  let p := fst (connect w1) in
  let w2 := run [ESettle 4 (Fulfilled JUndefined); EConnect]
              (run_event w1 EConnect) in
  Forall quiet h
  /\ connect w2 = (p, w2)
  /\ (forall o evs3,
        pstate_of w2 p = Some (Settled o) ->
        pstate_of (run evs3 w2) p = Some (Settled o))
  /\ one_run (body_calls (calls (app w2)))
  /\ connects (calls (app w2)) <= 1.
Proof.
  intros h l w1 p w2.
  assert (Forall quiet h) as Hh by (repeat constructor).
  split; [exact Hh|].
  exact (connect_single_flight [("auto_connect", JBool false)] l h []
           [ESettle 4 (Fulfilled JUndefined); EConnect] Hh).
Defined.

End RemotePeerOnce.


(** ** The peer session: the protocol of [connect] *)
Module RemotePeerProtocol.
Import Promise PromiseFacts HeapTactics RemotePeer RemotePeerFacts RemotePeerOnce.

(** *** Single jobs *)

Lemma step_settle (w : W) q c rs o :
  heap w !! q = Some c -> st c = Pending rs ->
  settle q o w
  = mkWorld (<[q := set_st (Settled o) c]> (heap w))
      (queue w ++ map (fun r => JReact r o) rs) (app w).
Proof. intros Hq Hc. unfold settle. by rewrite Hq, Hc. Qed.

Lemma step_tag (w : W) n q v c rs :
  heap w !! q = Some c -> st c = Pending rs ->
  run_job run_callback (JReact (RThen (Some (CbTag n)) None q) (Fulfilled v)) w
  = mkWorld (<[q := set_st (Settled (Fulfilled (JArr [JStr n; v]))) c]> (heap w))
      (queue w ++ map (fun r => JReact r (Fulfilled (JArr [JStr n; v]))) rs)
      (app w).
Proof. intros Hq Hc. simpl. by apply step_settle. Qed.

Lemma step_elem (w : W) i agg v c :
  heap w !! agg = Some c ->
  run_job run_callback (JReact (RAllElem i agg) (Fulfilled v)) w
  = let sl := <[i := Some v]> (slots c) in
    let w1 := mkWorld (<[agg := set_slots sl c]> (heap w)) (queue w) (app w) in
    match collect sl with
    | Some vs => settle agg (Fulfilled (JArr vs)) w1
    | None => w1
    end.
Proof. intros Hq. simpl. unfold fill_slot. by rewrite Hq. Qed.

(** *** The callback on a well-typed array *)

Definition tagged (e : string * Stream) : jsval :=
  JArr [JStr (fst e); JStream (snd e)].

(** [streams_desc] after the loop over the streams. *)
Definition describe_streams (es : list (string * Stream)) (d : Obj.t jsval)
    : Obj.t jsval :=
  fold_left (fun d e => Obj.set (fst e) (JStr (stream_id (snd e))) d) es d.

(** [channels_desc] after the loop over the channels. *)
Definition describe_channels (es : list (string * jsval)) (d : Obj.t jsval)
    : Obj.t jsval :=
  fold_left (fun d e => Obj.set (fst e) (snd e) d) es d.

Lemma add_streams_tagged es : forall s,
  add_streams (map tagged es) s
  = (None,
     set_streams_desc (describe_streams es (streams_desc s))
       (mkState (options s) (local s) (private_streams s) (private_channels s)
          (streams_desc s) (channels_desc s) (connect_p s) (streams s)
          (channels s)
          (calls s ++ map (fun e => AddStream (JStream (snd e))) es))).
Proof.
  induction es as [|[n st] es IH]; intros s.
  - simpl. rewrite app_nil_r. by destruct s.
  - cbn [map tagged fst snd add_streams]. rewrite IH. simpl.
    by rewrite <- app_assoc.
Qed.

Lemma add_channels_spec es : forall s,
  add_channels es s
  = set_channels_desc (describe_channels es (channels_desc s))
      (mkState (options s) (local s) (private_streams s) (private_channels s)
         (streams_desc s) (channels_desc s) (connect_p s) (streams s)
         (channels s) (calls s ++ map channel_call es)).
Proof.
  induction es as [|[n o] es IH]; intros s.
  - simpl. rewrite app_nil_r. by destruct s.
  - cbn [add_channels]. rewrite IH. simpl. by rewrite <- app_assoc.
Qed.

(** The state of the peer after the callback ran on [es]. *)
Definition after_body (es : list (string * Stream)) (s : state) : state :=
  let chans := Obj.entries (gathered_channels s) in
  let cd := describe_channels chans (channels_desc s) in
  mkState (options s) (local s) (private_streams s) (private_channels s)
    (describe_streams es (streams_desc s)) cd (connect_p s) (streams s)
    (channels s)
    (calls s
       ++ map (fun e => AddStream (JStream (snd e))) es
       ++ map channel_call chans
       ++ [SetLocal cd; Connect]).

Lemma connect_body_tagged es (w : W) :
  connect_body (JArr (map tagged es)) w
  = (Return (JPromise (length (heap w))),
     mkWorld (heap w ++ [Cell (Pending []) [] true]) (queue w)
       (after_body es (app w))).
Proof.
  unfold connect_body. rewrite add_streams_tagged.
  rewrite add_channels_spec. unfold after_body, gathered_channels.
  unfold new_external, alloc, record, set_channels_desc, set_streams_desc,
    set_heap, set_app. simpl.
  by rewrite <- !app_assoc.
Qed.

(** *** The heap while [connect] is gathering

    From the first call of [connect] on, the heap is the heap at the call
    ([H], [base] cells), one promise for each awaited stream ([Q]), the
    promise of [Promise.all] ([A]), the promise that [connect] returns
    ([C]), and what is allocated later ([X]). *)
Section Gather.
Variable base : nat.
Variable ents : list (string * pid).
Local Abbreviation k := (length ents).

Definition tagR (i : nat) (n : string) : reaction callback :=
  RThen (Some (CbTag n)) None (base + i).
Definition elemR (i : nat) : reaction callback := RAllElem i (base + k).
Definition bodyR : reaction callback :=
  RThen (Some CbBody) None (base + k + 1).

Definition Qpend (i : nat) : cell callback :=
  {| st := Pending [elemR i]; slots := []; external := false |}.
Definition Qdone (n : string) (v : jsval) : cell callback :=
  {| st := Settled (Fulfilled (JArr [JStr n; v])); slots := []; external := false |}.
Definition Acell (s : pstate callback) (sl : list (option jsval)) : cell callback :=
  {| st := s; slots := sl; external := false |}.

Definition layout (H Q : list (cell callback)) (A C : cell callback)
    (X : list (cell callback)) : list (cell callback) :=
  H ++ Q ++ A :: C :: X.

(** [d] tells, for each awaited stream, the value delivered so far. *)
Definition Qof (d : list (option jsval)) : list (cell callback) :=
  imap (fun i e => match d !! i with
                   | Some (Some v) => Qdone (fst e) v
                   | _ => Qpend i
                   end) ents.

Definition slots_of (d : list (option jsval)) : list (option jsval) :=
  imap (fun i e => match d !! i with
                   | Some (Some v) => Some (JArr [JStr (fst e); v])
                   | _ => None
                   end) ents.

(** A delivery: index, name, value. *)
Definition delivery : Type := nat * string * jsval.
Definition d_index (t : delivery) : nat := fst (fst t).
Definition d_name (t : delivery) : string := snd (fst t).
Definition d_value (t : delivery) : jsval := snd t.

Definition tagjob (t : delivery) : job callback :=
  JReact (tagR (d_index t) (d_name t)) (Fulfilled (d_value t)).
Definition elemjob (t : delivery) : job callback :=
  JReact (elemR (d_index t)) (Fulfilled (JArr [JStr (d_name t); d_value t])).

Definition deliver (d : list (option jsval)) (ts : list delivery)
    : list (option jsval) :=
  fold_left (fun d t => <[d_index t := Some (d_value t)]> d) ts d.

(** A delivery is due when its stream is awaited under its name and has
    no value yet. *)
Definition due (d : list (option jsval)) (t : delivery) : Prop :=
  (exists p, ents !! d_index t = Some (d_name t, p))
  /\ d !! d_index t = Some None.

Lemma length_Qof d : length (Qof d) = k.
Proof. unfold Qof. by rewrite length_imap. Qed.

Lemma length_slots_of d : length (slots_of d) = k.
Proof. unfold slots_of. by rewrite length_imap. Qed.

Lemma lookup_layout_H H Q A C X p :
  p < length H -> layout H Q A C X !! p = H !! p.
Proof. intros. unfold layout. by rewrite lookup_app_l. Qed.

Lemma lookup_layout_Q H Q A C X i :
  length H = base -> i < length Q ->
  layout H Q A C X !! (base + i) = Q !! i.
Proof.
  intros <- Hi. unfold layout. rewrite lookup_past. by rewrite lookup_app_l.
Qed.

Lemma lookup_layout_A H Q A C X :
  length H = base -> length Q = k ->
  layout H Q A C X !! (base + k) = Some A.
Proof.
  intros <- <-. unfold layout. rewrite lookup_past. by rewrite lookup_end.
Qed.

Lemma lookup_layout_C H Q A C X :
  length H = base -> length Q = k ->
  layout H Q A C X !! (base + k + 1) = Some C.
Proof.
  intros <- <-. unfold layout. rewrite <- Nat.add_assoc, lookup_past.
  by rewrite lookup_past.
Qed.

Lemma lookup_layout_X H Q A C X j :
  length H = base -> length Q = k ->
  layout H Q A C X !! (base + k + 2 + j) = X !! j.
Proof.
  intros <- <-. unfold layout.
  replace (length H + length Q + 2 + j) with (length H + (length Q + (2 + j))) by lia.
  by rewrite !lookup_past.
Qed.

Lemma insert_layout_H H Q A C X p c :
  p < length H ->
  <[p := c]> (layout H Q A C X) = layout (<[p := c]> H) Q A C X.
Proof. intros. unfold layout. by rewrite insert_app_l. Qed.

Lemma insert_layout_Q H Q A C X i c :
  length H = base -> i < length Q ->
  <[base + i := c]> (layout H Q A C X) = layout H (<[i := c]> Q) A C X.
Proof.
  intros <- Hi. unfold layout. rewrite insert_app_r. by rewrite insert_app_l.
Qed.

Lemma insert_layout_A H Q A C X c :
  length H = base -> length Q = k ->
  <[base + k := c]> (layout H Q A C X) = layout H Q c C X.
Proof.
  intros <- <-. unfold layout. rewrite insert_app_r. by rewrite insert_end.
Qed.

Lemma insert_layout_C H Q A C X c :
  length H = base -> length Q = k ->
  <[base + k + 1 := c]> (layout H Q A C X) = layout H Q A c X.
Proof.
  intros <- <-. unfold layout. rewrite <- Nat.add_assoc, insert_app_r.
  by rewrite insert_app_r.
Qed.

Lemma insert_layout_X H Q A C X j c :
  length H = base -> length Q = k ->
  <[base + k + 2 + j := c]> (layout H Q A C X) = layout H Q A C (<[j := c]> X).
Proof.
  intros <- <-. unfold layout.
  replace (length H + length Q + 2 + j) with (length H + (length Q + (2 + j))) by lia.
  by rewrite !insert_app_r.
Qed.

Lemma length_layout H Q A C X :
  length H = base -> length Q = k ->
  length (layout H Q A C X) = base + k + 2 + length X.
Proof. intros <- <-. unfold layout. rewrite !length_app. simpl. lia. Qed.

Lemma Qof_insert d i n p v :
  ents !! i = Some (n, p) -> i < length d ->
  Qof (<[i := Some v]> d) = <[i := Qdone n v]> (Qof d).
Proof.
  intros He Hi. apply list_eq. intros j. unfold Qof.
  rewrite list_lookup_insert, !list_lookup_imap, length_imap.
  destruct (decide (i = j)) as [<-|Hne].
  - rewrite He. simpl. rewrite list_lookup_insert_eq by done.
    apply lookup_lt_Some in He as Hlt.
    by rewrite decide_True.
  - rewrite decide_False by tauto.
    by rewrite list_lookup_insert_ne.
Qed.

Lemma slots_of_insert d i n p v :
  ents !! i = Some (n, p) -> i < length d ->
  slots_of (<[i := Some v]> d) = <[i := Some (JArr [JStr n; v])]> (slots_of d).
Proof.
  intros He Hi. apply list_eq. intros j. unfold slots_of.
  rewrite list_lookup_insert, !list_lookup_imap, length_imap.
  destruct (decide (i = j)) as [<-|Hne].
  - rewrite He. simpl. rewrite list_lookup_insert_eq by done.
    apply lookup_lt_Some in He as Hlt.
    by rewrite decide_True.
  - rewrite decide_False by tauto.
    by rewrite list_lookup_insert_ne.
Qed.

Lemma Qof_due d t : due d t -> Qof d !! d_index t = Some (Qpend (d_index t)).
Proof.
  intros [[p He] Hd]. unfold Qof. rewrite list_lookup_imap, He. simpl.
  by rewrite Hd.
Qed.

Lemma slots_of_due d t : due d t -> slots_of d !! d_index t = Some None.
Proof.
  intros [[p He] Hd]. unfold slots_of. rewrite list_lookup_imap, He. simpl.
  by rewrite Hd.
Qed.

Lemma due_insert d t t' :
  d_index t <> d_index t' -> due d t' ->
  due (<[d_index t := Some (d_value t)]> d) t'.
Proof.
  intros Hne [He Hd]. split; [done|]. by rewrite list_lookup_insert_ne.
Qed.

(** **** The jobs of the [then] callbacks *)
Lemma phase1 ts : forall d H A C X q' a,
  length H = base -> length d = k ->
  Forall (due d) ts -> NoDup (map d_index ts) ->
  drain run_callback
    (mkWorld (layout H (Qof d) A C X) (map tagjob ts ++ q') a)
  = drain run_callback
      (mkWorld (layout H (Qof (deliver d ts)) A C X) (q' ++ map elemjob ts) a).
Proof.
  induction ts as [|t ts IH]; intros d H A C X q' a HH Hd Hdue Hnd.
  - simpl. by rewrite app_nil_r.
  - inversion Hdue as [|? ? Ht Hts]; subst.
    inversion Hnd as [|? ? Hnotin Hnd']; subst.
    destruct Ht as [[p He] Hdt].
    assert (d_index t < k) as Hlt by (by eapply lookup_lt_Some).
    erewrite (drain_cons _ callbacks_tame); [|reflexivity].
    unfold tagjob at 1, tagR.
    erewrite step_tag; cycle 1.
    { simpl. rewrite lookup_layout_Q by (rewrite ?length_Qof; done).
      apply Qof_due. split; eauto. }
    { reflexivity. }
    simpl.
    rewrite insert_layout_Q by (rewrite ?length_Qof; done).
    change (set_st (Settled (Fulfilled (JArr [JStr (d_name t); d_value t])))
              (Qpend (d_index t)))
      with (Qdone (d_name t) (d_value t)).
    rewrite <- (Qof_insert d (d_index t) (d_name t) p) by (done || lia).
    rewrite <- app_assoc.
    rewrite IH; try done.
    + by rewrite <- app_assoc.
    + by rewrite length_insert.
    + apply Forall_forall. intros t' Hin.
      apply due_insert.
      * intros E. apply Hnotin. rewrite E. apply list_elem_of_fmap. eauto.
      * by eapply Forall_forall in Hts.
Qed.

Lemma collect_None {X : Type} (sl : list (option X)) j :
  sl !! j = Some None -> collect sl = None.
Proof.
  revert j. induction sl as [|[x|] sl IH]; intros [|j] Hj; simplify_eq/=; try done.
  by rewrite (IH j Hj).
Qed.

(** **** The jobs of [Promise.all] *)
Lemma phase2 ts : forall d H Q C X a,
  length H = base -> length Q = k -> length d = k -> ts <> [] ->
  Forall (due d) ts -> NoDup (map d_index ts) ->
  drain run_callback
    (mkWorld (layout H Q (Acell (Pending [bodyR]) (slots_of d)) C X)
       (map elemjob ts) a)
  = match collect (slots_of (deliver d ts)) with
    | None =>
        mkWorld
          (layout H Q (Acell (Pending [bodyR]) (slots_of (deliver d ts))) C X)
          [] a
    | Some vs =>
        drain run_callback
          (mkWorld
             (layout H Q
                (Acell (Settled (Fulfilled (JArr vs))) (slots_of (deliver d ts)))
                C X)
             [JReact bodyR (Fulfilled (JArr vs))] a)
    end.
Proof.
  induction ts as [|t ts IH]; intros d H Q C X a HH HQ Hd Hne Hdue Hnd; [done|].
  inversion Hdue as [|? ? Ht Hts]; subst.
  inversion Hnd as [|? ? Hnotin Hnd']; subst.
  destruct Ht as [[p He] Hdt].
  assert (d_index t < k) as Hlt by (by eapply lookup_lt_Some).
  erewrite (drain_cons _ callbacks_tame); [|reflexivity].
  unfold elemjob at 1, elemR.
  erewrite step_elem; cycle 1.
  { simpl. by apply lookup_layout_A. }
  cbn [slots heap queue app set_queue Acell set_slots st external].
  rewrite <- (slots_of_insert d (d_index t) (d_name t) p) by (done || lia).
  rewrite insert_layout_A by done.
  destruct ts as [|t' ts].
  - simpl. destruct (collect _) as [vs|] eqn:Hc.
    + erewrite step_settle; cycle 1.
      { simpl. by apply lookup_layout_A. }
      { reflexivity. }
      simpl. by rewrite insert_layout_A.
    + by rewrite drain_idle.
  - assert (Forall (due (<[d_index t:=Some (d_value t)]> d)) (t' :: ts)) as Hdue'.
    { apply Forall_forall. intros t'' Hin. apply due_insert.
      - intros E. apply Hnotin. rewrite E. apply list_elem_of_fmap. eauto.
      - by eapply Forall_forall in Hts. }
    rewrite (collect_None _ (d_index t')); cycle 1.
    { apply slots_of_due. by inversion Hdue'. }
    change (set_slots (slots_of (<[d_index t:=Some (d_value t)]> d))
              (Acell (Pending [bodyR]) (slots_of d)))
      with (Acell (Pending [bodyR]) (slots_of (<[d_index t:=Some (d_value t)]> d))).
    rewrite IH; try done. by rewrite length_insert.
Qed.

Lemma layout_snoc H Q A C X c :
  layout H Q A C X ++ [c] = layout H Q A C (X ++ [c]).
Proof. unfold layout. by rewrite <- !app_assoc. Qed.

(** **** The callback of [connect] and the promise of the transport *)
Lemma phase3 es H Q sl a :
  length H = base -> length Q = k ->
  drain run_callback
    (mkWorld
       (layout H Q (Acell (Settled (Fulfilled (JArr (map tagged es)))) sl)
          derived [])
       [JReact bodyR (Fulfilled (JArr (map tagged es)))] a)
  = mkWorld
      (layout H Q (Acell (Settled (Fulfilled (JArr (map tagged es)))) sl)
         derived [Cell (Pending [RForward (base + k + 1)]) [] true])
      [] (after_body es a).
Proof.
  intros HH HQ.
  erewrite (drain_cons _ callbacks_tame); [|reflexivity].
  unfold bodyR. cbn [run_job run_callback]. rewrite connect_body_tagged.
  cbn [complete resolve heap queue app set_queue].
  rewrite length_layout by done. simpl length.
  replace (base + k + 2 + 0 =? base + k + 1)%nat with false
    by (symmetry; apply Nat.eqb_neq; lia).
  unfold enqueue. cbn [heap queue app set_queue].
  erewrite (drain_cons _ callbacks_tame); [|reflexivity].
  cbn [run_job]. unfold subscribe. cbn [heap queue app set_queue].
  rewrite layout_snoc. simpl app.
  rewrite lookup_layout_X by done. simpl.
  unfold set_heap, set_st. simpl.
  rewrite insert_layout_X by done. simpl.
  by rewrite drain_idle.
Qed.

(** **** Which deliveries a heap brings *)

(** The value a promise of the heap [H] was fulfilled with. *)
Definition value_of (H : list (cell callback)) (p : pid) : option jsval :=
  match H !! p with
  | Some c =>
      match st c with
      | Settled (Fulfilled v) => Some v
      | _ => None
      end
  | None => None
  end.

Definition values (H : list (cell callback)) : list (option jsval) :=
  map (fun e => value_of H (snd e)) ents.

(** The deliveries not yet in [d] that [H] has a value for, by index. *)
Fixpoint newly_from (d : list (option jsval)) (H : list (cell callback))
    (i : nat) (es : list (string * pid)) : list delivery :=
  match es with
  | [] => []
  | (n, p) :: es' =>
      match d !! i, value_of H p with
      | Some None, Some v => (i, n, v) :: newly_from d H (S i) es'
      | _, _ => newly_from d H (S i) es'
      end
  end.

Definition newly (d : list (option jsval)) (H : list (cell callback))
    : list delivery :=
  newly_from d H 0 ents.

Lemma length_values H : length (values H) = k.
Proof. unfold values. by rewrite length_map. Qed.

Lemma lookup_values H i :
  values H !! i = (fun e => value_of H (snd e)) <$> ents !! i.
Proof. unfold values. by rewrite list_lookup_fmap. Qed.

Lemma elem_of_newly_from d H es : forall i t,
  t ∈ newly_from d H i es <->
  exists j p, es !! j = Some (d_name t, p) /\ d_index t = i + j
              /\ d !! (i + j) = Some None /\ value_of H p = Some (d_value t).
Proof.
  induction es as [|[n p] es IH]; intros i t; simpl.
  - split; [by intros ?%elem_of_nil | by intros (j & ? & ? & _)].
  - assert (t ∈ newly_from d H (S i) es <->
            exists j p0, (((n, p) :: es) !! S j = Some (d_name t, p0))
                         /\ d_index t = i + S j /\ d !! (i + S j) = Some None
                         /\ value_of H p0 = Some (d_value t)) as Htail.
    { rewrite IH. split; intros (j & p0 & H1 & H2 & H3 & H4); exists j, p0;
        simpl; rewrite <- ?Nat.add_succ_comm in *; done. }
    assert (forall P : Prop,
               (P <-> exists p0, Some (n, p) = Some (d_name t, p0)
                                 /\ d_index t = i + 0 /\ d !! (i + 0) = Some None
                                 /\ value_of H p0 = Some (d_value t)) ->
               (P \/ t ∈ newly_from d H (S i) es <->
                exists j p0, ((n, p) :: es) !! j = Some (d_name t, p0)
                             /\ d_index t = i + j /\ d !! (i + j) = Some None
                             /\ value_of H p0 = Some (d_value t))) as Hcomb.
    { intros P HP. rewrite Htail, HP. split.
      - intros [(p0 & ?)|(j & p0 & ?)]; [by exists 0, p0 | by exists (S j), p0].
      - intros ([|j] & p0 & ?); [left; by exists p0 | right; by exists j, p0]. }
    destruct (d !! i) as [[v0|]|] eqn:Hdi;
      [| destruct (value_of H p) as [v|] eqn:Hv |].
    + rewrite <- (Hcomb False); [tauto|]. split; [done|].
      intros (p0 & _ & _ & Hd' & _). rewrite Nat.add_0_r in Hd'. congruence.
    + rewrite elem_of_cons. apply Hcomb. split.
      * intros ->. exists p. simpl. rewrite Nat.add_0_r. done.
      * intros (p0 & [= Hn Hp] & Hidx & _ & Hv').
        destruct t as [[i' n'] v']. unfold d_index, d_name, d_value in *.
        simpl in *. rewrite Nat.add_0_r in Hidx. congruence.
    + rewrite <- (Hcomb False); [tauto|]. split; [done|].
      intros (p0 & [= Hn Hp] & _ & _ & Hv'). congruence.
    + rewrite <- (Hcomb False); [tauto|]. split; [done|].
      intros (p0 & _ & _ & Hd' & _). rewrite Nat.add_0_r in Hd'. congruence.
Qed.

Lemma elem_of_newly d H t :
  t ∈ newly d H <->
  exists p, ents !! d_index t = Some (d_name t, p)
            /\ d !! d_index t = Some None /\ value_of H p = Some (d_value t).
Proof.
  unfold newly. rewrite elem_of_newly_from. split.
  - intros (j & p & H1 & H2 & H3 & H4). simpl in *. subst. eauto.
  - intros (p & H1 & H2 & H3). exists (d_index t), p. done.
Qed.

Lemma newly_from_increasing d H es : forall i,
  Forall (fun t => i <= d_index t) (newly_from d H i es)
  /\ NoDup (map d_index (newly_from d H i es)).
Proof.
  induction es as [|[n p] es IH]; intros i; simpl.
  - split; constructor.
  - destruct (IH (S i)) as [Hge Hnd].
    assert (Forall (fun t => i <= d_index t) (newly_from d H (S i) es)) as Hge'.
    { eapply Forall_impl; [exact Hge|]. simpl. intros. lia. }
    destruct (d !! i) as [[v0|]|]; [done| |done].
    destruct (value_of H p) as [v|]; [|done].
    split; [by constructor|]. simpl. constructor; [|done].
    intros Hin. apply list_elem_of_fmap in Hin as (t & Ht & Hin).
    eapply Forall_forall in Hge; [|exact Hin]. unfold d_index in *. simpl in *. lia.
Qed.

Lemma newly_NoDup d H : NoDup (map d_index (newly d H)).
Proof. apply newly_from_increasing. Qed.

Lemma newly_due d H : Forall (due d) (newly d H).
Proof.
  apply Forall_forall. intros t (p & H1 & H2 & H3)%elem_of_newly.
  split; eauto.
Qed.

Lemma deliver_lookup_notin ts : forall d j,
  j ∉ map d_index ts -> deliver d ts !! j = d !! j.
Proof.
  induction ts as [|t ts IH]; intros d j Hj; simpl; [done|].
  rewrite IH by (intros ?; apply Hj; by right).
  apply list_lookup_insert_ne. intros E. apply Hj. rewrite <- E. by left.
Qed.

Lemma length_deliver ts : forall d, length (deliver d ts) = length d.
Proof.
  induction ts as [|t ts IH]; intros d; simpl; [done|].
  by rewrite IH, length_insert.
Qed.

Lemma deliver_lookup_in ts : forall d t,
  NoDup (map d_index ts) -> t ∈ ts -> d_index t < length d ->
  deliver d ts !! d_index t = Some (Some (d_value t)).
Proof.
  induction ts as [|t0 ts IH]; intros d t Hnd Hin Hlt; [by apply elem_of_nil in Hin|].
  inversion Hnd as [|? ? Hnotin Hnd']; subst. simpl.
  apply elem_of_cons in Hin as [->|Hin].
  - rewrite deliver_lookup_notin by done. by apply list_lookup_insert_eq.
  - apply IH; [done..|]. by rewrite length_insert.
Qed.

(** Delivering what [H] newly brings gives the values of [H]. *)
Lemma deliver_newly d H :
  length d = k ->
  (forall i v, d !! i = Some (Some v) -> values H !! i = Some (Some v)) ->
  deliver d (newly d H) = values H.
Proof.
  intros Hd Hmono. apply list_eq. intros i.
  destruct (decide (i < k)) as [Hlt|Hge]; cycle 1.
  { rewrite !lookup_ge_None_2; [done| |]; rewrite ?length_values, ?length_deliver; lia. }
  destruct (lookup_lt_is_Some_2 ents i Hlt) as [[n p] He].
  destruct (lookup_lt_is_Some_2 d i ltac:(lia)) as [x Hx].
  rewrite lookup_values, He. simpl.
  destruct x as [v|].
  - rewrite deliver_lookup_notin.
    + rewrite Hx. specialize (Hmono i v Hx). rewrite lookup_values, He in Hmono.
      simpl in Hmono. congruence.
    + intros (t & -> & (p' & _ & Hd' & _)%elem_of_newly)%list_elem_of_fmap.
      congruence.
  - destruct (value_of H p) as [v|] eqn:Hv.
    + assert ((i, n, v) ∈ newly d H) as Hin.
      { apply elem_of_newly. exists p. done. }
      change i with (d_index (i, n, v)) at 1.
      rewrite (deliver_lookup_in (newly d H) d (i, n, v));
        [done | apply newly_NoDup | done | unfold d_index; simpl; lia].
    + rewrite deliver_lookup_notin; [done|].
      intros (t & -> & (p' & He' & _ & Hv')%elem_of_newly)%list_elem_of_fmap.
      rewrite He in He'. by simplify_eq.
Qed.

(** **** The states between events *)

(** The [then] reactions that [connect] leaves on promise [p]. *)
Fixpoint tags_from (p : pid) (i : nat) (es : list (string * pid))
    : list (reaction callback) :=
  match es with
  | [] => []
  | (n, p') :: es' =>
      (if (p' =? p)%nat then [tagR i n] else []) ++ tags_from p (S i) es'
  end.

(** The part of the heap that existed at the call: a pending promise
    holds the reactions of [connect] and nothing else. *)
Definition cond_H (H : list (cell callback)) : Prop :=
  length H = base
  /\ forall p c rs,
       H !! p = Some c -> st c = Pending rs -> rs = tags_from p 0 ents.

(** No awaited promise was rejected or fulfilled with something that is
    not a stream. *)
Definition nooff (H : list (cell callback)) : Prop :=
  forall i n p c o,
    ents !! i = Some (n, p) -> H !! p = Some c -> st c = Settled o ->
    exists s, o = Fulfilled (JStream s).

Definition streams_at (H : list (cell callback)) (es0 : list (string * pid))
    (es : list (string * Stream)) : Prop :=
  Forall2 (fun e e' => fst e' = fst e
                       /\ value_of H (snd e) = Some (JStream (snd e'))) es0 es.

Lemma slots_of_values H :
  slots_of (values H)
  = map (fun e => (fun v => JArr [JStr (fst e); v]) <$> value_of H (snd e)) ents.
Proof.
  apply list_eq. intros i. unfold slots_of.
  rewrite list_lookup_imap, list_lookup_fmap, lookup_values.
  destruct (ents !! i) as [[n p]|]; [|done]. simpl.
  by destruct (value_of H p).
Qed.

Lemma collect_streams H es0 : forall vs,
  Forall (fun e => forall v, value_of H (snd e) = Some v -> exists s, v = JStream s) es0 ->
  collect (map (fun e => (fun v => JArr [JStr (fst e); v]) <$> value_of H (snd e)) es0)
  = Some vs ->
  exists es, streams_at H es0 es /\ vs = map tagged es.
Proof.
  induction es0 as [|[n p] es0 IH]; intros vs Hall Hc; simpl in Hc.
  - simplify_eq. exists []. split; [constructor|done].
  - inversion Hall as [|? ? Hp Hall']; subst. simpl in Hp.
    destruct (value_of H p) as [v|] eqn:Hv; [|done]. simpl in Hc.
    destruct (collect _) as [vs'|] eqn:Hc'; [|done]. simplify_eq.
    destruct (Hp v eq_refl) as [s ->].
    destruct (IH vs' Hall' eq_refl) as (es & Hes & ->).
    exists ((n, s) :: es). split; [|done].
    constructor; [|done]. done.
Qed.

Lemma value_of_Some H p v :
  value_of H p = Some v <->
  exists c, H !! p = Some c /\ st c = Settled (Fulfilled v).
Proof.
  unfold value_of. split.
  - destruct (H !! p) as [c|]; [|done].
    destruct (st c) as [|[v'|]] eqn:E; try done. intros [= ->]. eauto.
  - intros (c & -> & ->). done.
Qed.

Lemma collect_slots_streams H vs :
  nooff H -> collect (slots_of (values H)) = Some vs ->
  exists es, streams_at H ents es /\ vs = map tagged es.
Proof.
  intros Hno. rewrite slots_of_values. apply collect_streams.
  apply Forall_forall. intros [n p] Hin v Hv. simpl in Hv.
  apply list_elem_of_lookup in Hin as [i Hi].
  apply value_of_Some in Hv as (c & Hc & Hst).
  destruct (Hno i n p c _ Hi Hc Hst) as [s E]. exists s. congruence.
Qed.

Definition Tcell : cell callback :=
  Cell (Pending [RForward (base + k + 1)]) [] true.

(** Gathering: some awaited promise is still pending. *)
Definition Gform (a : state) (w : W) : Prop :=
  exists H,
    cond_H H /\ nooff H /\ collect (slots_of (values H)) = None
    /\ w = mkWorld
             (layout H (Qof (values H))
                (Acell (Pending [bodyR]) (slots_of (values H))) derived [])
             [] a.

(** Done: the callback ran on the streams [es]; the returned promise
    follows the promise of the transport. *)
Definition Dform (a : state) (w : W) : Prop :=
  exists H es,
    cond_H H /\ streams_at H ents es
    /\ w = mkWorld
             (layout H (Qof (values H))
                (Acell (Settled (Fulfilled (JArr (map tagged es))))
                   (slots_of (values H)))
                derived [Tcell])
             [] (after_body es a).

Lemma advance H d a :
  cond_H H -> nooff H -> length d = k ->
  (forall i v, d !! i = Some (Some v) -> values H !! i = Some (Some v)) ->
  collect (slots_of d) = None ->
  let w :=
    drain run_callback
      (mkWorld
         (layout H (Qof d) (Acell (Pending [bodyR]) (slots_of d)) derived [])
         (map tagjob (newly d H)) a) in
  Gform a w \/ Dform a w.
Proof.
  intros HH Hno Hd Hmono Hcol w. subst w.
  pose proof HH as [Hlen _].
  rewrite <- (app_nil_r (map tagjob _)).
  rewrite phase1; [|done|done|apply newly_due|apply newly_NoDup].
  rewrite app_nil_l.
  destruct (newly d H) as [|t ts] eqn:Hts.
  - pose proof (deliver_newly d H Hd Hmono) as E. rewrite Hts in E. simpl in E.
    simpl. rewrite drain_idle by done. left. exists H. subst d. done.
  - rewrite phase2; [|done|by rewrite length_Qof|done|done
                      |rewrite <- Hts; apply newly_due
                      |rewrite <- Hts; apply newly_NoDup].
    rewrite <- Hts, (deliver_newly d H Hd Hmono).
    destruct (collect (slots_of (values H))) as [vs|] eqn:Hc.
    + destruct (collect_slots_streams H vs Hno Hc) as (es & Hes & ->).
      rewrite phase3; [|done|by rewrite length_Qof].
      right. exists H, es. done.
    + left. exists H. done.
Qed.

(** **** One event *)

Lemma tags_from_nil p es : forall i,
  tags_from p i es = [] <-> forall j n, es !! j <> Some (n, p).
Proof.
  induction es as [|[n' p'] es IH]; intros i; simpl.
  - split; [intros _ j n; by rewrite lookup_nil | done].
  - destruct (Nat.eqb_spec p' p) as [->|Hne]; simpl.
    + split; [done|]. intros Hall. by destruct (Hall 0 n').
    + rewrite IH. split.
      * intros Hall [|j] n; simpl; [congruence | apply Hall].
      * intros Hall j n. apply (Hall (S j) n).
Qed.

Lemma tags_from_some p es : forall i,
  tags_from p i es <> [] -> exists j n, es !! j = Some (n, p).
Proof.
  induction es as [|[n' p'] es IH]; intros i; simpl; [done|].
  destruct (Nat.eqb_spec p' p) as [->|Hne]; simpl.
  - intros _. by exists 0, n'.
  - intros Hne'. destruct (IH (S i) Hne') as (j & n & Hj). by exists (S j), n.
Qed.

Lemma value_of_insert_ne H p p' c :
  p <> p' -> value_of (<[p := c]> H) p' = value_of H p'.
Proof. intros. unfold value_of. by rewrite list_lookup_insert_ne. Qed.

Lemma value_of_insert_eq H p c :
  p < length H ->
  value_of (<[p := c]> H) p
  = match st c with Settled (Fulfilled v) => Some v | _ => None end.
Proof. intros. unfold value_of. by rewrite list_lookup_insert_eq. Qed.

Lemma value_of_pending H p c rs :
  H !! p = Some c -> st c = Pending rs -> value_of H p = None.
Proof. intros Hp Hc. unfold value_of. by rewrite Hp, Hc. Qed.

Lemma values_insert_notin H p c :
  (forall j n, ents !! j <> Some (n, p)) ->
  values (<[p := c]> H) = values H.
Proof.
  intros Hnot. unfold values. apply map_ext_in. intros [n p'] Hin.
  simpl. apply value_of_insert_ne. intros <-.
  apply list_elem_of_In, list_elem_of_lookup in Hin as [j Hj]. by apply (Hnot j n).
Qed.

(** Settling [p] with [v] queues exactly the deliveries that the new heap
    brings. *)
Lemma tags_jobs H p c rs c' v es : forall pre,
  ents = pre ++ es ->
  H !! p = Some c -> st c = Pending rs -> st c' = Settled (Fulfilled v) ->
  map (fun r => JReact r (Fulfilled v)) (tags_from p (length pre) es)
  = map tagjob (newly_from (values H) (<[p := c']> H) (length pre) es).
Proof.
  induction es as [|[n p'] es IH]; intros pre Hents Hp Hc Hc'; [done|].
  assert (values H !! length pre = Some (value_of H p')) as Hv.
  { rewrite lookup_values, Hents. by rewrite list_lookup_middle. }
  specialize (IH (pre ++ [(n, p')])). rewrite length_app in IH. simpl in IH.
  rewrite Nat.add_1_r in IH.
  cbn [tags_from newly_from]. rewrite Hv.
  destruct (Nat.eqb_spec p' p) as [->|Hne].
  - rewrite (value_of_pending H p c rs Hp Hc).
    rewrite value_of_insert_eq by (by eapply lookup_lt_Some). rewrite Hc'.
    simpl. f_equal. apply IH; try done. by rewrite <- app_assoc.
  - rewrite value_of_insert_ne by done.
    destruct (value_of H p'); simpl; apply IH; try done;
      by rewrite <- app_assoc.
Qed.

(** An awaited promise was rejected, or fulfilled with something that is
    not a stream: [connect] cannot go through. *)
Definition Off (w : W) : Prop :=
  exists i n p o,
    ents !! i = Some (n, p) /\ pstate_of w p = Some (Settled o)
    /\ forall s, o <> Fulfilled (JStream s).

Lemma cond_H_insert H p c o :
  cond_H H -> cond_H (<[p := set_st (Settled o) c]> H).
Proof.
  intros [Hlen Hrs]. split; [by rewrite length_insert|].
  intros p' c' rs Hp' Hc'.
  destruct (decide (p = p')) as [<-|Hne].
  - apply list_lookup_insert_Some in Hp' as [(_ & <- & _)|[? _]]; done.
  - rewrite list_lookup_insert_ne in Hp' by done. by eapply Hrs.
Qed.

Lemma nooff_insert H p c o :
  nooff H ->
  ((forall j n, ents !! j <> Some (n, p)) \/ exists s, o = Fulfilled (JStream s)) ->
  nooff (<[p := set_st (Settled o) c]> H).
Proof.
  intros Hno Hor i n p' c' o' Hi Hp' Hc'.
  destruct (decide (p = p')) as [<-|Hne].
  - apply list_lookup_insert_Some in Hp' as [(_ & <- & _)|[? _]]; [|done].
    simpl in Hc'. simplify_eq. destruct Hor as [Hnot|Hs]; [|done].
    by destruct (Hnot i n).
  - rewrite list_lookup_insert_ne in Hp' by done. by eapply Hno.
Qed.

Lemma event_G a w p o :
  Gform a w -> p < base ->
  let w' := run_event w (ESettle p o) in
  Off w' \/ Gform a w' \/ Dform a w'.
Proof.
  intros (H & HH & Hno & Hcol & ->) Hp w'. subst w'.
  pose proof HH as [Hlen Hrs].
  unfold run_event. cbn [apply]. unfold settle_external. cbn [heap].
  rewrite lookup_layout_H by lia.
  assert (Gform a (mkWorld (layout H (Qof (values H))
                              (Acell (Pending [bodyR]) (slots_of (values H)))
                              derived []) [] a)) as Hsame.
  { exists H. done. }
  destruct (H !! p) as [c|] eqn:Hc; [|rewrite drain_idle by done; auto].
  destruct (external c); [|rewrite drain_idle by done; auto].
  destruct (st c) as [rs|o'] eqn:Hst; cycle 1.
  { unfold settle. cbn [heap]. rewrite lookup_layout_H by lia.
    rewrite Hc, Hst. rewrite drain_idle by done. auto. }
  erewrite step_settle; cycle 1.
  { cbn [heap]. rewrite lookup_layout_H by lia. exact Hc. }
  { exact Hst. }
  cbn [heap queue app]. rewrite insert_layout_H by lia. rewrite app_nil_l.
  rewrite (Hrs p c rs Hc Hst).
  set (H' := <[p := set_st (Settled o) c]> H).
  destruct (tags_from p 0 ents) as [|r rs'] eqn:Htags.
  - pose proof (proj1 (tags_from_nil p ents 0) Htags) as Hnot.
    simpl. rewrite drain_idle by done. right. left. exists H'.
    assert (values H' = values H) as -> by (by apply values_insert_notin).
    repeat split; try done; try apply cond_H_insert; try done.
    apply nooff_insert; auto.
  - assert (exists i n, ents !! i = Some (n, p)) as (i & n & Hi).
    { apply (tags_from_some p ents 0). by rewrite Htags. }
    assert (pstate_of
              (mkWorld (layout H' (Qof (values H))
                          (Acell (Pending [bodyR]) (slots_of (values H)))
                          derived [])
                 (map (fun r0 => JReact r0 o) (r :: rs')) a) p
            = Some (Settled o)) as Hset.
    { unfold pstate_of. cbn [heap]. rewrite lookup_layout_H
        by (unfold H'; rewrite length_insert; lia).
      unfold H'. rewrite list_lookup_insert_eq by lia. done. }
    assert ((exists s, o = Fulfilled (JStream s))
            \/ forall s, o <> Fulfilled (JStream s)) as [[s ->]|Hoff].
    { destruct o as [[]|]; eauto. }
    + rewrite <- Htags.
      pose proof (tags_jobs H p c rs (set_st (Settled (Fulfilled (JStream s))) c)
                    (JStream s) ents [] eq_refl Hc Hst eq_refl) as E.
      cbn [length] in E. rewrite E.
      right. apply advance.
      * by apply cond_H_insert.
      * apply nooff_insert; eauto.
      * apply length_values.
      * intros j v Hj. rewrite lookup_values in *.
        destruct (ents !! j) as [[n' p']|]; [|done]. simpl in *.
        unfold H'. rewrite value_of_insert_ne; [done|]. intros <-.
        rewrite (value_of_pending H p c rs Hc Hst) in Hj. done.
      * done.
    + left. exists i, n, p, o. split; [done|]. split; [|done].
      by apply (keeps_drain run_callback callbacks_tame).
Qed.

Lemma streams_at_lookup H es i n p :
  streams_at H ents es -> ents !! i = Some (n, p) ->
  exists s, es !! i = Some (n, s) /\ value_of H p = Some (JStream s).
Proof.
  intros Hes Hi.
  destruct (Forall2_lookup_l _ _ _ _ _ Hes Hi) as ([n' s] & Hs & Hn & Hv).
  simpl in *. subst. eauto.
Qed.

Lemma streams_at_insert H es0 es p c :
  Forall (fun e => snd e <> p) es0 ->
  streams_at H es0 es -> streams_at (<[p := c]> H) es0 es.
Proof.
  intros Hne Hes. induction Hes as [|e e' es0 es [Hn Hv] _ IH]; [constructor|].
  inversion Hne; subst. constructor; [|by apply IH].
  split; [done|]. by rewrite value_of_insert_ne.
Qed.

Lemma event_D a w p o :
  Dform a w -> p < base ->
  Dform a (run_event w (ESettle p o)).
Proof.
  intros (H & es & HH & Hes & ->) Hp.
  pose proof HH as [Hlen Hrs].
  unfold run_event. cbn [apply]. unfold settle_external. cbn [heap].
  rewrite lookup_layout_H by lia.
  assert (Dform a (mkWorld (layout H (Qof (values H))
                              (Acell (Settled (Fulfilled (JArr (map tagged es))))
                                 (slots_of (values H)))
                              derived [Tcell]) [] (after_body es a))) as Hsame.
  { exists H, es. done. }
  destruct (H !! p) as [c|] eqn:Hc; [|by rewrite drain_idle].
  destruct (external c); [|by rewrite drain_idle].
  destruct (st c) as [rs|o'] eqn:Hst; cycle 1.
  { unfold settle. cbn [heap]. rewrite lookup_layout_H by lia.
    rewrite Hc, Hst. by rewrite drain_idle. }
  erewrite step_settle; cycle 1.
  { cbn [heap]. rewrite lookup_layout_H by lia. exact Hc. }
  { exact Hst. }
  cbn [heap queue app]. rewrite insert_layout_H by lia. rewrite app_nil_l.
  rewrite (Hrs p c rs Hc Hst).
  assert (forall j n, ents !! j <> Some (n, p)) as Hnot.
  { intros j n Hj. destruct (streams_at_lookup H es j n p Hes Hj) as (s & _ & Hv).
    by rewrite (value_of_pending H p c rs Hc Hst) in Hv. }
  rewrite (proj2 (tags_from_nil p ents 0) Hnot). simpl.
  rewrite drain_idle by done.
  exists (<[p := set_st (Settled o) c]> H), es.
  rewrite values_insert_notin by done.
  repeat split; try done; try (by apply cond_H_insert).
  apply streams_at_insert; [|done].
  apply Forall_forall. intros [n q] Hin <-. simpl in *.
  apply list_elem_of_lookup in Hin as [j Hj]. by apply (Hnot j n).
Qed.

(** **** The promise of the transport settles *)
Lemma transport_settles a w o :
  Dform a w ->
  pstate_of w (base + k + 2) = Some (Pending [RForward (base + k + 1)])
  /\ pstate_of w (base + k + 1) = Some (Pending [])
  /\ pstate_of (run_event w (ESettle (base + k + 2) o)) (base + k + 1)
     = Some (Settled o).
Proof.
  intros (H & es & [Hlen _] & Hes & ->).
  pose proof (length_Qof (values H)) as HQ.
  pose proof (lookup_layout_X H (Qof (values H))
                (Acell (Settled (Fulfilled (JArr (map tagged es))))
                   (slots_of (values H))) derived [Tcell] 0 Hlen HQ) as HT.
  rewrite Nat.add_0_r in HT. change ([Tcell] !! 0) with (Some Tcell) in HT.
  pose proof (fun X => lookup_layout_C H (Qof (values H))
                (Acell (Settled (Fulfilled (JArr (map tagged es))))
                   (slots_of (values H))) derived X Hlen HQ) as HC.
  unfold pstate_of. cbn [heap]. rewrite HT, HC. repeat split; try done.
  unfold run_event. cbn [apply]. unfold settle_external. cbn [heap].
  rewrite HT. cbn [external Tcell].
  erewrite step_settle; [|exact HT|reflexivity].
  cbn [heap queue app map]. rewrite app_nil_l.
  erewrite (drain_cons _ callbacks_tame); [|reflexivity].
  cbn [run_job set_queue heap queue app].
  pose proof (insert_layout_X H (Qof (values H))
                (Acell (Settled (Fulfilled (JArr (map tagged es))))
                   (slots_of (values H))) derived [Tcell] 0
                (set_st (Settled o) Tcell) Hlen HQ) as HiT.
  rewrite Nat.add_0_r in HiT. rewrite HiT.
  erewrite step_settle; [|cbn [heap]; apply HC|reflexivity].
  cbn [heap queue app map]. rewrite drain_idle by done.
  cbn [heap set_queue]. rewrite insert_layout_C by done.
  by rewrite lookup_layout_C.
Qed.

Lemma collect_None_inv {X : Type} (sl : list (option X)) :
  collect sl = None -> exists j, sl !! j = Some None.
Proof.
  induction sl as [|[x|] sl IH]; simpl; [done| |by exists 0].
  destruct (collect sl); [done|]. intros _.
  destruct (IH eq_refl) as [j Hj]. by exists (S j).
Qed.

(** When every awaited promise is fulfilled with a stream, the session
    is in the state "done", with exactly these streams. *)
Lemma finished a w (ss : list Stream) :
  Off w \/ Gform a w \/ Dform a w ->
  Forall (fun e => snd e < base) ents ->
  Forall2 (fun e s => pstate_of w (snd e) = Some (Settled (Fulfilled (JStream s))))
    ents ss ->
  Dform a w /\ app w = after_body (zip (map fst ents) ss) a.
Proof.
  intros Hinv Hvalid Hss.
  assert (forall H A X (q : list (job callback)) (a' : state) n p i,
             length H = base -> ents !! i = Some (n, p) ->
             pstate_of (mkWorld (layout H (Qof (values H)) A derived X) q a') p
             = st <$> H !! p) as Hlook.
  { intros H A X q a' n p i Hlen Hi. unfold pstate_of. cbn [heap].
    rewrite lookup_layout_H; [done|].
    eapply Forall_lookup in Hvalid; [|exact Hi]. simpl in *. lia. }
  destruct Hinv as [(i & n & p & o & Hi & Hp & Hoff)|[HG|HD]].
  - destruct (Forall2_lookup_l _ _ _ _ _ Hss Hi) as (s & _ & Hs). simpl in Hs.
    rewrite Hp in Hs. simplify_eq. by destruct (Hoff s).
  - destruct HG as (H & [Hlen _] & _ & Hcol & ->).
    apply collect_None_inv in Hcol as [j Hj].
    unfold slots_of in Hj. rewrite list_lookup_imap in Hj.
    destruct (ents !! j) as [[n p]|] eqn:Hi; [|done]. simpl in Hj.
    destruct (Forall2_lookup_l _ _ _ _ _ Hss Hi) as (s & _ & Hs). simpl in Hs.
    rewrite (Hlook _ _ _ _ _ n p j Hlen Hi) in Hs.
    rewrite lookup_values, Hi in Hj. simpl in Hj. unfold value_of in Hj.
    destruct (H !! p) as [c|]; [|done]. simpl in Hs. simplify_eq.
    by rewrite Hs in Hj.
  - split; [done|].
    destruct HD as (H & es & [Hlen _] & Hes & ->). cbn [app]. f_equal.
    apply list_eq. intros i.
    destruct (ents !! i) as [[n p]|] eqn:Hi.
    + destruct (streams_at_lookup H es i n p Hes Hi) as (s & Hs & Hv).
      destruct (Forall2_lookup_l _ _ _ _ _ Hss Hi) as (s' & Hs' & Hp). simpl in Hp.
      rewrite (Hlook _ _ _ _ _ n p i Hlen Hi) in Hp.
      apply value_of_Some in Hv as (c & Hc & Hst). rewrite Hc in Hp.
      simpl in Hp. rewrite Hst in Hp.
      assert (s = s') as -> by congruence.
      rewrite Hs. symmetry. apply lookup_zip_with_Some.
      exists n, s'. rewrite list_lookup_fmap, Hi. done.
    + rewrite (Forall2_length _ _ _ Hes) in Hi || idtac.
      assert (es !! i = None) as ->.
      { apply lookup_ge_None. rewrite <- (Forall2_length _ _ _ Hes).
        by apply lookup_ge_None. }
      symmetry. apply lookup_ge_None. rewrite length_zip_with, length_map.
      apply lookup_ge_None in Hi. lia.
Qed.

(** **** The call of [connect] *)

(** What [subscribe] does to a heap and a queue. *)
Definition sub1 (p : pid) (r : reaction callback)
    (Hq : list (cell callback) * list (job callback))
    : list (cell callback) * list (job callback) :=
  match fst Hq !! p with
  | Some c =>
      match st c with
      | Pending rs => (<[p := set_st (Pending (rs ++ [r])) c]> (fst Hq), snd Hq)
      | Settled o => (fst Hq, snd Hq ++ [JReact r o])
      end
  | None => Hq
  end.

Fixpoint subs (i : nat) (es : list (string * pid))
    (Hq : list (cell callback) * list (job callback))
    : list (cell callback) * list (job callback) :=
  match es with
  | [] => Hq
  | (n, p) :: es' => subs (S i) es' (sub1 p (tagR i n) Hq)
  end.

Lemma subscribe_base p r H R q (a : state) :
  p < length H ->
  subscribe p r (mkWorld (H ++ R) q a)
  = mkWorld (fst (sub1 p r (H, q)) ++ R) (snd (sub1 p r (H, q))) a.
Proof.
  intros Hp. unfold subscribe, sub1. cbn [heap fst snd].
  rewrite lookup_app_l by done.
  destruct (H !! p) as [c|]; [|done].
  destruct (st c); [|done].
  unfold set_heap. cbn [heap queue app fst snd]. by rewrite insert_app_l.
Qed.

Lemma length_sub1 p r Hq : length (fst (sub1 p r Hq)) = length (fst Hq).
Proof.
  unfold sub1. destruct (fst Hq !! p) as [c|]; [|done].
  destruct (st c); [|done]. simpl. by rewrite length_insert.
Qed.

Lemma length_subs es : forall i Hq, length (fst (subs i es Hq)) = length (fst Hq).
Proof.
  induction es as [|[n p] es IH]; intros i Hq; simpl; [done|].
  by rewrite IH, length_sub1.
Qed.

Lemma tag_streams_layout es : forall i H Qacc q (a : state),
  length H = base -> length Qacc = i ->
  Forall (fun e => snd e < base) es ->
  tag_streams es (mkWorld (H ++ Qacc) q a)
  = (map (fun j => base + j) (seq i (length es)),
     mkWorld (fst (subs i es (H, q)) ++ Qacc ++ replicate (length es) derived)
       (snd (subs i es (H, q))) a).
Proof.
  induction es as [|[n p] es IH]; intros i H Qacc q a HH HQ Hvalid.
  - simpl. by rewrite app_nil_r.
  - inversion Hvalid as [|? ? Hp Hvalid']; subst. simpl in Hp.
    cbn [tag_streams]. unfold then_, alloc, set_heap. cbn [heap queue app].
    rewrite length_app, <- app_assoc.
    rewrite subscribe_base by lia. rewrite HH.
    change (RThen (Some (CbTag n)) None (base + length Qacc))
      with (tagR (length Qacc) n).
    destruct (sub1 p (tagR (length Qacc) n) (H, q)) as [H1 q1] eqn:E1.
    pose proof (length_sub1 p (tagR (length Qacc) n) (H, q)) as L1.
    rewrite E1 in L1. cbn [fst snd] in *.
    rewrite (IH (S (length Qacc)) H1 (Qacc ++ [derived]) q1 a);
      [|lia|rewrite length_app; simpl; lia|done].
    cbn [subs length seq map]. rewrite E1.
    f_equal. f_equal. rewrite <- !app_assoc. done.
Qed.

Lemma subscribe_all_layout m : forall j H (A0 : cell callback) q (a : state),
  length H = base -> j + m = k ->
  subscribe_all (base + k) j (map (fun x => base + x) (seq j m))
    (mkWorld (H ++ (map Qpend (seq 0 j) ++ replicate m derived) ++ [A0]) q a)
  = mkWorld (H ++ map Qpend (seq 0 (j + m)) ++ [A0]) q a.
Proof.
  induction m as [|m IH]; intros j H A0 q a HH Hjm.
  - simpl. by rewrite Nat.add_0_r, app_nil_r.
  - cbn [seq map subscribe_all].
    unfold subscribe. cbn [heap].
    assert (length (map Qpend (seq 0 j)) = j) as Lj
      by (by rewrite length_map, length_seq).
    assert ((H ++ (map Qpend (seq 0 j) ++ replicate (S m) derived) ++ [A0])
            !! (base + j) = Some derived) as ->.
    { rewrite <- HH, lookup_past.
      rewrite lookup_app_l
        by (rewrite length_app, Lj, length_replicate; lia).
      rewrite lookup_app_r by lia. rewrite Lj, Nat.sub_diag. done. }
    cbn [st derived]. unfold set_heap. cbn [heap queue app].
    assert (<[base + j := set_st (Pending ([] ++ [RAllElem j (base + k)])) derived]>
              (H ++ (map Qpend (seq 0 j) ++ replicate (S m) derived) ++ [A0])
            = H ++ (map Qpend (seq 0 (S j)) ++ replicate m derived) ++ [A0]) as ->.
    { rewrite <- HH at 1. rewrite insert_app_r. f_equal.
      rewrite insert_app_l
        by (rewrite length_app, Lj, length_replicate; lia).
      f_equal.
      replace j with (length (map Qpend (seq 0 j)) + 0) at 1 by lia.
      rewrite insert_app_r.
      rewrite seq_S, map_app. simpl. rewrite <- app_assoc. done. }
    rewrite IH by lia. by rewrite Nat.add_succ_r.
Qed.

Lemma Qof_none : Qof (replicate k None) = map Qpend (seq 0 k).
Proof.
  apply list_eq. intros i. unfold Qof.
  rewrite list_lookup_imap, list_lookup_fmap.
  destruct (ents !! i) as [e|] eqn:Hi; simpl.
  - apply lookup_lt_Some in Hi as Hlt.
    rewrite lookup_replicate_2, lookup_seq_lt by done. done.
  - apply lookup_ge_None in Hi as Hge. by rewrite lookup_seq_ge.
Qed.

Lemma slots_of_none : slots_of (replicate k None) = replicate k None.
Proof.
  apply list_eq. intros i. unfold slots_of. rewrite list_lookup_imap.
  destruct (ents !! i) as [e|] eqn:Hi; simpl.
  - apply lookup_lt_Some in Hi as Hlt. by rewrite !lookup_replicate_2.
  - apply lookup_ge_None in Hi as Hge. symmetry. by apply lookup_replicate_None.
Qed.

(** The outcome of a promise of the heap [H]. *)
Definition settled_of (H : list (cell callback)) (p : pid) : option outcome :=
  match H !! p with
  | Some c => match st c with Settled o => Some o | Pending _ => None end
  | None => None
  end.

(** The jobs that [connect] queues at once: the awaited promises that are
    settled already. *)
Fixpoint jobs_from (H : list (cell callback)) (i : nat)
    (es : list (string * pid)) : list (job callback) :=
  match es with
  | [] => []
  | (n, p) :: es' =>
      match settled_of H p with
      | Some o => [JReact (tagR i n) o]
      | None => []
      end ++ jobs_from H (S i) es'
  end.

Definition with_tags (p : pid) (ts : list (reaction callback))
    (c : cell callback) : cell callback :=
  match st c with
  | Pending rs => set_st (Pending (rs ++ ts)) c
  | Settled _ => c
  end.

Lemma with_tags_nil p c : with_tags p [] c = c.
Proof.
  unfold with_tags. destruct c as [[rs|o] sl ex]; simpl; [|done].
  by rewrite app_nil_r.
Qed.

Lemma with_tags_app p ts1 ts2 c :
  with_tags p ts2 (with_tags p ts1 c) = with_tags p (ts1 ++ ts2) c.
Proof.
  unfold with_tags. destruct c as [[rs|o] sl ex]; simpl; [|done].
  unfold set_st. simpl. by rewrite <- app_assoc.
Qed.

Lemma sub1_lookup p r H q p' :
  fst (sub1 p r (H, q)) !! p'
  = with_tags p' (if (p =? p')%nat then [r] else []) <$> H !! p'.
Proof.
  assert (forall c, with_tags p' [] c = c) as E by apply with_tags_nil.
  unfold sub1. cbn [fst snd].
  destruct (Nat.eqb_spec p p') as [<-|Hne].
  - destruct (H !! p) as [c|] eqn:Hp; cbn [fst]; [|by rewrite Hp].
    unfold with_tags. destruct (st c) as [rs|o] eqn:Hc; cbn [fst].
    + rewrite list_lookup_insert_eq by (by eapply lookup_lt_Some).
      simpl. by rewrite Hc.
    + rewrite Hp. simpl. by rewrite Hc.
  - destruct (H !! p) as [c|] eqn:Hp; cbn [fst]; cycle 1.
    { destruct (H !! p'); simpl; by rewrite ?E. }
    destruct (st c) as [rs|o]; cbn [fst].
    + rewrite list_lookup_insert_ne by done.
      destruct (H !! p'); simpl; by rewrite ?E.
    + destruct (H !! p'); simpl; by rewrite ?E.
Qed.

Lemma settled_of_ext H H' :
  (forall p, exists ts, H' !! p = with_tags p ts <$> H !! p) ->
  forall p, settled_of H' p = settled_of H p.
Proof.
  intros Hext p. destruct (Hext p) as [ts E]. unfold settled_of. rewrite E.
  destruct (H !! p) as [c|]; [|done]. simpl. unfold with_tags.
  by destruct c as [[rs|o] sl ex].
Qed.

Lemma jobs_from_ext H H' es :
  (forall p, settled_of H' p = settled_of H p) ->
  forall i, jobs_from H' i es = jobs_from H i es.
Proof.
  intros Hext. induction es as [|[n p] es IH]; intros i; simpl; [done|].
  by rewrite Hext, IH.
Qed.

Lemma sub1_queue p r H q :
  snd (sub1 p r (H, q))
  = q ++ match settled_of H p with Some o => [JReact r o] | None => [] end.
Proof.
  unfold sub1, settled_of. cbn [fst snd].
  destruct (H !! p) as [c|]; [|by rewrite app_nil_r].
  destruct (st c); [by rewrite app_nil_r | done].
Qed.

Lemma subs_spec es : forall i H q,
  (forall p, fst (subs i es (H, q)) !! p
             = with_tags p (tags_from p i es) <$> H !! p)
  /\ snd (subs i es (H, q)) = q ++ jobs_from H i es.
Proof.
  induction es as [|[n p] es IH]; intros i H q.
  - simpl. split; [|by rewrite app_nil_r].
    intros p. destruct (H !! p); simpl; by rewrite ?with_tags_nil.
  - cbn [subs tags_from jobs_from].
    destruct (sub1 p (tagR i n) (H, q)) as [H1 q1] eqn:E1.
    pose proof (sub1_lookup p (tagR i n) H q) as L1.
    pose proof (sub1_queue p (tagR i n) H q) as Q1.
    rewrite E1 in L1, Q1. cbn [fst snd] in *.
    destruct (IH (S i) H1 q1) as [IH1 IH2]. split.
    + intros p'. rewrite IH1, L1.
      destruct (H !! p') as [c|]; [|done]. simpl. by rewrite with_tags_app.
    + rewrite IH2, Q1, <- app_assoc. f_equal. f_equal.
      apply jobs_from_ext, settled_of_ext. intros p'. eexists. apply L1.
Qed.

Lemma value_of_with_tags H H' :
  (forall p, exists ts, H' !! p = with_tags p ts <$> H !! p) ->
  forall p, value_of H' p = value_of H p.
Proof.
  intros Hext p. destruct (Hext p) as [ts E]. unfold value_of. rewrite E.
  destruct (H !! p) as [c|]; [|done]. simpl. unfold with_tags.
  by destruct c as [[rs|o] sl ex].
Qed.

Lemma newly_from_ext d H H' es :
  (forall p, value_of H' p = value_of H p) ->
  forall i, newly_from d H' i es = newly_from d H i es.
Proof.
  intros Hext. induction es as [|[n p] es IH]; intros i; simpl; [done|].
  by rewrite Hext, !IH.
Qed.

(** With no awaited promise off, the jobs queued at the call are the
    deliveries of the heap. *)
Lemma jobs_from_newly H es : forall pre,
  ents = pre ++ es -> nooff H ->
  jobs_from H (length pre) es
  = map tagjob (newly_from (replicate k None) H (length pre) es).
Proof.
  induction es as [|[n p] es IH]; intros pre Hents Hno; [done|].
  specialize (IH (pre ++ [(n, p)])). rewrite length_app in IH. simpl in IH.
  rewrite Nat.add_1_r in IH.
  assert (length pre < k) as Hlt.
  { rewrite Hents, length_app. simpl. lia. }
  assert (ents !! length pre = Some (n, p)) as Hi.
  { rewrite Hents. by rewrite list_lookup_middle. }
  cbn [jobs_from newly_from]. rewrite lookup_replicate_2 by done.
  unfold settled_of, value_of.
  destruct (H !! p) as [c|] eqn:Hp; cycle 1.
  { simpl. apply IH; [by rewrite <- app_assoc|done]. }
  destruct (st c) as [rs|o] eqn:Hc.
  - simpl. apply IH; [by rewrite <- app_assoc|done].
  - destruct (Hno _ _ _ _ _ Hi Hp Hc) as [s ->].
    simpl. f_equal. apply IH; [by rewrite <- app_assoc|done].
Qed.

Lemma match_nonempty {X Y : Type} (l : list X) (x y : Y) :
  l <> [] -> match l with [] => x | _ :: _ => y end = y.
Proof. by destruct l. Qed.

(** The promise of [Promise.all] as [connect] finds it. *)
Definition A_first : cell callback :=
  match ents with
  | [] => Acell (Settled (Fulfilled (JArr []))) []
  | _ :: _ => Acell (Pending []) (replicate k None)
  end.

Lemma promise_all_layout H1 q0 (a : state) :
  length H1 = base ->
  promise_all (map (fun j => base + j) (seq 0 k))
    (mkWorld (H1 ++ replicate k derived) q0 a)
  = (base + k, mkWorld (H1 ++ Qof (replicate k None) ++ [A_first]) q0 a).
Proof.
  intros HH1.
  unfold promise_all, alloc, set_heap. cbn [heap queue app].
  rewrite length_map, length_seq, length_app, length_replicate, HH1.
  pose proof (subscribe_all_layout k 0 H1
                (Cell (K:=callback) (Pending []) (replicate k None) false) q0 a
                HH1 eq_refl) as Hsub.
  cbn [seq map] in Hsub. rewrite app_nil_l, Nat.add_0_l in Hsub.
  rewrite <- app_assoc. rewrite Hsub. clear Hsub.
  rewrite <- Qof_none. f_equal. unfold A_first.
  destruct (decide (ents = [])) as [E|E].
  - assert (Qof (replicate k None) = []) as EQ.
    { apply nil_length_inv. by rewrite length_Qof, E. }
    rewrite EQ. rewrite E. cbn [length seq map replicate]. rewrite app_nil_l.
    unfold settle. cbn [heap]. rewrite <- HH1, Nat.add_0_r, lookup_end.
    simpl. unfold set_heap, set_queue, set_st. simpl.
    rewrite insert_end. simpl. by rewrite app_nil_r.
  - by rewrite !match_nonempty
      by (done || (intros E'; apply E; apply nil_length_inv;
                   apply (f_equal length) in E';
                   by rewrite length_map, length_seq in E')).
Qed.

(** The world that the first call of [connect] leaves, before any job
    runs. *)
Lemma connect_layout (w0 : W) :
  connect_p (app w0) = None ->
  length (heap w0) = base ->
  Obj.entries (gathered_streams (app w0)) = ents ->
  Forall (fun e => snd e < base) ents ->
  let H1 := fst (subs 0 ents (heap w0, queue w0)) in
  let q0 := snd (subs 0 ents (heap w0, queue w0)) in
  connect w0
  = (base + k + 1,
     mkWorld
       (layout H1 (Qof (replicate k None))
          (match ents with
           | [] => Acell (Settled (Fulfilled (JArr []))) []
           | _ :: _ => Acell (Pending [bodyR]) (replicate k None)
           end) derived [])
       (match ents with
        | [] => q0 ++ [JReact bodyR (Fulfilled (JArr []))]
        | _ :: _ => q0
        end)
       (set_connect_p (Some (base + k + 1)) (app w0))).
Proof.
  intros Hp Hlen Hents Hvalid H1 q0.
  unfold connect. rewrite Hp, Hents.
  destruct w0 as [h q a]. cbn [heap queue app] in *.
  rewrite <- (app_nil_r h) at 1.
  rewrite (tag_streams_layout ents 0 h [] q a Hlen eq_refl Hvalid).
  fold H1 q0. rewrite app_nil_l.
  assert (length H1 = base) as HH1.
  { unfold H1. by rewrite length_subs. }
  rewrite promise_all_layout by done.
  unfold then_, alloc, set_heap. cbn [heap queue app].
  rewrite !length_app, length_Qof, HH1. cbn [length].
  rewrite <- !app_assoc.
  change (H1 ++ Qof (replicate k None) ++ [A_first] ++ [derived])
    with (layout H1 (Qof (replicate k None)) A_first derived []).
  unfold subscribe. cbn [heap queue app].
  rewrite lookup_layout_A by (done || apply length_Qof).
  rewrite Nat.add_assoc.
  unfold A_first, bodyR.
  destruct (decide (ents = [])) as [E|E].
  - rewrite E. cbn [st Acell]. unfold enqueue, set_queue.
    cbn [heap queue app]. unfold set_app. cbn [heap queue app]. done.
  - rewrite !match_nonempty by done.
    cbn [st Acell]. unfold set_heap. cbn [heap queue app].
    rewrite insert_layout_A by (done || apply length_Qof).
    unfold set_app. cbn [heap queue app]. done.
Qed.

Definition entry_ok (H : list (cell callback)) (e : string * pid) : bool :=
  match H !! snd e with
  | Some c =>
      match st c with
      | Settled (Fulfilled (JStream _)) => true
      | Settled _ => false
      | Pending _ => true
      end
  | None => true
  end.

Lemma nooff_dec H :
  nooff H
  \/ exists i n p c o,
       ents !! i = Some (n, p) /\ H !! p = Some c /\ st c = Settled o
       /\ forall s, o <> Fulfilled (JStream s).
Proof.
  destruct (Forall_Exists_dec (fun e => entry_ok H e = true)
              (fun e => entry_ok H e = false)
              (fun e => match entry_ok H e as b
                              return {b = true} + {b = false} with
                        | true => left eq_refl
                        | false => right eq_refl
                        end) ents) as [Hall|Hex].
  - left. intros i n p c o Hi Hp Hc.
    eapply Forall_lookup in Hall; [|exact Hi].
    unfold entry_ok in Hall. simpl in Hall. rewrite Hp, Hc in Hall.
    destruct o as [[]|]; try done. eauto.
  - right. apply Exists_exists in Hex as ([n p] & Hin & Hbad).
    apply list_elem_of_lookup in Hin as [i Hi].
    unfold entry_ok in Hbad. simpl in Hbad.
    destruct (H !! p) as [c|] eqn:Hp; [|done].
    destruct (st c) as [rs|o] eqn:Hc; [done|].
    exists i, n, p, c, o. repeat split; try done.
    intros s ->. done.
Qed.

(** After the call of [connect] and the jobs it queues, the session is
    gathering, done, or cannot go through. *)
Lemma initial (w0 : W) :
  connect_p (app w0) = None ->
  queue w0 = [] ->
  Forall quiet (heap w0) ->
  length (heap w0) = base ->
  Obj.entries (gathered_streams (app w0)) = ents ->
  Forall (fun e => snd e < base) ents ->
  let a1 := set_connect_p (Some (base + k + 1)) (app w0) in
  let w1 := run_event w0 EConnect in
  fst (connect w0) = base + k + 1
  /\ (Off w1 \/ Gform a1 w1 \/ Dform a1 w1).
Proof.
  intros Hp Hq Hquiet Hlen Hents Hvalid a1 w1. subst w1.
  unfold run_event. cbn [apply].
  rewrite (connect_layout w0 Hp Hlen Hents Hvalid). cbn [fst snd].
  split; [done|].
  destruct (subs_spec ents 0 (heap w0) (queue w0)) as [HL HQ].
  set (H1 := fst (subs 0 ents (heap w0, queue w0))) in *.
  rewrite HQ, Hq, app_nil_l. clear HQ.
  assert (length H1 = base) as HH1.
  { unfold H1. by rewrite length_subs. }
  assert (forall p, exists ts, H1 !! p = with_tags p ts <$> heap w0 !! p) as Hext.
  { intros p. eexists. apply HL. }
  assert (cond_H H1) as Hcond.
  { split; [done|]. intros p c rs Hc Hst. rewrite HL in Hc.
    destruct (heap w0 !! p) as [c0|] eqn:Hc0; [|done]. simpl in Hc.
    injection Hc as <-.
    eapply Forall_lookup in Hquiet; [|exact Hc0].
    unfold quiet in Hquiet. unfold with_tags in Hst.
    destruct (st c0) as [rs0|o0] eqn:E0.
    - subst rs0. simpl in Hst. congruence.
    - congruence. }
  destruct (nooff_dec (heap w0)) as [Hno|(i & n & p & c & o & Hi & Hc & Hst & Hoff)].
  - assert (nooff H1) as Hno1.
    { intros i n p c o Hi Hc Hst. rewrite HL in Hc.
      destruct (heap w0 !! p) as [c0|] eqn:Hc0; [|done]. simpl in Hc.
      injection Hc as <-. unfold with_tags in Hst.
      destruct (st c0) as [rs0|o0] eqn:E0; [done|].
      eapply Hno; [exact Hi|exact Hc0|congruence]. }
    pose proof (jobs_from_newly (heap w0) ents [] eq_refl Hno) as Ejobs.
    cbn [length] in Ejobs. rewrite Ejobs. clear Ejobs.
    rewrite <- (newly_from_ext (replicate k None) (heap w0) H1 ents
                  (value_of_with_tags (heap w0) H1 Hext) 0).
    fold (newly (replicate k None) H1).
    right. destruct (decide (ents = [])) as [E|E].
    + assert (newly (replicate k None) H1 = []) as ->.
      { unfold newly. by rewrite E. }
      assert (Qof (replicate k None) = Qof (values H1)) as ->.
      { transitivity (@nil (cell callback)); [|symmetry];
          apply nil_length_inv; by rewrite length_Qof, E. }
      assert (slots_of (values H1) = []) as Esl.
      { apply nil_length_inv. by rewrite length_slots_of, E. }
      right. exists H1, []. split; [done|]. split.
      { unfold streams_at. rewrite E. constructor. }
      rewrite E. cbn [map]. rewrite app_nil_l.
      rewrite (phase3 [] H1 (Qof (values H1)) []) by (done || apply length_Qof).
      rewrite Esl. subst a1. unfold Tcell. by rewrite E.
    + rewrite !match_nonempty by done.
      replace (Acell (Pending [bodyR]) (replicate k None))
        with (Acell (Pending [bodyR]) (slots_of (replicate k None)))
        by (by rewrite slots_of_none).
      apply advance; try done.
      * apply length_replicate.
      * intros j v Hj. apply lookup_replicate in Hj as [? _]. done.
      * rewrite slots_of_none. apply (collect_None _ 0).
        apply lookup_replicate_2. destruct ents; [done|]. simpl. lia.
  - left. exists i, n, p, o. split; [done|]. split; [|done].
    apply (keeps_drain run_callback callbacks_tame).
    unfold pstate_of. cbn [heap].
    rewrite lookup_layout_H by (rewrite HH1, <- Hlen; by eapply lookup_lt_Some).
    rewrite HL, Hc. simpl. unfold with_tags.
    destruct c as [[rs|o'] sl ex]; simpl in *; congruence.
Qed.

(** Events that settle promises of the heap at the call keep the
    session in one of the three states. *)
Lemma events_keep a evs : forall w,
  Forall (fun e => exists p o, e = ESettle p o /\ p < base) evs ->
  Off w \/ Gform a w \/ Dform a w ->
  Off (run evs w) \/ Gform a (run evs w) \/ Dform a (run evs w).
Proof.
  induction evs as [|e evs IH]; intros w Hevs Hw; [done|].
  inversion Hevs as [|? ? (p & o & -> & Hp) Hevs']; subst.
  cbn [run fold_left]. apply IH; [done|].
  destruct Hw as [(i & n & p' & o' & Hi & Hs & Hoff)|[HG|HD]].
  - left. exists i, n, p', o'. split; [done|]. split; [|done].
    unfold run_event. apply (keeps_drain run_callback callbacks_tame).
    by apply keeps_apply.
  - by apply event_G.
  - right. right. by apply event_D.
Qed.

End Gather.

(** C3.  Take a session on which [connect] was not called yet and
    nothing is in flight, call [connect], and let promises of the heap be
    settled in any order.  Once every awaited stream promise is fulfilled
    (with the streams [ss], in the order of the entries), the calls made
    are exactly: [addStream] for each stream, then [addDataChannel] for
    each channel, then [setLocal] with the channel descriptor, then the
    [connect] of the peer connection; [streams_desc] holds each stream's
    id under its name and [channels_desc] each channel's options; and the
    promise that [connect] returned is pending and settles exactly as the
    promise [t] of the peer connection's [connect] settles. *)
Theorem connect_protocol (w0 : W) (evs : list event) (ss : list Stream) :
  connect_p (app w0) = None ->
  queue w0 = [] ->
  Forall quiet (heap w0) ->
  let ents := Obj.entries (gathered_streams (app w0)) in
  let base := length (heap w0) in
  Forall (fun e => snd e < base) ents ->
  Forall (fun e => exists p o, e = ESettle p o /\ p < base) evs ->
  let p := fst (connect w0) in
  let w := run evs (run_event w0 EConnect) in
  Forall2
    (fun e s => pstate_of w (snd e) = Some (Settled (Fulfilled (JStream s))))
    ents ss ->
  let chans := Obj.entries (gathered_channels (app w0)) in
  let cd := describe_channels chans (channels_desc (app w0)) in
  calls (app w)
  = calls (app w0)
    ++ map (fun s => AddStream (JStream s)) ss
    ++ map channel_call chans
    ++ [SetLocal cd; Connect]
  /\ streams_desc (app w)
     = describe_streams (zip (map fst ents) ss) (streams_desc (app w0))
  /\ channels_desc (app w) = cd
  /\ connect_p (app w) = Some p
  /\ exists t,
       pstate_of w t = Some (Pending [RForward p])
       /\ pstate_of w p = Some (Pending [])
       /\ forall o,
            pstate_of (run_event w (ESettle t o)) p = Some (Settled o).
Proof.
  intros Hp Hq Hquiet ents base Hvalid Hevs p w Hss chans cd.
  destruct (initial base ents w0 Hp Hq Hquiet eq_refl eq_refl Hvalid)
    as [Hfst Hinit].
  pose proof (events_keep base ents _ evs _ Hevs Hinit) as Hinv.
  fold w in Hinv.
  destruct (finished base ents _ w ss Hinv Hvalid Hss) as [HD Happ].
  assert (map (fun e : string * Stream => AddStream (JStream (snd e)))
            (zip (map fst ents) ss)
          = map (fun s => AddStream (JStream s)) ss) as Hcalls.
  { rewrite <- (map_map snd (fun s => AddStream (JStream s))).
    f_equal. apply snd_zip. rewrite length_map.
    by rewrite (Forall2_length _ _ _ Hss). }
  subst p. rewrite Hfst. rewrite Happ. unfold after_body. cbn.
  rewrite Hcalls. repeat split; try done.
  exists (base + length ents + 2).
  destruct (transport_settles base ents _ w (Fulfilled JUndefined) HD)
    as (H1 & H2 & _).
  repeat split; try done.
  intros o. by destruct (transport_settles base ents _ w o HD) as (_ & _ & H3).
Qed.

Lemma connect_protocol_witness :
  let cam := mkStream "cam-1" in
  let mic := mkStream "mic-1" in
  let h := [Cell (K:=callback) (Pending []) [] true;
            Cell (Settled (Fulfilled (JStream mic))) [] true] in
  let l := mkLocal [("cam", 0); ("mic", 1)] [("chat", JObj [("ordered", JBool true)])] in
  let w0 := constructor [("auto_connect", JBool false)] l h in
  let w := run [ESettle 0 (Fulfilled (JStream cam))] (run_event w0 EConnect) in
  calls (app w)
  = [AddStream (JStream cam); AddStream (JStream mic);
     AddDataChannel "chat" (JObj [("ordered", JBool true)]);
     SetLocal [("chat", JObj [("ordered", JBool true)])]; Connect]
  /\ streams_desc (app w) = [("cam", JStr "cam-1"); ("mic", JStr "mic-1")]
  /\ channels_desc (app w) = [("chat", JObj [("ordered", JBool true)])]
  /\ connect_p (app w) = Some (fst (connect w0))
  /\ exists t,
       pstate_of w t = Some (Pending [RForward (fst (connect w0))])
       /\ pstate_of w (fst (connect w0)) = Some (Pending [])
       /\ forall o,
            pstate_of (run_event w (ESettle t o)) (fst (connect w0))
            = Some (Settled o).
Proof.
  intros cam mic h l w0 w.
  refine (connect_protocol w0 [ESettle 0 (Fulfilled (JStream cam))] [cam; mic]
            eq_refl eq_refl _ _ _ _).
  - repeat constructor.
  - repeat constructor; simpl; lia.
  - repeat constructor. exists 0, (Fulfilled (JStream cam)). split; [reflexivity|simpl; lia].
  - repeat constructor.
Defined.

Lemma describe_streams_notin a es : forall d,
  a ∉ map fst es -> Obj.get a (describe_streams es d) = Obj.get a d.
Proof.
  induction es as [|[k s] es IH]; intros d Hnin; [done|].
  cbn [map fst] in Hnin. apply not_elem_of_cons in Hnin as [Hne Hnin].
  unfold describe_streams. cbn [fold_left fst snd].
  fold (describe_streams es (Obj.set k (JStr (stream_id s)) d)).
  rewrite IH by done. by apply ObjFacts.get_set_ne.
Qed.

(** The descriptor of a name that the loop meets once is the key of its
    stream. *)
Lemma describe_streams_elem a s es : forall d,
  NoDup (map fst es) -> (a, s) ∈ es ->
  Obj.get a (describe_streams es d) = Some (JStr (stream_id s)).
Proof.
  induction es as [|[k s'] es IH]; intros d Hnd Hin.
  - by apply elem_of_nil in Hin.
  - cbn [map fst] in Hnd. inversion Hnd as [|? ? Hnotin Hnd']; subst.
    unfold describe_streams. cbn [fold_left fst snd].
    fold (describe_streams es (Obj.set k (JStr (stream_id s')) d)).
    apply elem_of_cons in Hin as [E|Hin].
    + injection E as <- <-. rewrite describe_streams_notin by done.
      apply ObjFacts.get_set_eq.
    + by apply IH.
Qed.

(** C4.  A stream name declared both in the shared local peer and for this
    peer alone: [connect] waits for the private declaration only, hands the
    stream of the private declaration to the transport, and records the key
    of that stream under the name in [streams_desc]. *)
Theorem private_stream_overrides (w0 : W) (evs : list event) (ss : list Stream)
    (a : string) (pA pB : pid) (sB : Stream) :
  connect_p (app w0) = None ->
  queue w0 = [] ->
  Forall quiet (heap w0) ->
  Obj.wf (private_streams (app w0)) ->
  Obj.get a (l_streams (local (app w0))) = Some pA ->
  Obj.get a (private_streams (app w0)) = Some pB ->
  let ents := Obj.entries (gathered_streams (app w0)) in
  let base := length (heap w0) in
  Forall (fun e => snd e < base) ents ->
  Forall (fun e => exists p o, e = ESettle p o /\ p < base) evs ->
  let w := run evs (run_event w0 EConnect) in
  Forall2
    (fun e s => pstate_of w (snd e) = Some (Settled (Fulfilled (JStream s))))
    ents ss ->
  pstate_of w pB = Some (Settled (Fulfilled (JStream sB))) ->
  Obj.get a (gathered_streams (app w0)) = Some pB
  /\ (exists i,
        ents !! i = Some (a, pB)
        /\ ss !! i = Some sB
        /\ forall j p, ents !! j = Some (a, p) -> j = i)
  /\ (exists before after,
        calls (app w)
        = calls (app w0) ++ before ++ AddStream (JStream sB) :: after)
  /\ Obj.get a (streams_desc (app w)) = Some (JStr (stream_id sB)).
Proof.
  intros Hp Hq Hquiet Hwf HA HB ents base Hvalid Hevs w Hss HsB.
  assert (Obj.get a (gathered_streams (app w0)) = Some pB) as Hget.
  { unfold gathered_streams. by apply ObjFacts.get_merge_private. }
  assert (Obj.wf ents) as Hnd.
  { apply ObjFacts.wf_entries, ObjFacts.wf_merge. }
  assert ((a, pB) ∈ ents) as Hin.
  { unfold ents. rewrite ObjFacts.entries_perm.
    by apply ObjFacts.get_Some_elem. }
  apply list_elem_of_lookup in Hin as [i Hi].
  destruct (Forall2_lookup_l _ _ _ _ _ Hss Hi) as (s & Hs & Hps).
  cbn [snd] in Hps. rewrite HsB in Hps. injection Hps as <-.
  destruct (initial base ents w0 Hp Hq Hquiet eq_refl eq_refl Hvalid)
    as [_ Hinit].
  pose proof (events_keep base ents _ evs _ Hevs Hinit) as Hinv.
  fold w in Hinv.
  destruct (finished base ents _ w ss Hinv Hvalid Hss) as [_ Happ].
  pose proof (Forall2_length _ _ _ Hss) as Hlen.
  assert (zip (map fst ents) ss !! i = Some (a, sB)) as Hzip.
  { apply lookup_zip_with_Some. exists a, sB. repeat split; [|done].
    by rewrite list_lookup_fmap, Hi. }
  split; [done|]. split; [|split].
  - exists i. repeat split; [done..|].
    intros j p Hj. unfold Obj.wf in Hnd.
    apply (NoDup_lookup _ j i a Hnd); by rewrite list_lookup_fmap, ?Hj, ?Hi.
  - rewrite Happ. unfold after_body. cbn [calls].
    rewrite <- (take_drop_middle _ _ _ Hzip), map_app. cbn [map snd].
    eexists. eexists. rewrite <- app_assoc. reflexivity.
  - rewrite Happ. unfold after_body. cbn [streams_desc].
    apply describe_streams_elem.
    + rewrite fst_zip; [done|]. rewrite length_map. lia.
    + by apply list_elem_of_lookup_2 in Hzip.
Qed.

Lemma private_stream_overrides_witness :
  let streamA := mkStream "A" in
  let streamB := mkStream "B" in
  let h := [Cell (K:=callback) (Settled (Fulfilled (JStream streamA))) [] true;
            Cell (Settled (Fulfilled (JStream streamB))) [] true] in
  let l := mkLocal [("a", 0)] [] in
  let w0 := snd (addStream (JStr "a") (JPromise 1)
                   (constructor [("auto_connect", JBool false)] l h)) in
  let w := run [] (run_event w0 EConnect) in
  (l_streams (local (app w0)) = [("a", 0)]
   /\ private_streams (app w0) = [("a", 1)])
  /\ Obj.get "a" (gathered_streams (app w0)) = Some 1
  /\ (exists i,
        Obj.entries (gathered_streams (app w0)) !! i = Some ("a", 1)
        /\ [streamB] !! i = Some streamB
        /\ forall j p,
             Obj.entries (gathered_streams (app w0)) !! j = Some ("a", p) ->
             j = i)
  /\ (exists before after,
        calls (app w)
        = calls (app w0) ++ before ++ AddStream (JStream streamB) :: after)
  /\ Obj.get "a" (streams_desc (app w)) = Some (JStr "B").
Proof.
  intros streamA streamB h l w0 w.
  split; [by split|].
  refine (private_stream_overrides w0 [] [streamB] "a" 0 1 streamB
            eq_refl eq_refl _ _ eq_refl eq_refl _ _ _ _).
  - repeat constructor.
  - repeat constructor. apply not_elem_of_nil.
  - repeat constructor.
  - constructor.
  - repeat constructor.
  - reflexivity.
Defined.

(** The scenario of C4 run to the end: the transport is handed the private
    stream and never the shared one. *)
Example private_stream_scenario :
  let streamA := mkStream "A" in
  let streamB := mkStream "B" in
  let h := [Cell (K:=callback) (Settled (Fulfilled (JStream streamA))) [] true;
            Cell (Settled (Fulfilled (JStream streamB))) [] true] in
  let w0 := snd (addStream (JStr "a") (JPromise 1)
                   (constructor [("auto_connect", JBool false)]
                      (mkLocal [("a", 0)] []) h)) in
  let w := run_event w0 EConnect in
  calls (app w) = [AddStream (JStream streamB); SetLocal []; Connect]
  /\ streams_desc (app w) = [("a", JStr "B")].
Proof. by vm_compute. Qed.

End RemotePeerProtocol.


(** ** The CoffeeScript class and the TypeScript class *)
Module CoffeeFacts.
Import Promise RemotePeer.

Lemma coffee_connect_first (w : Coffee.W) :
  Coffee.connect_p (app w) = None ->
  Coffee.connect_p (app (snd (Coffee.connect w)))
  = Some (fst (Coffee.connect w)).
Proof.
  intros H. unfold Coffee.connect. rewrite H.
  destruct (Coffee.tag_streams _ _) as [ps w1].
  destruct (promise_all ps w1) as [all w2].
  destruct (then_ all _ _ w2) as [p w3]. done.
Qed.

(** What [Object.assign({}, shared, private)] holds for a name: the private
    declaration, or else the shared one. *)
Lemma get_gathered {V} (shared private : Obj.t V) k :
  Obj.wf shared -> Obj.wf private ->
  Obj.get k (Obj.merge shared private)
  = match Obj.get k private with
    | Some v => Some v
    | None => Obj.get k shared
    end.
Proof.
  intros Hs Hp. unfold Obj.merge.
  rewrite !ObjFacts.get_assign by done.
  by destruct (Obj.get k private), (Obj.get k shared).
Qed.

(** C10, as the two files have it.  With [auto_connect] set to [true] the
    TypeScript constructor calls [connect] and the CoffeeScript one does
    not; with [false] it is the other way round.  A stream added to one peer
    with [addStream] is among the streams the TypeScript [connect] waits
    for; the CoffeeScript class has no such streams.  And with two shared
    streams, both there already, the two classes hand the same streams to
    the transport, but the TypeScript class describes each stream under its
    own name and the CoffeeScript class describes the last stream only,
    under the last name: its closures read the one variable [name] after
    the loop has ended. *)
Lemma coffee_ts_differ :
  let l := mkLocal [("cam", 0)] [] in
  let h_ts := [Cell (K:=callback) (Pending []) [] true; Cell (Pending []) [] true] in
  let h_cs := [Cell (K:=Coffee.callback) (Pending []) [] true;
               Cell (Pending []) [] true] in
  let yes := [("auto_connect", JBool true)] in
  let no := [("auto_connect", JBool false)] in
  (connect_p (app (constructor yes l h_ts)) = Some 4
   /\ Coffee.connect_p (app (Coffee.constructor yes l h_cs)) = None)
  /\ (connect_p (app (constructor no l h_ts)) = None
      /\ Coffee.connect_p (app (Coffee.constructor no l h_cs)) = Some 4)
  /\ (let w := snd (addStream (JStr "screen") (JPromise 1)
                      (constructor no l h_ts)) in
      Obj.get "screen" (gathered_streams (app w)) = Some 1
      /\ Obj.get "screen" (Coffee.gathered_streams (Coffee.init no l)) = None)
  /\ (let cam := mkStream "cam-1" in
      let mic := mkStream "mic-1" in
      let l2 := mkLocal [("cam", 0); ("mic", 1)] [] in
      let h2_ts := [Cell (K:=callback) (Settled (Fulfilled (JStream cam))) []
                      true;
                    Cell (Settled (Fulfilled (JStream mic))) [] true] in
      let h2_cs := [Cell (K:=Coffee.callback)
                      (Settled (Fulfilled (JStream cam))) [] true;
                    Cell (Settled (Fulfilled (JStream mic))) [] true] in
      let w_ts := drain run_callback (constructor [] l2 h2_ts) in
      let w_cs := drain Coffee.run_callback (Coffee.constructor [] l2 h2_cs) in
      calls (app w_ts)
      = [AddStream (JStream cam); AddStream (JStream mic); SetLocal [];
         Connect]
      /\ Coffee.calls (app w_cs) = calls (app w_ts)
      /\ streams_desc (app w_ts)
         = [("cam", JStr "cam-1"); ("mic", JStr "mic-1")]
      /\ Coffee.streams_desc (app w_cs) = [("mic", JStr "mic-1")]).
Proof. by vm_compute. Qed.

End CoffeeFacts.


(** * Further properties of the room and the peer session *)

(** ** What the jobs do to the program's own state *)
Module AppFacts.
Import Promise PromiseFacts.

Section Facts.
Context {K A : Type}.
Variable run_callback : K -> jsval -> World K A -> completion * World K A.

(** A job changes the program's state through a callback or not at all. *)
Lemma app_run_job (j : job K) (w : World K A) :
  app (run_job run_callback j w) = app w
  \/ exists k v, app (run_job run_callback j w) = app (snd (run_callback k v w)).
Proof.
  destruct j as [[onF onR q|i agg|q] [v|e]|t q]; simpl;
    rewrite ?app_settle, ?app_fill_slot, ?app_subscribe; auto.
  - destruct onF as [k|]; [|rewrite app_settle; auto].
    right. exists k, v. destruct (run_callback k v w) as [c w1].
    by rewrite app_complete.
  - destruct onR as [k|]; [|rewrite app_settle; auto].
    right. exists k, e. destruct (run_callback k e w) as [c w1].
    by rewrite app_complete.
Qed.

(** A property of the program's state that every callback keeps holds
    after the job queue ran. *)
Lemma app_drain (P : A -> Prop) :
  (forall k v w, P (app w) -> P (app (snd (run_callback k v w)))) ->
  forall w, P (app w) -> P (app (drain run_callback w)).
Proof.
  intros Hcb. apply (drain_ind run_callback (fun w => P (app w))).
  intros j js w _ Hw.
  destruct (app_run_job j (set_queue js w)) as [E|(k & v & E)]; rewrite E.
  - done.
  - by apply Hcb.
Qed.

End Facts.
End AppFacts.

(** ** The room over its whole life *)
Module RoomLife.
Import Promise PromiseFacts AppFacts Room RoomFacts.

Lemma state_history_app t1 t2 :
  state_history (t1 ++ t2) = state_history t1 ++ state_history t2.
Proof.
  induction t1 as [|o t1 IH]; [done|].
  destruct o; simpl; by rewrite ?IH.
Qed.



(** What [connect()] does to the room itself. *)
Lemma app_connect (w : W) :
  app (snd (connect w))
  = match join_p (app w) with
    | Some _ => app w
    | None =>
        set_join_p (Some (length (heap w)))
          (out Signaling_connect (setState connecting (app w)))
    end.
Proof.
  unfold connect. destruct (join_p (app w)) as [p|].
  - pose proof (app_then p (Some CbJoined) None w) as H1.
    destruct (then_ p _ _ w) as [q w1]. cbn [snd] in H1.
    cbv beta iota. etrans; [apply app_then|done].
  - cbn [new_external alloc set_app heap app].
    match goal with
    | |- context [then_ ?p ?f ?g ?w'] =>
        pose proof (app_then p f g w') as H1;
        destruct (then_ p f g w') as [q w1]
    end.
    cbn [snd] in H1. cbv beta iota. etrans; [apply app_then|]. by rewrite H1.
Qed.

(** A property of the room that every callback and every event keeps
    holds at every moment of the room's life. *)
Lemma room_run_ind (P : room -> Prop) :
  (forall k v (w : W), P (app w) -> P (app (snd (run_callback k v w)))) ->
  (forall e (w : W), P (app w) -> P (app (apply e w))) ->
  forall evs (w : W), P (app w) -> P (app (run evs w)).
Proof.
  intros Hcb Hev evs. induction evs as [|e evs IH]; intros w Hw; [done|].
  change (run (e :: evs) w) with (run evs (run_event w e)).
  apply IH. unfold run_event. apply app_drain; [done|]. by apply Hev.
Qed.

(** The same, for a property that does not depend on the peers. *)
Lemma room_invariant (P : room -> Prop) :
  (forall r s, P r -> P (setState s r)) ->
  (forall r o, o <> Signaling_connect ->
               (forall s, o <> Emit_state_changed s) -> P r -> P (out o r)) ->
  (forall r ps, P r -> P (set_peers ps r)) ->
  (forall r ss, P r -> P (set_sessions ss r)) ->
  (forall r p, join_p r = None ->
               P r -> P (set_join_p (Some p)
                           (out Signaling_connect (setState connecting r)))) ->
  forall evs (w : W), P (app w) -> P (app (run evs w)).
Proof.
  intros Hst Hout Hps Hss Hconn. apply room_run_ind.
  { intros k v w Hw. destruct k; simpl; by apply Hst. }
  intros e w Hw. destruct e; cbn [apply].
  - rewrite app_connect. destruct (join_p (app w)) eqn:Hj; [done|].
    by apply Hconn.
  - simpl. by apply Hout.
  - simpl. by apply Hout.
  - simpl. unfold on_closed. cbn [state out set_peers].
    assert (P (out Emit_closed (set_peers [] (app w)))) as H1.
    { by apply Hout, Hps. }
    destruct (state (app w)); try done. by apply Hst.
  - simpl. unfold on_peer_joined. apply Hout; try done.
    apply Hout; try done. apply Hps, Hss. by apply Hout.
  - simpl. unfold on_peer_left.
    destruct (sessions (app w) !! peer); [|done].
    apply Hout; try done. apply Hout; try done. by apply Hps.
  - simpl. unfold on_peer_status.
    destruct (sessions (app w) !! peer); [|done]. by apply Hout.
  - simpl. unfold on_peer_message.
    destruct (sessions (app w) !! peer); [|done]. by apply Hout.
  - simpl. by apply Hout.
  - by rewrite app_settle_external.
Qed.

(** The field [state] is the state announced last by ['state_changed'],
    and [idle] as long as none was announced. *)
Theorem state_is_announced (status : jsval) (h : list (cell callback))
    (evs : list event) :
  let r := app (run evs (constructor status h)) in
  state r = default idle (last (state_history (trace r))).
Proof.
  apply (room_invariant
           (fun r => state r = default idle (last (state_history (trace r))))).
  - intros r s _. unfold setState. cbn [state out set_state trace].
    rewrite state_history_app. cbn [state_history]. by rewrite last_snoc.
  - intros r o _ Ho H. cbn [state out trace].
    rewrite state_history_app.
    destruct o; try (by rewrite H; cbn [state_history]; rewrite app_nil_r).
    by destruct (Ho s).
  - done.
  - done.
  - intros r p _ _. cbn [state trace set_join_p out setState set_state].
    rewrite !state_history_app. cbn [state_history].
    by rewrite app_nil_r, last_snoc.
  - done.
Qed.

End RoomLife.

Module RoomOrder.
Import Promise PromiseFacts AppFacts Room RoomFacts RoomLife.






End RoomOrder.

(** ** The room: the order of its states *)
Module RoomStates.
Import Promise PromiseFacts AppFacts HeapTactics Room RoomFacts RoomLife RoomOrder.





(** The states other than the first two. *)
Definition later (s : RoomState) : Prop := s <> idle /\ s <> connecting.
























End RoomStates.

(** ** The room: [connect()] called again *)
Module RoomAgain.
Import Promise PromiseFacts HeapTactics Room RoomFacts.

(** A call of [connect()] on a room whose [signaling.connect()] promise is
    settled already does not call the signaling again.  Once the jobs ran,
    the room announces [connected] (again) when that promise was fulfilled
    and the promise returned is fulfilled with [undefined]; it announces
    [failed] (again) when it was rejected and the promise returned is
    rejected with the same reason: a failed room stays failed. *)
Theorem connect_again_settled (w : W) (j : pid) (o : outcome) :
  join_p (app w) = Some j ->
  pstate_of w j = Some (Settled o) ->
  queue w = [] ->
  let ret := fst (connect w) in
  let w1 := run_event w EConnect in
  let s := match o with Fulfilled _ => connected | Rejected _ => failed end in
  state (app w1) = s
  /\ trace (app w1) = trace (app w) ++ [Emit_state_changed s]
  /\ join_p (app w1) = Some j
  /\ pstate_of w1 ret
     = Some (Settled match o with
                     | Fulfilled _ => Fulfilled JUndefined
                     | Rejected e => Rejected e
                     end).
Proof.
  destruct w as [h q a]. simpl. intros Hj Ho ->.
  unfold pstate_of in Ho. simpl in Ho.
  destruct (h !! j) as [c|] eqn:Hc; [|done]. simpl in Ho.
  injection Ho as Ho.
  assert (j < length h) as Hlt by (by eapply lookup_lt_Some).
  unfold run_event, apply, connect. simpl. rewrite Hj.
  unfold then_, subscribe. hs.
  rewrite (lookup_app_l h) by done. rewrite Hc, Ho. hs.
  unfold pstate_of.
  destruct o as [v|e].
  all: run1 callbacks_tame_room; unfold settle; hs.
  all: run1 callbacks_tame_room; unfold settle; hs.
  all: rewrite drain_idle by done; hs; done.
Qed.

Lemma connect_again_settled_witness :
  let w := run [EConnect; ESettle 0 (Rejected (JStr "no route"))]
             (constructor JNull []) in
  let ret := fst (connect w) in
  let w1 := run_event w EConnect in
  state (app w) = failed
  /\ state (app w1) = failed
  /\ trace (app w1) = trace (app w) ++ [Emit_state_changed failed]
  /\ join_p (app w1) = Some 0
  /\ pstate_of w1 ret = Some (Settled (Rejected (JStr "no route"))).
Proof.
  split; [by vm_compute|].
  exact (connect_again_settled
           (run [EConnect; ESettle 0 (Rejected (JStr "no route"))]
              (constructor JNull []))
           0 (Rejected (JStr "no route")) eq_refl eq_refl eq_refl).
Defined.

End RoomAgain.

(** ** The room: the map of peers *)
Module RoomPeers.
Import Promise PromiseFacts AppFacts Room RoomFacts RoomLife.

Lemma get_remove {V : Type} (k k' : string) (o : Obj.t V) :
  Obj.get k' (Obj.remove k o)
  = if String.eqb k k' then None else Obj.get k' o.
Proof.
  induction o as [|[k0 v0] o IH]; simpl.
  - by destruct (String.eqb k k').
  - destruct (String.eqb_spec k0 k) as [->|Hne].
    + rewrite IH. destruct (String.eqb_spec k k'); [done|].
      by destruct (String.eqb_spec k k').
    + simpl. rewrite IH.
      destruct (String.eqb_spec k k') as [->|Hne'].
      * by destruct (String.eqb_spec k0 k').
      * done.
Qed.

(** The signaling ids of the peers the room created, in order. *)
Fixpoint created (t : list output) : list string :=
  match t with
  | [] => []
  | Create_peer id _ :: t' => id :: created t'
  | _ :: t' => created t'
  end.

Lemma created_app t1 t2 : created (t1 ++ t2) = created t1 ++ created t2.
Proof.
  induction t1 as [|o t1 IH]; [done|].
  destruct o; simpl; by rewrite ?IH.
Qed.

Definition peers_inv (r : room) : Prop :=
  sessions r = created (trace r)
  /\ forall id n, Obj.get id (peers r) = Some n -> sessions r !! n = Some id.

Lemma peers_inv_out (o : output) (r : room) :
  created [o] = [] -> peers_inv r -> peers_inv (out o r).
Proof.
  intros Ho [H1 H2]. split; cbn [out sessions trace peers]; [|done].
  by rewrite created_app, Ho, app_nil_r.
Qed.

Lemma peers_inv_setState (s : RoomState) (r : room) :
  peers_inv r -> peers_inv (setState s r).
Proof. intros H. by apply peers_inv_out. Qed.

Lemma peers_inv_apply (e : event) (w : W) :
  peers_inv (app w) -> peers_inv (app (apply e w)).
Proof.
  intros Hw. destruct e; cbn [apply].
  - rewrite app_connect. destruct (join_p (app w)); [done|].
    destruct Hw as [H1 H2]. split; [|done].
    cbn [sessions set_join_p out setState set_state trace].
    rewrite !created_app. simpl. by rewrite !app_nil_r.
  - simpl. by apply peers_inv_out.
  - simpl. by apply peers_inv_out.
  - simpl. unfold on_closed. cbn [state out set_peers].
    assert (peers_inv (out Emit_closed (set_peers [] (app w)))) as H.
    { apply peers_inv_out; [done|]. destruct Hw as [H1 _]. by split. }
    destruct (state (app w)); try done. by apply peers_inv_setState.
  - simpl. unfold on_peer_joined. destruct Hw as [H1 H2].
    split; cbn [sessions set_sessions set_peers out trace peers].
    + rewrite !created_app. simpl. by rewrite !app_nil_r, H1.
    + intros id' n.
      destruct (String.eqb_spec id id') as [<-|Hne].
      * rewrite ObjFacts.get_set_eq. intros [= <-].
        rewrite lookup_app_r by done. by rewrite Nat.sub_diag.
      * rewrite ObjFacts.get_set_ne by done. intros Hn.
        rewrite lookup_app_l; [by apply H2|].
        eapply lookup_lt_Some. by apply H2.
  - simpl. unfold on_peer_left.
    destruct (sessions (app w) !! peer) as [id|]; [|done].
    destruct Hw as [H1 H2].
    split; cbn [sessions set_sessions set_peers out trace peers].
    + rewrite !created_app. simpl. by rewrite !app_nil_r.
    + intros id' n. rewrite get_remove.
      destruct (String.eqb id id'); [done|]. apply H2.
  - simpl. unfold on_peer_status.
    destruct (sessions (app w) !! peer); [|done]. by apply peers_inv_out.
  - simpl. unfold on_peer_message.
    destruct (sessions (app w) !! peer); [|done]. by apply peers_inv_out.
  - simpl. by apply peers_inv_out.
  - by rewrite app_settle_external.
Qed.

(** At every moment, the peer that the room's map holds under an id is a
    peer that the room created for that id: the [n]-th peer in the map
    under [id] means the [n]-th call of [createPeer] was for [id]. *)
Theorem peers_are_created (status : jsval) (h : list (cell callback))
    (evs : list event) (id : string) (n : nat) :
  let r := app (run evs (constructor status h)) in
  Obj.get id (peers r) = Some n -> created (trace r) !! n = Some id.
Proof.
  intros r Hn.
  assert (peers_inv r) as [H1 H2].
  { apply (room_run_ind peers_inv).
    - intros k v w Hw. destruct k; simpl; by apply peers_inv_setState.
    - apply peers_inv_apply.
    - by split. }
  rewrite <- H1. by apply H2.
Qed.

Lemma peers_are_created_witness :
  let evs := [ESignalingPeerJoined "alice" true;
              ESignalingPeerJoined "bob" false; EPeerLeft 0] in
  let r := app (run evs (constructor JNull [])) in
  Obj.get "bob" (peers r) = Some 1 /\ created (trace r) !! 1 = Some "bob".
Proof.
  split; [reflexivity|].
  exact (peers_are_created JNull []
           [ESignalingPeerJoined "alice" true;
            ESignalingPeerJoined "bob" false; EPeerLeft 0]
           "bob" 1 eq_refl).
Defined.

(** A peer joins and leaves again, under any id but ["__proto__"] (an
    assignment to that key sets the prototype of the map and creates no
    entry): while the peer is there the map holds it under its id;
    afterwards the id is gone from the map and every other id holds what it
    held before.  The room creates the peer, emits ['peer_joined'] and
    ['peers_changed'] with the new map, then ['peer_left'] and
    ['peers_changed'] with the map after the removal. *)
Theorem peer_joined_then_left (r : room) (id : string) (first : bool) :
  id <> "__proto__" ->
  let n := length (sessions r) in
  let r1 := on_peer_joined id first r in
  let r2 := on_peer_left n r1 in
  Obj.get id (peers r1) = Some n
  /\ Obj.get id (peers r2) = None
  /\ (forall id', id' <> id -> Obj.get id' (peers r2) = Obj.get id' (peers r))
  /\ trace r2
     = trace r ++ [Create_peer id first; Emit_peer_joined n id;
                   Emit_peers_changed (peers r1);
                   Emit_peer_left n; Emit_peers_changed (peers r2)]
  /\ state r2 = state r /\ join_p r2 = join_p r.
Proof.
  intros _ n r1 r2. subst r2 r1. unfold on_peer_left, on_peer_joined.
  cbn [sessions set_sessions set_peers out trace peers state join_p].
  rewrite lookup_app_r by done. subst n. rewrite Nat.sub_diag.
  cbn [lookup list_lookup sessions set_sessions set_peers out trace peers
       state join_p].
  rewrite ObjFacts.get_set_eq, !get_remove, String.eqb_refl.
  repeat split; try done.
  - intros id' Hne. rewrite get_remove.
    destruct (String.eqb_spec id id') as [->|_]; [done|].
    by rewrite ObjFacts.get_set_ne.
  - by rewrite <- !app_assoc.
Qed.

Lemma peer_joined_then_left_witness :
  let r := app (Room.run [ESignalingPeerJoined "alice" true]
                  (constructor JNull [])) in
  let r1 := on_peer_joined "bob" false r in
  let r2 := on_peer_left 1 r1 in
  Obj.get "bob" (peers r1) = Some 1
  /\ Obj.get "bob" (peers r2) = None
  /\ (forall id', id' <> "bob" ->
        Obj.get id' (peers r2) = Obj.get id' (peers r))
  /\ trace r2
     = trace r ++ [Create_peer "bob" false; Emit_peer_joined 1 "bob";
                   Emit_peers_changed (peers r1);
                   Emit_peer_left 1; Emit_peers_changed (peers r2)]
  /\ state r2 = state r /\ join_p r2 = join_p r.
Proof.
  refine (peer_joined_then_left
            (app (Room.run [ESignalingPeerJoined "alice" true]
                    (constructor JNull [])))
            "bob" false _).
  discriminate.
Defined.

End RoomPeers.

(** ** The peer session: declaring streams and channels *)
Module RemotePeerDeclare.
Import Promise PromiseFacts HeapTactics RemotePeer RemotePeerFacts RemotePeerOnce
  RemotePeerProtocol.

(** What [Object.assign({}, shared, private)] holds under a name. *)
Lemma get_merge {V : Type} (shared private : Obj.t V) (n : string) :
  Obj.wf shared -> Obj.wf private ->
  Obj.get n (Obj.merge shared private)
  = match Obj.get n private with
    | Some v => Some v
    | None => Obj.get n shared
    end.
Proof.
  intros Hs Hp. unfold Obj.merge.
  rewrite !ObjFacts.get_assign by done.
  by destruct (Obj.get n private), (Obj.get n shared).
Qed.

(** [addStream] with a promise, on a session made with [auto_connect] set
    to [false]: with a name, or with the promise alone, which goes under
    the name ["stream"].  The name is any string but ["__proto__"]:
    [this.private_streams[name] = stream_p] with that name sets the
    prototype of the dictionary and declares nothing.  The promise itself
    is returned, [connect] will gather it under the name, whatever the
    shared local peer declares there, and no other name is touched.
    Nothing is scheduled and the transport is not called, also when
    [connect] ran before. *)
Theorem addStream_declares (w : W) (name obj : jsval) (n : string) (p : pid) :
  auto_connect (app w) = JBool false ->
  n <> "__proto__" ->
  (name = JStr n /\ obj = JPromise p)
  \/ (name = JPromise p /\ n = DEFAULT_STREAM) ->
  Obj.wf (l_streams (local (app w))) ->
  Obj.wf (private_streams (app w)) ->
  let w' := snd (addStream name obj w) in
  fst (addStream name obj w) = Return (JPromise p)
  /\ Obj.get n (gathered_streams (app w')) = Some p
  /\ (forall m, m <> n ->
        Obj.get m (gathered_streams (app w'))
        = Obj.get m (gathered_streams (app w)))
  /\ Obj.wf (private_streams (app w'))
  /\ heap w' = heap w /\ queue w' = queue w
  /\ calls (app w') = calls (app w)
  /\ connect_p (app w') = connect_p (app w)
  /\ gathered_channels (app w') = gathered_channels (app w).
Proof.
  intros Hac _ Hargs Hl Hp w'.
  assert (addStream name obj w
          = (Return (JPromise p),
             set_app (set_private_streams
                        (Obj.set n p (private_streams (app w))) (app w)) w))
    as E.
  { unfold addStream. rewrite Hac. simpl.
    by destruct Hargs as [[-> ->]|[-> ->]]. }
  subst w'. rewrite E. cbn [fst snd app set_app heap queue].
  assert (Obj.wf (Obj.set n p (private_streams (app w)))) as Hp'
    by (by apply ObjFacts.wf_set).
  unfold gathered_streams, gathered_channels.
  cbn [private_streams set_private_streams local calls connect_p
       private_channels].
  repeat split; try done.
  - rewrite get_merge by done. by rewrite ObjFacts.get_set_eq.
  - intros m Hm. rewrite !get_merge by done.
    by rewrite ObjFacts.get_set_ne.
Qed.

Lemma addStream_declares_witness :
  let w := constructor [("auto_connect", JBool false)]
             (mkLocal [("stream", 0)] []) [] in
  let w' := snd (addStream (JPromise 7) JUndefined w) in
  fst (addStream (JPromise 7) JUndefined w) = Return (JPromise 7)
  /\ Obj.get "stream" (gathered_streams (app w')) = Some 7
  /\ (forall m, m <> "stream" ->
        Obj.get m (gathered_streams (app w'))
        = Obj.get m (gathered_streams (app w)))
  /\ Obj.wf (private_streams (app w'))
  /\ heap w' = heap w /\ queue w' = queue w
  /\ calls (app w') = calls (app w)
  /\ connect_p (app w') = connect_p (app w)
  /\ gathered_channels (app w') = gathered_channels (app w).
Proof.
  refine (addStream_declares
            (constructor [("auto_connect", JBool false)]
               (mkLocal [("stream", 0)] []) [])
            (JPromise 7) JUndefined "stream" 7 eq_refl _
            (or_intror (conj eq_refl eq_refl)) _ _).
  - discriminate.
  - repeat constructor. apply not_elem_of_nil.
  - constructor.
Defined.

(** The names [connect] waits for are the names declared by the shared
    local peer or for this peer alone, each once; the same holds for the
    channels it creates. *)
Theorem gathered_names (s : state) :
  Obj.wf (l_streams (local s)) -> Obj.wf (private_streams s) ->
  Obj.wf (l_channels (local s)) -> Obj.wf (private_channels s) ->
  let names := map fst (Obj.entries (gathered_streams s)) in
  let cnames := map fst (Obj.entries (gathered_channels s)) in
  (NoDup names
   /\ forall n, n ∈ names <-> n ∈ map fst (l_streams (local s))
                              \/ n ∈ map fst (private_streams s))
  /\ (NoDup cnames
      /\ forall n, n ∈ cnames <-> n ∈ map fst (l_channels (local s))
                                  \/ n ∈ map fst (private_channels s)).
Proof.
  assert (forall V (a b : Obj.t V),
             Obj.wf a -> Obj.wf b ->
             NoDup (map fst (Obj.entries (Obj.merge a b)))
             /\ forall n, n ∈ map fst (Obj.entries (Obj.merge a b))
                          <-> n ∈ map fst a \/ n ∈ map fst b) as H.
  { intros V a b Ha Hb. split.
    { apply ObjFacts.wf_entries, ObjFacts.wf_merge. }
    intros n. rewrite ObjFacts.entries_perm.
    destruct (decide (n ∈ map fst (Obj.merge a b))) as [Hin|Hnin].
    - split; [|done]. intros _.
      destruct (Obj.get n (Obj.merge a b)) as [v|] eqn:E;
        [|by apply ObjFacts.get_None in E].
      rewrite get_merge in E by done.
      destruct (Obj.get n b) as [vb|] eqn:Eb.
      + right. apply ObjFacts.get_Some_elem in Eb.
        apply list_elem_of_fmap. by exists (n, vb).
      + left. apply ObjFacts.get_Some_elem in E.
        apply list_elem_of_fmap. by exists (n, v).
    - split; [done|]. intros Hor.
      apply ObjFacts.get_None in Hnin. rewrite get_merge in Hnin by done.
      destruct (Obj.get n b) as [vb|] eqn:Eb; [done|].
      apply ObjFacts.get_None in Eb. apply ObjFacts.get_None in Hnin.
      by destruct Hor. }
  intros H1 H2 H3 H4 names cnames. split; by apply H.
Qed.

Lemma gathered_names_witness :
  let s := init [] (mkLocal [("cam", 0); ("mic", 1)] [("chat", JObj [])]) in
  let names := map fst (Obj.entries (gathered_streams s)) in
  let cnames := map fst (Obj.entries (gathered_channels s)) in
  (NoDup names
   /\ forall n, n ∈ names <-> n ∈ ["cam"; "mic"] \/ n ∈ [])
  /\ (NoDup cnames
      /\ forall n, n ∈ cnames <-> n ∈ ["chat"] \/ n ∈ []).
Proof.
  refine (gathered_names
            (init [] (mkLocal [("cam", 0); ("mic", 1)] [("chat", JObj [])]))
            _ _ _ _).
  - unfold Obj.wf. simpl. apply (bool_decide_unpack _). by vm_compute.
  - constructor.
  - repeat constructor. apply not_elem_of_nil.
  - constructor.
Defined.

(** The event is a call of [connect()]. *)
Definition calls_connect (e : event) : bool :=
  match e with EConnect => true | _ => false end.

Lemma no_connect_run (evs : list event) : forall w : W,
  existsb calls_connect evs = false ->
  connect_p (app w) = None -> connect_p (app (run evs w)) = None.
Proof.
  induction evs as [|e evs IH]; intros w Hevs Hw; [done|].
  cbn [existsb] in Hevs. apply orb_false_iff in Hevs as [He Hevs].
  change (run (e :: evs) w) with (run evs (run_event w e)).
  apply IH; [done|]. unfold run_event. rewrite drain_connect_p.
  destruct e; try done; cbn [apply]; try by rewrite app_settle_external.
  - destruct (apply_only_allocates (EAddStream name obj) w I)
      as (_ & _ & _ & _ & _ & E). cbn [apply] in E. by rewrite E.
  - destruct (apply_only_allocates (EAddDataChannel name desc) w I)
      as (_ & _ & _ & _ & _ & E). cbn [apply] in E. by rewrite E.
  - destruct (apply_only_allocates (EGetStream name) w I)
      as (_ & _ & _ & _ & _ & E). cbn [apply] in E. by rewrite E.
  - destruct (apply_only_allocates (EGetChannel name) w I)
      as (_ & _ & _ & _ & _ & E). cbn [apply] in E. by rewrite E.
Qed.

(** The calls of the connect sequence: [addStream], [addDataChannel] and
    [connect] on the peer connection, [setLocal] on the channel
    collection. *)
Definition connect_sequence (c : call) : bool :=
  match c with
  | AddStream _ | AddDataChannel _ _ | Connect | SetLocal _ => true
  | Close => false
  end.

Lemma body_calls_nil (cs : list call) :
  body_calls cs = [] -> Forall (fun c => connect_sequence c = false) cs.
Proof.
  induction cs as [|c cs IH]; [done|].
  destruct c; simpl; try done. intros H. constructor; [done|by apply IH].
Qed.

(** A session made with [auto_connect] set to [false] does not start the
    connect sequence by itself.  Over any sequence of calls of [addStream],
    [addDataChannel], [stream], [channel] and [close], of changes to the
    declarations of the shared local peer and of settlements of promises,
    as long as [connect()] is not called: [connect_p] stays unset, and the
    peer connection is not asked to add a stream, to create a data channel
    or to connect, nor the channel collection to [setLocal]. *)
Theorem no_connect_sequence_before_connect (opts : Obj.t jsval) (l : LocalPeer)
    (h : list (cell callback)) (evs : list event) :
  Forall quiet h ->
  Obj.get "auto_connect" opts = Some (JBool false) ->
  existsb calls_connect evs = false ->
  let w := run evs (constructor opts l h) in
  connect_p (app w) = None
  /\ Forall (fun c => connect_sequence c = false) (calls (app w)).
Proof.
  intros Hh Hac Hevs w.
  assert (constructor opts l h = mkWorld h [] (init opts l)) as E.
  { unfold constructor, auto_connect. simpl. by rewrite Hac. }
  assert (connect_p (app w) = None) as Hp.
  { apply no_connect_run; [done|]. by rewrite E. }
  split; [done|]. apply body_calls_nil.
  pose proof (once_run evs _ (once_constructor opts l h Hh)) as Ho.
  by destruct (once_unset _ Ho Hp).
Qed.

Lemma no_connect_sequence_before_connect_witness :
  let evs := [EAddStream (JStr "cam") (JStream (mkStream "cam-1"));
              EAddDataChannel (JStr "chat") JUndefined;
              ELocalChannel "log" (JObj []);
              ESettle 0 (Fulfilled (JStream (mkStream "mic-1"))); EClose;
              EGetStream None] in
  let w := run evs (constructor [("auto_connect", JBool false)]
                      (mkLocal [("mic", 0)] [])
                      [Cell (Pending []) [] true]) in
  connect_p (app w) = None
  /\ Forall (fun c => connect_sequence c = false) (calls (app w)).
Proof.
  refine (no_connect_sequence_before_connect [("auto_connect", JBool false)]
            (mkLocal [("mic", 0)] []) [Cell (Pending []) [] true]
            [EAddStream (JStr "cam") (JStream (mkStream "cam-1"));
             EAddDataChannel (JStr "chat") JUndefined;
             ELocalChannel "log" (JObj []);
             ESettle 0 (Fulfilled (JStream (mkStream "mic-1"))); EClose;
             EGetStream None]
            _ eq_refl eq_refl).
  repeat constructor.
Defined.

Lemma entries_singleton {V : Type} (n : string) (v : V) :
  Obj.entries [(n, v)] = [(n, v)].
Proof. unfold Obj.entries. simpl. by destruct (Obj.array_index n). Qed.

Lemma merge_nil_singleton {V : Type} (n : string) (v : V) :
  Obj.merge [] [(n, v)] = [(n, v)].
Proof. unfold Obj.merge, Obj.assign. by rewrite entries_singleton. Qed.

(** [addStream] with a [Stream] object and then [connect()], on a fresh
    session made with [auto_connect] set to [false] whose local peer shares
    no stream, under any name but ["__proto__"] (which would set the
    prototype of [private_streams] and declare nothing): the stream is
    wrapped in a fulfilled promise, so [connect] needs no further event.
    When its jobs have run the transport was handed the stream, then the
    channels, then [connect]; the descriptor holds the stream's id under
    the name; and the promise of [connect] is waiting for the transport. *)
Theorem stream_object_then_connect (opts : Obj.t jsval) (l : LocalPeer)
    (h : list (cell callback)) (name : string) (s : Stream) :
  Obj.get "auto_connect" opts = Some (JBool false) ->
  Forall quiet h ->
  l_streams l = [] ->
  name <> "__proto__" ->
  let w0 := constructor opts l h in
  let w1 := run_event w0 (EAddStream (JStr name) (JStream s)) in
  let w2 := run_event w1 EConnect in
  let chans := Obj.entries (gathered_channels (app w0)) in
  let cd := describe_channels chans [] in
  pstate_of w1 (length h) = Some (Settled (Fulfilled (JStream s)))
  /\ Obj.get name (private_streams (app w1)) = Some (length h)
  /\ calls (app w2)
     = AddStream (JStream s) :: map channel_call chans ++ [SetLocal cd; Connect]
  /\ streams_desc (app w2) = [(name, JStr (stream_id s))]
  /\ channels_desc (app w2) = cd
  /\ connect_p (app w2) = Some (fst (connect w1))
  /\ pstate_of w2 (fst (connect w1)) = Some (Pending []).
Proof.
  intros Hac Hh Hl _ w0 w1 w2 chans cd.
  assert (w0 = mkWorld h [] (init opts l)) as E0.
  { unfold w0, constructor, auto_connect. simpl. by rewrite Hac. }
  assert (w1 = mkWorld (h ++ [Cell (Settled (Fulfilled (JStream s))) [] false])
                 [] (set_private_streams [(name, length h)] (init opts l)))
    as E1.
  { unfold w1, run_event. rewrite E0. cbn [apply]. unfold addStream, auto_connect.
    simpl. rewrite Hac. simpl. by rewrite drain_idle. }
  assert (Obj.entries (gathered_streams (app w1)) = [(name, length h)]) as Hents.
  { rewrite E1. unfold gathered_streams. simpl. rewrite Hl.
    by rewrite merge_nil_singleton, entries_singleton. }
  assert (length (heap w1) = length h + 1) as Hlen.
  { rewrite E1. simpl. by rewrite length_app. }
  assert (pstate_of w1 (length h) = Some (Settled (Fulfilled (JStream s)))) as Hs.
  { rewrite E1. unfold pstate_of. simpl. by rewrite lookup_end. }
  assert (Forall (fun e : string * pid => snd e < length h + 1)
            [(name, length h)]) as Hvalid.
  { repeat constructor. simpl. lia. }
  destruct (initial (length h + 1) [(name, length h)] w1) as [Hfst Hinit];
    try done.
  { by rewrite E1. }
  { by rewrite E1. }
  { rewrite E1. simpl. apply Forall_app. split; [done|]. by repeat constructor. }
  fold w2 in Hinit.
  destruct (finished (length h + 1) [(name, length h)] _ w2 [s] Hinit Hvalid)
    as [HD Happ].
  { repeat constructor. simpl.
    apply (keeps_drain run_callback callbacks_tame), keeps_apply. exact Hs. }
  destruct (transport_settles (length h + 1) [(name, length h)] _ w2
              (Fulfilled JUndefined) HD) as (_ & Hpend & _).
  split; [done|]. split.
  { rewrite E1. simpl. by rewrite String.eqb_refl. }
  rewrite Happ, Hfst. unfold after_body. cbn [calls streams_desc channels_desc connect_p zip zip_with map fst snd].
  rewrite E1. cbn [app calls streams_desc channels_desc connect_p set_connect_p set_private_streams init private_streams private_channels local options gathered_channels].
  subst cd chans. rewrite E0. cbn [app]. unfold gathered_channels.
  cbn [local init private_channels set_connect_p set_private_streams].
  repeat split; try done.
Qed.

Lemma stream_object_then_connect_witness :
  let opts := [("auto_connect", JBool false)] in
  let l := mkLocal [] [("chat", JObj [("ordered", JBool true)])] in
  let s := mkStream "cam-1" in
  let w0 := constructor opts l [] in
  let w1 := run_event w0 (EAddStream (JStr "cam") (JStream s)) in
  let w2 := run_event w1 EConnect in
  pstate_of w1 0 = Some (Settled (Fulfilled (JStream s)))
  /\ Obj.get "cam" (private_streams (app w1)) = Some 0
  /\ calls (app w2)
     = [AddStream (JStream s);
        AddDataChannel "chat" (JObj [("ordered", JBool true)]);
        SetLocal [("chat", JObj [("ordered", JBool true)])]; Connect]
  /\ streams_desc (app w2) = [("cam", JStr "cam-1")]
  /\ channels_desc (app w2) = [("chat", JObj [("ordered", JBool true)])]
  /\ connect_p (app w2) = Some (fst (connect w1))
  /\ pstate_of w2 (fst (connect w1)) = Some (Pending []).
Proof.
  refine (stream_object_then_connect [("auto_connect", JBool false)]
            (mkLocal [] [("chat", JObj [("ordered", JBool true)])]) []
            "cam" (mkStream "cam-1") eq_refl (Forall_nil_2 _) eq_refl _).
  discriminate.
Defined.

(** A channel name declared both by the shared local peer and for this
    peer alone: the transport is asked once to create a channel of that
    name, with the options declared for this peer, and these options are
    what [channels_desc] holds under the name. *)
Theorem private_channel_overrides (w0 : W) (evs : list event)
    (ss : list Stream) (name : string) (dA dB : jsval) :
  connect_p (app w0) = None ->
  queue w0 = [] ->
  Forall quiet (heap w0) ->
  Obj.wf (private_channels (app w0)) ->
  Obj.get name (l_channels (local (app w0))) = Some dA ->
  Obj.get name (private_channels (app w0)) = Some dB ->
  let ents := Obj.entries (gathered_streams (app w0)) in
  let base := length (heap w0) in
  Forall (fun e => snd e < base) ents ->
  Forall (fun e => exists p o, e = ESettle p o /\ p < base) evs ->
  let w := run evs (run_event w0 EConnect) in
  Forall2
    (fun e s => pstate_of w (snd e) = Some (Settled (Fulfilled (JStream s))))
    ents ss ->
  (exists before after,
     calls (app w)
     = calls (app w0) ++ before ++ AddDataChannel name dB :: after
     /\ forall d, AddDataChannel name d ∉ before ++ after)
  /\ Obj.get name (channels_desc (app w)) = Some dB.
Proof.
  intros Hp Hq Hquiet Hwf HA HB ents base Hvalid Hevs w Hss.
  set (chans := Obj.entries (gathered_channels (app w0))).
  assert (Obj.get name (gathered_channels (app w0)) = Some dB) as Hget.
  { unfold gathered_channels. by apply ObjFacts.get_merge_private. }
  assert (Obj.wf chans) as Hnd.
  { apply ObjFacts.wf_entries, ObjFacts.wf_merge. }
  assert (Obj.get name chans = Some dB) as Hget'.
  { unfold chans. rewrite ObjFacts.get_entries; [done|apply ObjFacts.wf_merge]. }
  pose proof (ObjFacts.get_Some_elem _ _ _ Hget') as Hin.
  apply list_elem_of_lookup in Hin as [i Hi].
  destruct (initial base ents w0 Hp Hq Hquiet eq_refl eq_refl Hvalid)
    as [_ Hinit].
  pose proof (events_keep base ents _ evs _ Hevs Hinit) as Hinv.
  fold w in Hinv.
  destruct (finished base ents _ w ss Hinv Hvalid Hss) as [_ Happ].
  rewrite Happ. unfold after_body.
  cbn [calls channels_desc gathered_channels local private_channels
       set_connect_p].
  change (gathered_channels (set_connect_p _ (app w0)))
    with (gathered_channels (app w0)).
  fold chans. split.
  - rewrite <- (take_drop_middle _ _ _ Hi), map_app. cbn [map].
    exists (map (fun e : string * Stream => AddStream (JStream (snd e)))
              (zip (map fst ents) ss)
            ++ map channel_call (take i chans)).
    eexists. split.
    { rewrite <- !app_assoc. cbn [channel_call fst snd]. reflexivity. }
    intros d Hd.
    assert (forall j e, chans !! j = Some e -> fst e = name -> j = i) as Huniq.
    { intros j e Hj He. unfold Obj.wf in Hnd.
      apply (NoDup_lookup _ j i name Hnd);
        by rewrite list_lookup_fmap, ?Hj, ?Hi; simpl; rewrite ?He. }
    rewrite (take_drop_middle _ _ _ Hi) in Hd.
    rewrite !elem_of_app in Hd.
    destruct Hd as [[Hd|Hd]|[Hd|Hd]].
    + apply list_elem_of_fmap in Hd as (e & He & _). done.
    + apply list_elem_of_fmap in Hd as ([n' d'] & He & Hin).
      injection He as <- <-.
      apply list_elem_of_lookup in Hin as [j Hj].
      pose proof (lookup_lt_Some _ _ _ Hj) as Hlt. rewrite length_take in Hlt.
      rewrite lookup_take_lt in Hj by lia.
      specialize (Huniq j _ Hj eq_refl). lia.
    + apply list_elem_of_fmap in Hd as ([n' d'] & He & Hin).
      injection He as <- <-.
      apply list_elem_of_lookup in Hin as [j Hj].
      rewrite lookup_drop in Hj.
      specialize (Huniq _ _ Hj eq_refl). lia.
    + apply elem_of_cons in Hd as [Hd|Hd]; [done|].
      by apply list_elem_of_singleton in Hd.
  - unfold describe_channels. rewrite ObjFacts.get_fold_set by exact Hnd.
    by rewrite Hget'.
Qed.

Lemma private_channel_overrides_witness :
  let h := [Cell (K:=callback) (Settled (Fulfilled (JStream (mkStream "cam-1"))))
              [] true] in
  let l := mkLocal [("cam", 0)] [("chat", JObj [("ordered", JBool true)])] in
  let w0 := snd (addDataChannel (JStr "chat") (JObj [("ordered", JBool false)])
                   (constructor [("auto_connect", JBool false)] l h)) in
  let w := run [] (run_event w0 EConnect) in
  calls (app w)
  = [AddStream (JStream (mkStream "cam-1"));
     AddDataChannel "chat" (JObj [("ordered", JBool false)]);
     SetLocal [("chat", JObj [("ordered", JBool false)])]; Connect]
  /\ (exists before after,
        calls (app w)
        = calls (app w0) ++ before
          ++ AddDataChannel "chat" (JObj [("ordered", JBool false)]) :: after
        /\ forall d, AddDataChannel "chat" d ∉ before ++ after)
  /\ Obj.get "chat" (channels_desc (app w))
     = Some (JObj [("ordered", JBool false)]).
Proof.
  intros h l w0 w. split; [reflexivity|].
  refine (private_channel_overrides w0 [] [mkStream "cam-1"] "chat"
            (JObj [("ordered", JBool true)]) (JObj [("ordered", JBool false)])
            eq_refl eq_refl _ _ eq_refl eq_refl _ _ _).
  - repeat constructor.
  - repeat constructor. apply not_elem_of_nil.
  - repeat constructor; simpl; lia.
  - constructor.
  - repeat constructor.
Defined.

End RemotePeerDeclare.

(** ** The peer session: a stream that fails *)
Module RemotePeerFailure.
Import Promise PromiseFacts HeapTactics RemotePeer RemotePeerFacts RemotePeerOnce
  RemotePeerProtocol.

(** *** Once no callback of [connect] is waiting, the transport is left
    alone *)

Lemma pending_bodies_idle (b : job callback) (bs : list (job callback)) (w : W) :
  queue w = b :: bs -> pending_bodies w = 0 ->
  pending_bodies (run_job run_callback b (set_queue bs w)) = 0
  /\ app (run_job run_callback b (set_queue bs w)) = app w.
Proof.
  intros Hq Hw.
  assert (pending_bodies (set_queue bs w) + job_total body_weight 0 b
          = pending_bodies w) as Hn.
  { unfold pending_bodies, total. simpl. rewrite Hq. simpl. lia. }
  set (w0 := set_queue bs w) in *.
  assert (forall k x q,
             (k = CbBody -> job_total body_weight 0 b = 1) ->
             pending_bodies (let (c, w1) := run_callback k x w0 in complete q c w1) = 0
             /\ app (let (c, w1) := run_callback k x w0 in complete q c w1)
                = app w) as Hcb.
  { intros k x q Hk. destruct k as [n|]; [|specialize (Hk eq_refl); lia].
    unfold run_callback. cbv beta iota. rewrite app_complete. split; [|done].
    pose proof (total_complete body_weight 0 q (Return (JArr [JStr n; x])) w0).
    unfold pending_bodies in *. lia. }
  destruct b as [[onF onR q|i agg|q] [v|e]|t q]; simpl.
  - destruct onF as [k|].
    + apply Hcb. intros ->. by destruct onR as [[]|].
    + rewrite app_settle. unfold pending_bodies in *. rewrite total_settle.
      split; [lia|done].
  - destruct onR as [k|].
    + apply Hcb. intros ->. by destruct onF as [[]|].
    + rewrite app_settle. unfold pending_bodies in *. rewrite total_settle.
      split; [lia|done].
  - rewrite app_fill_slot. unfold pending_bodies in *. rewrite total_fill_slot.
    split; [lia|done].
  - rewrite app_settle. unfold pending_bodies in *. rewrite total_settle.
    split; [lia|done].
  - rewrite app_settle. unfold pending_bodies in *. rewrite total_settle.
    split; [lia|done].
  - rewrite app_settle. unfold pending_bodies in *. rewrite total_settle.
    split; [lia|done].
  - rewrite app_subscribe.
    pose proof (total_subscribe body_weight 0 t (RForward q) w0).
    unfold pending_bodies in *. simpl in *. split; [lia|done].
Qed.

Lemma idle_drain (w : W) :
  pending_bodies w = 0 ->
  pending_bodies (drain run_callback w) = 0
  /\ app (drain run_callback w) = app w.
Proof.
  intros Hw.
  apply (drain_ind run_callback
           (fun w' => pending_bodies w' = 0 /\ app w' = app w)); [|done].
  intros b bs w' Hq [H1 H2].
  destruct (pending_bodies_idle b bs w' Hq H1) as [H3 H4].
  split; [done|]. by rewrite H4.
Qed.

Lemma idle_run_event (e : event) (w : W) (p : pid) :
  pending_bodies w = 0 -> connect_p (app w) = Some p ->
  pending_bodies (run_event w e) = 0
  /\ body_calls (calls (app (run_event w e))) = body_calls (calls (app w)).
Proof.
  intros Hw Hp. unfold run_event.
  assert (pending_bodies (apply e w) = 0
          /\ body_calls (calls (app (apply e w))) = body_calls (calls (app w)))
    as [H1 H2].
  { destruct e;
      try (match goal with
           | |- context [apply ?e _] =>
               destruct (apply_only_allocates e w I)
                 as (cs & Hh & Hcs & Hq & Hc & _)
           end;
           split; [|done];
           unfold pending_bodies, total in *; rewrite Hh, Hq, sum_list_with_app;
           rewrite (quiet_total body_weight cs Hcs); lia).
    - cbn [apply]. by rewrite (connect_again w p Hp).
    - cbn [apply]. rewrite app_settle_external. split; [|done].
      unfold pending_bodies in *. by rewrite total_settle_external. }
  destruct (idle_drain _ H1) as [H3 H4]. split; [done|]. by rewrite H4.
Qed.

Lemma idle_run (evs : list event) : forall (w : W) (p : pid),
  pending_bodies w = 0 -> connect_p (app w) = Some p ->
  body_calls (calls (app (run evs w))) = body_calls (calls (app w)).
Proof.
  induction evs as [|e evs IH]; intros w p Hw Hp; [done|].
  change (run (e :: evs) w) with (run evs (run_event w e)).
  destruct (idle_run_event e w p Hw Hp) as [H1 H2].
  rewrite (IH _ p); [done|done|]. by apply run_event_connect_p.
Qed.

(** *** The jobs of a rejection *)

Section Reject.
Variable base : nat.
Variable ents : list (string * pid).
Variable e : jsval.

(** The awaited entries that are the promise [p], with their indices. *)
Fixpoint idx_from (p : pid) (i : nat) (es : list (string * pid))
    : list (nat * string) :=
  match es with
  | [] => []
  | (n, p') :: es' =>
      (if (p' =? p)%nat then [(i, n)] else []) ++ idx_from p (S i) es'
  end.

Definition rej_tag (t : nat * string) : job callback :=
  JReact (tagR base (fst t) (snd t)) (Rejected e).
Definition rej_elem (t : nat * string) : job callback :=
  JReact (elemR base ents (fst t)) (Rejected e).
Definition Qrej : cell callback :=
  {| st := Settled (Rejected e); slots := []; external := false |}.
Definition rejQ (ts : list (nat * string)) (Q : list (cell callback))
    : list (cell callback) :=
  fold_left (fun Q t => <[fst t := Qrej]> Q) ts Q.

Lemma tags_from_idx p es : forall i,
  tags_from base p i es
  = map (fun t => tagR base (fst t) (snd t)) (idx_from p i es).
Proof.
  induction es as [|[n p'] es IH]; intros i; [done|].
  simpl. rewrite map_app, IH. by destruct (p' =? p)%nat.
Qed.

Lemma idx_from_ge p es : forall i t, t ∈ idx_from p i es -> i <= fst t.
Proof.
  induction es as [|[n p'] es IH]; intros i t Ht; simpl in Ht.
  - by apply elem_of_nil in Ht.
  - apply elem_of_app in Ht as [Ht|Ht].
    + destruct (p' =? p)%nat; [|by apply elem_of_nil in Ht].
      apply list_elem_of_singleton in Ht as ->. done.
    + apply IH in Ht. lia.
Qed.

Lemma idx_from_lookup p es : forall i t,
  t ∈ idx_from p i es -> es !! (fst t - i) = Some (snd t, p).
Proof.
  induction es as [|[n p'] es IH]; intros i t Ht; simpl in Ht.
  - by apply elem_of_nil in Ht.
  - apply elem_of_app in Ht as [Ht|Ht].
    + destruct (Nat.eqb_spec p' p) as [->|]; [|by apply elem_of_nil in Ht].
      apply list_elem_of_singleton in Ht as ->. simpl. by rewrite Nat.sub_diag.
    + pose proof (idx_from_ge _ _ _ _ Ht) as Hge. apply IH in Ht.
      replace (fst t - i) with (S (fst t - S i)) by lia. done.
Qed.

Lemma idx_from_NoDup p es : forall i, NoDup (map fst (idx_from p i es)).
Proof.
  induction es as [|[n p'] es IH]; intros i; simpl; [constructor|].
  destruct (p' =? p)%nat; simpl; [|apply IH].
  constructor; [|apply IH].
  intros Hin. apply list_elem_of_fmap in Hin as (t & Ht & Hin).
  apply idx_from_ge in Hin. lia.
Qed.

Lemma idx_from_nonempty p es : forall i j n,
  es !! j = Some (n, p) -> idx_from p i es <> [].
Proof.
  induction es as [|[n' p'] es IH]; intros i j n Hj; [done|].
  simpl. destruct j as [|j]; simpl in Hj.
  - injection Hj as -> ->. by rewrite Nat.eqb_refl.
  - destruct (p' =? p)%nat; [done|]. simpl. by eapply IH.
Qed.

Lemma length_rejQ ts : forall Q, length (rejQ ts Q) = length Q.
Proof.
  induction ts as [|t ts IH]; intros Q; [done|].
  simpl. fold (rejQ ts (<[fst t := Qrej]> Q)). by rewrite IH, length_insert.
Qed.

(** The [then] of a rejected stream passes the rejection on to its
    element of [Promise.all]. *)
Lemma reject_tags ts : forall Q H A C X q' a,
  length H = base -> length Q = length ents ->
  NoDup (map fst ts) ->
  Forall (fun t => Q !! fst t = Some (Qpend base ents (fst t))) ts ->
  drain run_callback (mkWorld (layout H Q A C X) (map rej_tag ts ++ q') a)
  = drain run_callback
      (mkWorld (layout H (rejQ ts Q) A C X) (q' ++ map rej_elem ts) a).
Proof.
  induction ts as [|t ts IH]; intros Q H A C X q' a HH HQ Hnd Hts.
  - simpl. by rewrite app_nil_r.
  - cbn [map] in Hnd. apply NoDup_cons in Hnd as [Hnotin Hnd'].
    apply Forall_cons in Hts as [Ht Hts'].
    assert (fst t < length Q) as Hlt by (by eapply lookup_lt_Some).
    erewrite (drain_cons _ callbacks_tame); [|reflexivity].
    unfold rej_tag at 1, tagR. cbn [run_job].
    erewrite step_settle; cycle 1.
    { simpl. rewrite (lookup_layout_Q base) by done. exact Ht. }
    { reflexivity. }
    simpl.
    rewrite (insert_layout_Q base) by done.
    change (set_st (Settled (Rejected e)) (Qpend base ents (fst t)))
      with Qrej.
    rewrite <- app_assoc.
    rewrite IH; try done.
    + by rewrite <- app_assoc.
    + by rewrite length_insert.
    + apply Forall_forall. intros t' Hin.
      rewrite list_lookup_insert_ne.
      * by eapply Forall_forall in Hts'.
      * intros E. apply Hnotin. rewrite E. apply list_elem_of_fmap. eauto.
Qed.

(** A rejection that reaches a settled [Promise.all] is dropped. *)
Lemma reject_late ts : forall H Q o sl C X q' a,
  length H = base -> length Q = length ents ->
  drain run_callback
    (mkWorld (layout H Q (Acell (Settled o) sl) C X) (map rej_elem ts ++ q') a)
  = drain run_callback
      (mkWorld (layout H Q (Acell (Settled o) sl) C X) q' a).
Proof.
  induction ts as [|t ts IH]; intros H Q o sl C X q' a HH HQ; [done|].
  erewrite (drain_cons _ callbacks_tame); [|reflexivity].
  unfold rej_elem at 1, elemR. cbn [run_job].
  unfold settle. simpl.
  rewrite (lookup_layout_A base ents) by done. simpl.
  by apply IH.
Qed.

(** The first rejection settles [Promise.all], and with it the promise of
    [connect]; the callback of [connect] does not run. *)
Lemma reject_all t ts H Q sl X a :
  length H = base -> length Q = length ents ->
  drain run_callback
    (mkWorld (layout H Q (Acell (Pending [bodyR base ents]) sl) derived X)
       (map rej_elem (t :: ts)) a)
  = mkWorld (layout H Q (Acell (Settled (Rejected e)) sl) Qrej X) [] a.
Proof.
  intros HH HQ.
  erewrite (drain_cons _ callbacks_tame); [|reflexivity].
  simpl map. unfold rej_elem at 1, elemR. cbn [run_job].
  erewrite step_settle; cycle 1.
  { simpl. by apply (lookup_layout_A base ents). }
  { reflexivity. }
  simpl. rewrite (insert_layout_A base ents) by done.
  change (set_st (Settled (Rejected e)) (Acell (Pending [bodyR base ents]) sl))
    with (Acell (Settled (Rejected e)) sl).
  rewrite reject_late by done.
  erewrite (drain_cons _ callbacks_tame); [|reflexivity].
  unfold bodyR. cbn [run_job].
  erewrite step_settle; cycle 1.
  { simpl. by apply (lookup_layout_C base ents). }
  { reflexivity. }
  simpl. rewrite (insert_layout_C base ents) by done.
  by rewrite drain_idle.
Qed.

(** *** No callback of [connect] is left waiting *)

Lemma sum_list_with_zero {X : Type} (f : X -> nat) (l : list X) :
  Forall (fun x => f x = 0) l -> sum_list_with f l = 0.
Proof. induction 1 as [|x l Hx _ IH]; simpl; lia. Qed.

Lemma weight_tags p es : forall i,
  sum_list_with body_weight (tags_from base p i es) = 0.
Proof.
  induction es as [|[n p'] es IH]; intros i; [done|].
  simpl. rewrite sum_list_with_app, IH. by destruct (p' =? p)%nat.
Qed.

Lemma cond_H_idle H :
  cond_H base ents H -> Forall (fun c => cell_total body_weight c = 0) H.
Proof.
  intros [_ Hrs]. apply Forall_lookup. intros p c Hp.
  unfold cell_total. destruct (st c) as [rs|o] eqn:Hs; [|done].
  rewrite (Hrs p c rs Hp Hs). apply weight_tags.
Qed.

Lemma Qof_idle d :
  Forall (fun c => cell_total body_weight c = 0) (Qof base ents d).
Proof.
  apply Forall_lookup. intros i c. unfold Qof. rewrite list_lookup_imap.
  destruct (ents !! i) as [[n p]|]; [|done]. simpl. intros [= <-].
  by destruct (d !! i) as [[v|]|].
Qed.

Lemma rejQ_idle ts : forall Q,
  Forall (fun c => cell_total body_weight c = 0) Q ->
  Forall (fun c => cell_total body_weight c = 0) (rejQ ts Q).
Proof.
  induction ts as [|t ts IH]; intros Q HQ; [done|].
  simpl. apply IH. destruct (decide (fst t < length Q)).
  - by apply Forall_insert.
  - by rewrite list_insert_ge by lia.
Qed.

(** *** A stream is rejected while [connect] is gathering *)
Lemma reject_G (a : state) (w : W) (p : pid) (c : cell callback)
    (rs : list (reaction callback)) (i : nat) (n : string) :
  Gform base ents a w ->
  ents !! i = Some (n, p) -> p < base ->
  heap w !! p = Some c -> external c = true -> st c = Pending rs ->
  let w' := run_event w (ESettle p (Rejected e)) in
  pstate_of w' (base + length ents + 1) = Some (Settled (Rejected e))
  /\ app w' = a
  /\ pending_bodies w' = 0.
Proof.
  intros (H & HH & Hno & Hcol & ->) Hi Hp Hc Hx Hs w'. subst w'.
  pose proof HH as [Hlen Hrs].
  simpl in Hc. rewrite lookup_layout_H in Hc by lia.
  unfold run_event. cbn [apply]. unfold settle_external. simpl.
  rewrite lookup_layout_H by lia. rewrite Hc, Hx.
  erewrite step_settle; cycle 1.
  { simpl. rewrite lookup_layout_H by lia. exact Hc. }
  { exact Hs. }
  simpl. rewrite insert_layout_H by lia.
  rewrite (Hrs p c rs Hc Hs), tags_from_idx, map_map.
  change (map (fun t => JReact (tagR base (fst t) (snd t)) (Rejected e))
            (idx_from p 0 ents))
    with (map rej_tag (idx_from p 0 ents)).
  set (H' := <[p := set_st (Settled (Rejected e)) c]> H).
  assert (length H' = base) as Hlen' by (unfold H'; by rewrite length_insert).
  rewrite <- (app_nil_r (map rej_tag _)).
  rewrite reject_tags; cycle 1.
  { done. }
  { apply length_Qof. }
  { apply idx_from_NoDup. }
  { apply Forall_forall. intros t Ht.
    pose proof (idx_from_lookup _ _ _ _ Ht) as Hl. rewrite Nat.sub_0_r in Hl.
    unfold Qof. rewrite list_lookup_imap, Hl. simpl.
    rewrite lookup_values, Hl. simpl.
    by rewrite (value_of_pending H p c rs Hc Hs). }
  rewrite app_nil_l.
  destruct (idx_from p 0 ents) as [|t ts] eqn:Hidx.
  { by destruct (idx_from_nonempty p ents 0 i n Hi). }
  rewrite reject_all; [|done|by rewrite length_rejQ, length_Qof].
  assert (length (rejQ (t :: ts) (Qof base ents (values ents H))) = length ents)
    as HQ' by (by rewrite length_rejQ, length_Qof).
  assert (Forall (fun c => cell_total body_weight c = 0)
            (rejQ (t :: ts) (Qof base ents (values ents H)))) as HQi.
  { apply rejQ_idle, Qof_idle. }
  assert (Forall (fun c => cell_total body_weight c = 0) H') as HHi.
  { apply cond_H_idle. by apply cond_H_insert. }
  revert HQ' HQi.
  generalize (rejQ (t :: ts) (Qof base ents (values ents H))).
  intros Q' HQ' HQi.
  unfold pstate_of. simpl.
  rewrite (lookup_layout_C base ents) by done.
  repeat split; try done.
  unfold pending_bodies, total. simpl. unfold layout.
  rewrite !sum_list_with_app. simpl.
  by rewrite (sum_list_with_zero _ H' HHi), (sum_list_with_zero _ Q' HQi).
Qed.

End Reject.

(** A stream that [connect] waits for is rejected, while every stream
    settled before it was fulfilled with a [Stream].  Then the promise of
    [connect] is rejected with the same reason, and the transport was not
    called by [connect] (the question left open in the source: "really
    fail on failed streams?").  This is final: whatever happens later, the
    promise stays rejected and the transport gets no stream, no channel
    and no [connect]. *)
Theorem rejected_stream_fails_connect (w0 : W) (evs1 evs2 : list event)
    (i : nat) (n : string) (p : pid) (c : cell callback)
    (rs : list (reaction callback)) (e : jsval) :
  connect_p (app w0) = None ->
  queue w0 = [] ->
  Forall quiet (heap w0) ->
  let ents := Obj.entries (gathered_streams (app w0)) in
  let base := length (heap w0) in
  Forall (fun e => snd e < base) ents ->
  Forall (fun e => exists p o, e = ESettle p o /\ p < base) evs1 ->
  let cp := fst (connect w0) in
  let w1 := run evs1 (run_event w0 EConnect) in
  (forall j m q o,
     ents !! j = Some (m, q) -> pstate_of w1 q = Some (Settled o) ->
     exists s, o = Fulfilled (JStream s)) ->
  ents !! i = Some (n, p) ->
  heap w1 !! p = Some c -> external c = true -> st c = Pending rs ->
  let w2 := run_event w1 (ESettle p (Rejected e)) in
  pstate_of w2 cp = Some (Settled (Rejected e))
  /\ calls (app w2) = calls (app w0)
  /\ pstate_of (run evs2 w2) cp = Some (Settled (Rejected e))
  /\ body_calls (calls (app (run evs2 w2))) = body_calls (calls (app w0)).
Proof.
  intros Hp Hq Hquiet ents base Hvalid Hevs cp w1 Hok Hi Hc Hx Hs w2.
  destruct (initial base ents w0 Hp Hq Hquiet eq_refl eq_refl Hvalid)
    as [Hfst Hinit].
  pose proof (events_keep base ents _ evs1 _ Hevs Hinit) as Hinv.
  fold w1 in Hinv.
  assert (p < base) as Hlt.
  { by apply (proj1 (Forall_lookup _ _) Hvalid i (n, p)). }
  assert (Gform base ents (set_connect_p (Some (base + length ents + 1)) (app w0))
            w1) as HG.
  { destruct Hinv as [(j & m & q & o & Hj & Ho & Hoff)|[HG|HD]]; [|done|].
    - destruct (Hok j m q o Hj Ho) as [s ->]. by destruct (Hoff s).
    - destruct HD as (H & es & [Hlen _] & Hes & E).
      rewrite E in Hc. simpl in Hc. rewrite lookup_layout_H in Hc by lia.
      destruct (Forall2_lookup_l _ _ _ _ _ Hes Hi) as (e' & _ & _ & Hv).
      simpl in Hv. by rewrite (value_of_pending H p c rs Hc Hs) in Hv. }
  destruct (reject_G base ents e _ w1 p c rs i n HG Hi Hlt Hc Hx Hs)
    as (H1 & H2 & H3).
  fold w2 in H1, H2, H3. subst cp. rewrite Hfst.
  assert (connect_p (app w2) = Some (base + length ents + 1)) as Hcp
    by (by rewrite H2).
  split; [done|]. split; [by rewrite H2|]. split.
  - by apply keeps_run.
  - rewrite (idle_run evs2 w2 _ H3 Hcp). by rewrite H2.
Qed.

Lemma rejected_stream_fails_connect_witness :
  let h := [Cell (K:=callback) (Pending []) [] true;
            Cell (Settled (Fulfilled (JStream (mkStream "mic-1")))) [] true] in
  let l := mkLocal [("cam", 0); ("mic", 1)] [("chat", JObj [])] in
  let w0 := constructor [("auto_connect", JBool false)] l h in
  let cp := fst (connect w0) in
  let w1 := run [] (run_event w0 EConnect) in
  let w2 := run_event w1 (ESettle 0 (Rejected (JStr "denied"))) in
  let later := [ESettle 0 (Fulfilled (JStream (mkStream "cam-1"))); EConnect] in
  pstate_of w2 cp = Some (Settled (Rejected (JStr "denied")))
  /\ calls (app w2) = calls (app w0)
  /\ pstate_of (run later w2) cp = Some (Settled (Rejected (JStr "denied")))
  /\ body_calls (calls (app (run later w2))) = body_calls (calls (app w0)).
Proof.
  intros h l w0 cp w1 w2 later.
  refine (rejected_stream_fails_connect w0 [] later 0 "cam" 0
            (Cell (Pending [RThen (Some (CbTag "cam")) None 2]) [] true)
            [RThen (Some (CbTag "cam")) None 2] (JStr "denied")
            eq_refl eq_refl _ _ _ _ eq_refl eq_refl eq_refl eq_refl).
  - repeat constructor.
  - repeat constructor; simpl; lia.
  - constructor.
  - intros j m q o Hj Ho. vm_compute in Hj.
    destruct j as [|[|j]]; [| |done]; injection Hj as <- <-;
      vm_compute in Ho; [done|].
    injection Ho as <-. by eexists.
Defined.

End RemotePeerFailure.


(** ** The peer session: declarations made after [connect()] *)
Module RemotePeerLate.
Import Promise PromiseFacts HeapTactics RemotePeer RemotePeerFacts RemotePeerOnce
  RemotePeerProtocol.

Section Late.
Variable base : nat.
Variable ents : list (string * pid).












End Late.



End RemotePeerLate.

(** ** The CoffeeScript class: the names of the streams *)
Module CoffeeProtocol.
Import Promise PromiseFacts HeapTactics Coffee.

Lemma coffee_callbacks_tame : tame run_callback.
Proof.
  intros k v w. destruct k; simpl.
  - exists [], (app w). rewrite app_nil_r. by destruct w.
  - unfold connect_body.
    destruct v; try (exists [], (app w); rewrite app_nil_r; by destruct w).
    destruct (add_streams l (app w)) as [[e|] s1]; simpl.
    + exists [], s1. by rewrite app_nil_r.
    + eexists [_], _. split; [reflexivity|]. by repeat constructor.
Qed.

(** The variable [name] after the first loop of [connect]. *)
Definition named (ents : list (string * pid)) (a : state) : state :=
  fold_left (fun a e => set_name (JStr (fst e)) a) ents a.

Lemma named_snoc ents n p a :
  named (ents ++ [(n, p)]) a = set_name (JStr n) (named ents a).
Proof. unfold named. by rewrite fold_left_app. Qed.

Lemma named_fields ents : forall a,
  options (named ents a) = options a /\ local (named ents a) = local a
  /\ streams_desc (named ents a) = streams_desc a
  /\ channels_desc (named ents a) = channels_desc a
  /\ connect_p (named ents a) = connect_p a
  /\ calls (named ents a) = calls a.
Proof.
  induction ents as [|e ents IH]; intros a; [done|].
  simpl. destruct (IH (set_name (JStr (fst e)) a)) as (H1 & H2 & H3 & H4 & H5 & H6).
  by rewrite H1, H2, H3, H4, H5, H6.
Qed.

Lemma named_last ents n p a :
  last ents = Some (n, p) -> name (named ents a) = JStr n.
Proof.
  intros Hl. destruct ents as [|e ents _] using rev_ind; [done|].
  rewrite last_snoc in Hl. injection Hl as ->. by rewrite named_snoc.
Qed.

Definition tag_job (b i : nat) (s : Stream) : job callback :=
  JReact (RThen (Some CbTag) None (b + i)) (Fulfilled (JStream s)).

(** The first loop on streams that are there already: each [then] makes a
    promise and queues the closure at once. *)
Lemma tag_streams_fulfilled ents ss : forall w : W,
  Forall2
    (fun e s => pstate_of w (snd e) = Some (Settled (Fulfilled (JStream s))))
    ents ss ->
  tag_streams ents w
  = (seq (length (heap w)) (length ents),
     mkWorld (heap w ++ replicate (length ents) derived)
       (queue w ++ imap (tag_job (length (heap w))) ss)
       (named ents (app w))).
Proof.
  intros w Hss. revert w Hss.
  induction ents as [|[n p] ents IH] in ss |- *; intros w Hss.
  - apply Forall2_nil_inv_l in Hss as ->. simpl. rewrite !app_nil_r.
    by destruct w.
  - apply Forall2_cons_inv_l in Hss as (s & ss' & Hs & Hss & ->).
    cbn [tag_streams]. unfold then_, subscribe. cbn [alloc heap set_app set_heap fst snd].
    unfold pstate_of in Hs. cbn [snd] in Hs.
    destruct (heap w !! p) as [c|] eqn:Hc; [|done].
    cbn [fmap option_fmap option_map] in Hs. injection Hs as Hs.
    rewrite (lookup_app_l_Some _ _ _ _ Hc), Hs.
    rewrite (IH ss'); cycle 1.
    { eapply Forall2_impl; [exact Hss|]. intros [n' p'] s' Hp.
      unfold pstate_of in *. cbn [heap enqueue set_queue set_heap snd] in *.
      destruct (heap w !! p') as [c'|] eqn:Hc'; [|done].
      by rewrite (lookup_app_l_Some _ _ _ _ Hc'). }
    cbn [heap queue app enqueue set_queue set_heap set_app length imap].
    rewrite length_app. cbn [length]. f_equal.
    + cbn [seq]. f_equal. f_equal. lia.
    + f_equal.
      * rewrite <- app_assoc. done.
      * rewrite <- app_assoc. cbn. f_equal. unfold tag_job. f_equal.
        -- by rewrite Nat.add_0_r.
        -- apply imap_ext. intros i s' _. simpl. f_equal. f_equal. lia.
Qed.

(** The promise made by [then] for stream [i], waited for by
    [Promise.all]. *)
Definition Qwait (agg i : nat) : cell callback :=
  {| st := Pending [RAllElem i agg]; slots := []; external := false |}.

Lemma subscribe_all_fresh (agg : pid) (m : nat) : forall i0 P R (w : W),
  heap w = P ++ replicate m derived ++ R ->
  subscribe_all agg i0 (seq (length P) m) w
  = set_heap (P ++ map (fun j => Qwait agg (i0 + j)) (seq 0 m) ++ R) w.
Proof.
  induction m as [|m IH]; intros i0 P R w Hw.
  - destruct w as [h q a]. simpl in *. by rewrite Hw.
  - cbn [seq subscribe_all]. unfold subscribe. rewrite Hw, lookup_end. simpl.
    rewrite insert_end. simpl.
    replace (S (length P)) with (length (P ++ [Qwait agg i0]))
      by (rewrite length_app; simpl; lia).
    rewrite (IH (S i0) (P ++ [Qwait agg i0]) R)
      by (simpl; by rewrite <- app_assoc).
    unfold set_heap. simpl. f_equal. rewrite <- app_assoc. simpl.
    rewrite Nat.add_0_r. do 3 f_equal.
    rewrite <- seq_shift, map_map. apply map_ext. intros j. f_equal. lia.
Qed.

Definition body_reaction (c : pid) : reaction callback :=
  RThen (Some CbBody) None c.

Definition Await (c : nat) (sl : list (option jsval)) : cell callback :=
  {| st := Pending [body_reaction c]; slots := sl; external := false |}.

(** [connect()] on streams that are there already. *)
Lemma connect_fulfilled (w0 : W) (ss : list Stream) :
  connect_p (app w0) = None ->
  let ents := Obj.entries (gathered_streams (app w0)) in
  Forall2
    (fun e s => pstate_of w0 (snd e) = Some (Settled (Fulfilled (JStream s))))
    ents ss ->
  ents <> [] ->
  let b := length (heap w0) in
  let k := length ents in
  connect w0
  = (b + k + 1,
     mkWorld
       (heap w0 ++ map (Qwait (b + k)) (seq 0 k)
          ++ [Await (b + k + 1) (replicate k None); derived])
       (queue w0 ++ imap (tag_job b) ss)
       (set_connect_p (Some (b + k + 1))
          (named ents (set_name JUndefined (app w0))))).
Proof.
  intros Hp ents Hss Hne b k.
  unfold connect. rewrite Hp.
  change (Obj.entries (gathered_streams
                         (app (set_app (set_name JUndefined (app w0)) w0))))
    with ents.
  rewrite (tag_streams_fulfilled ents ss) by exact Hss.
  cbn [heap queue app set_app]. fold b k.
  unfold promise_all. cbn [alloc heap set_heap]. rewrite length_seq.
  assert (length (heap w0 ++ replicate k derived) = b + k) as Hlen.
  { rewrite length_app, length_replicate. done. }
  rewrite Hlen.
  rewrite (subscribe_all_fresh (b + k) k 0 (heap w0)
             [Cell (Pending []) (replicate k None) false])
    by (cbn [heap]; by rewrite <- app_assoc).
  assert (seq b k <> []) as Hseq.
  { destruct ents; [done|]. done. }
  destruct (seq b k) as [|x xs] eqn:Eseq; [done|]. clear Eseq Hseq.
  set (Qs := map (fun j => Qwait (b + k) (0 + j)) (seq 0 k)).
  assert (length Qs = k) as HQs by (unfold Qs; by rewrite length_map, length_seq).
  assert (Qs = map (Qwait (b + k)) (seq 0 k)) as EQs by done.
  set (A0 := Cell (K:=callback) (Pending []) (replicate k None) false).
  assert (length (heap w0 ++ Qs ++ [A0]) = b + k + 1) as E1.
  { rewrite !length_app, HQs. simpl. lia. }
  assert (forall R, (heap w0 ++ Qs ++ [A0] ++ R) !! (b + k) = Some A0) as E2.
  { intros R. rewrite lookup_app_r by lia. rewrite lookup_app_r by lia.
    replace (b + k - length (heap w0) - length Qs) with 0 by lia. done. }
  assert (forall R c, <[b + k := c]> (heap w0 ++ Qs ++ [A0] ++ R)
                      = heap w0 ++ Qs ++ c :: R) as E3.
  { intros R c. rewrite insert_app_r_alt by lia.
    rewrite insert_app_r_alt by lia.
    replace (b + k - length (heap w0) - length Qs) with 0 by lia. done. }
  unfold then_. cbn [alloc heap set_heap fst snd]. unfold subscribe.
  cbn [heap set_heap]. rewrite E1.
  rewrite <- !app_assoc. rewrite E2. cbn [st A0].
  unfold set_heap, set_app. cbn [heap queue app fst snd]. rewrite E3.
  rewrite EQs. done.
Qed.

(** The pair that the closure of the first loop returns, and the promise
    of [then] once it has run. *)
Definition pair_of (n : string) (s : Stream) : jsval :=
  JArr [JStr n; JStream s].
Definition Qdone (n : string) (s : Stream) : cell callback :=
  {| st := Settled (Fulfilled (pair_of n s)); slots := []; external := false |}.
Definition elem_job (agg : pid) (n : string) (i : nat) (s : Stream)
    : job callback :=
  JReact (RAllElem i agg) (Fulfilled (pair_of n s)).

(** The closures of the first loop run: each reads [name] as it is now. *)
Lemma run_tags (b agg : nat) (n : string) (ss : list Stream) :
  forall i0 P R q' (a : state),
    length P = b + i0 -> name a = JStr n ->
    drain run_callback
      (mkWorld (P ++ map (Qwait agg) (seq i0 (length ss)) ++ R)
         (imap (fun j => tag_job b (i0 + j)) ss ++ q') a)
    = drain run_callback
        (mkWorld (P ++ map (Qdone n) ss ++ R)
           (q' ++ imap (fun j => elem_job agg n (i0 + j)) ss) a).
Proof.
  induction ss as [|s ss IH]; intros i0 P R q' a HP Hn.
  - simpl. by rewrite app_nil_r.
  - cbn [imap length seq map].
    erewrite (drain_cons _ coffee_callbacks_tame); [|reflexivity].
    unfold tag_job at 1. simpl. rewrite Hn. simpl.
    unfold settle. simpl.
    rewrite Nat.add_0_r, <- HP, lookup_end. simpl.
    rewrite insert_end. simpl.
    change {| st := Settled (Fulfilled (JArr [JStr n; JStream s]));
              slots := []; external := false |} with (Qdone n s).
    pose proof (IH (S i0) (P ++ [Qdone n s]) R
                  (q' ++ [JReact (RAllElem i0 agg)
                            (Fulfilled (JArr [JStr n; JStream s]))]) a) as IH'.
    rewrite <- !app_assoc in IH'.
    unfold set_queue, set_heap. simpl.
    etrans; [etrans; [|apply IH'; [rewrite length_app; simpl; lia|done]]|].
    + f_equal. f_equal. rewrite <- app_assoc. f_equal.
      apply imap_ext. intros j s' _. simpl. f_equal. lia.
    + f_equal. f_equal. f_equal. simpl. f_equal.
      apply imap_ext. intros j s' _. simpl. f_equal. lia.
Qed.

Lemma collect_all {X : Type} (l : list X) : collect (map Some l) = Some l.
Proof. induction l as [|x l IH]; simpl; [done|]. by rewrite IH. Qed.

Lemma collect_gap {X : Type} (l : list X) (r : list (option X)) :
  collect (map Some l ++ None :: r) = None.
Proof. induction l as [|x l IH]; simpl; [done|]. by rewrite IH. Qed.

Definition slots_after (n : string) (got : list Stream) (m : nat)
    : list (option jsval) :=
  map Some (map (pair_of n) got) ++ replicate m None.

(** [Promise.all] takes the pairs one by one; with the last one it is
    fulfilled with the array of all pairs. *)
Lemma run_elems (agg c : nat) (n : string) (ss : list Stream) :
  forall got P R (a : state),
    length P = agg -> ss <> [] ->
    drain run_callback
      (mkWorld (P ++ Await c (slots_after n got (length ss)) :: R)
         (imap (fun j => elem_job agg n (length got + j)) ss) a)
    = drain run_callback
        (mkWorld
           (P ++ {| st := Settled (Fulfilled
                                     (JArr (map (pair_of n) (got ++ ss))));
                    slots := slots_after n (got ++ ss) 0;
                    external := false |} :: R)
           [JReact (body_reaction c)
              (Fulfilled (JArr (map (pair_of n) (got ++ ss))))] a).
Proof.
  induction ss as [|s ss IH]; intros got P R a HP Hne; [done|].
  assert (forall X : list (cell callback), (P ++ X) !! agg = X !! 0) as Hl
    by (intros; rewrite <- HP; apply lookup_end).
  assert (forall (X : list (cell callback)) x,
             <[agg := x]> (P ++ X) = P ++ <[0 := x]> X) as Hi
    by (intros; rewrite <- HP; apply insert_end).
  cbn [imap length].
  erewrite (drain_cons _ coffee_callbacks_tame); [|reflexivity].
  unfold elem_job at 1. simpl. unfold fill_slot. simpl.
  rewrite Nat.add_0_r, Hl. simpl. rewrite Hi. simpl.
  assert (<[length got := Some (pair_of n s)]>
            (slots_after n got (S (length ss)))
          = slots_after n (got ++ [s]) (length ss)) as Hsl.
  { unfold slots_after. rewrite !map_app. simpl.
    rewrite <- app_assoc. simpl.
    rewrite <- (length_map (pair_of n) got) at 1.
    rewrite <- (length_map Some (map (pair_of n) got)) at 1.
    by rewrite insert_end. }
  rewrite Hsl.
  destruct ss as [|s' ss].
  - unfold slots_after at 1. simpl. rewrite app_nil_r, collect_all.
    simpl. unfold settle. simpl. rewrite Hl. simpl.
    rewrite Hi. simpl. unfold set_queue, set_heap. simpl.
    unfold slots_after. simpl. by rewrite app_nil_r.
  - unfold slots_after at 1. cbn [length replicate].
    rewrite collect_gap.
    specialize (IH (got ++ [s]) P R a HP).
    rewrite <- app_assoc in IH. simpl in IH.
    unfold set_queue, set_heap. simpl.
    etrans; [|apply IH; done].
    f_equal. f_equal. f_equal.
    + f_equal. rewrite length_app. simpl. lia.
    + apply imap_ext. intros j s'' _. simpl. f_equal.
      rewrite length_app. simpl. lia.
Qed.

Lemma set_set {V : Type} (n : string) (v1 v2 : V) (d : Obj.t V) :
  Obj.set n v2 (Obj.set n v1 d) = Obj.set n v2 d.
Proof.
  induction d as [|[n' v'] d IH]; simpl.
  - by rewrite String.eqb_refl.
  - destruct (String.eqb n' n) eqn:E; simpl; rewrite E; [done|].
    by rewrite IH.
Qed.

(** The loop over the pairs when all carry one name: every stream is
    handed over, and each assignment to the descriptor overwrites the one
    before. *)
Lemma add_streams_one_name (n : string) (ss : list Stream) : forall st,
  exists st',
    add_streams (map (pair_of n) ss) st = (None, st')
    /\ calls st' = calls st ++ map (fun s => RemotePeer.AddStream (JStream s)) ss
    /\ streams_desc st'
       = match last ss with
         | Some s => Obj.set n (JStr (stream_id s)) (streams_desc st)
         | None => streams_desc st
         end
    /\ channels_desc st' = channels_desc st
    /\ connect_p st' = connect_p st
    /\ local st' = local st.
Proof.
  induction ss as [|s ss IH]; intros st.
  - exists st. simpl. by rewrite app_nil_r.
  - cbn [map pair_of add_streams].
    destruct (IH (set_streams_desc
                    (Obj.set n (JStr (stream_id s))
                       (streams_desc
                          (record (RemotePeer.AddStream (JStream s))
                             (set_name (JStr n) st))))
                    (record (RemotePeer.AddStream (JStream s))
                       (set_name (JStr n) st))))
      as (st' & E & Hc & Hd & Hcd & Hp & Hl).
    exists st'. split; [exact E|]. simpl in *.
    rewrite Hc, Hd, Hcd, Hp, Hl. repeat split; try done.
    + by rewrite <- app_assoc.
    + destruct ss as [|s' ss]; [done|].
      change (last (s :: s' :: ss)) with (last (s' :: ss)).
      destruct (last (s' :: ss)) eqn:El; [apply set_set|].
      by apply last_None in El.
Qed.

Lemma add_channels_fields (ents : list (string * jsval)) : forall st,
  calls (add_channels ents st)
  = calls st ++ map RemotePeerOnce.channel_call ents
  /\ channels_desc (add_channels ents st)
     = fold_left (fun d e => Obj.set (fst e) (snd e) d) ents (channels_desc st)
  /\ streams_desc (add_channels ents st) = streams_desc st
  /\ connect_p (add_channels ents st) = connect_p st.
Proof.
  induction ents as [|[n o] ents IH]; intros st.
  - simpl. by rewrite app_nil_r.
  - cbn [add_channels].
    destruct (IH (set_channels_desc
                    (Obj.set n o
                       (channels_desc
                          (record (RemotePeer.AddDataChannel n o)
                             (set_name (JStr n) st))))
                    (record (RemotePeer.AddDataChannel n o)
                       (set_name (JStr n) st))))
      as (H1 & H2 & H3 & H4).
    rewrite H1, H2, H3, H4. simpl. by rewrite <- app_assoc.
Qed.

(** The callback of [connect] and the promise of the transport. *)
Lemma run_body (c : nat) (n : string) (ss : list Stream) (h : list (cell callback))
    (a : state) :
  c < length h ->
  let chans := Obj.entries (gathered_channels a) in
  let cd := fold_left (fun d e => Obj.set (fst e) (snd e) d) chans
              (channels_desc a) in
  let w := drain run_callback
             (mkWorld h
                [JReact (body_reaction c) (Fulfilled (JArr (map (pair_of n) ss)))]
                a) in
  calls (app w)
  = calls a ++ map (fun s => RemotePeer.AddStream (JStream s)) ss
    ++ map RemotePeerOnce.channel_call chans
    ++ [RemotePeer.SetLocal cd; RemotePeer.Connect]
  /\ streams_desc (app w)
     = match last ss with
       | Some s => Obj.set n (JStr (stream_id s)) (streams_desc a)
       | None => streams_desc a
       end
  /\ channels_desc (app w) = cd
  /\ connect_p (app w) = connect_p a.
Proof.
  intros Hc chans cd w. subst w.
  erewrite (drain_cons _ coffee_callbacks_tame); [|reflexivity].
  unfold body_reaction. simpl. unfold connect_body. simpl.
  destruct (add_streams_one_name n ss a) as (st' & E & Hcl & Hd & Hcd & Hp & Hl).
  rewrite E.
  destruct (add_channels_fields (Obj.entries (gathered_channels st')) st')
    as (H1 & H2 & H3 & H4).
  assert (gathered_channels st' = gathered_channels a) as Hg
    by (unfold gathered_channels; by rewrite Hl).
  rewrite Hg in *. fold chans in H1, H2, H3, H4 |- *.
  unfold new_external, alloc. simpl.
  replace (length h =? c)%nat with false
    by (symmetry; apply Nat.eqb_neq; lia).
  unfold enqueue. simpl.
  erewrite (drain_cons _ coffee_callbacks_tame); [|reflexivity].
  simpl. unfold subscribe. simpl. rewrite lookup_end. simpl.
  rewrite drain_idle by done. simpl.
  rewrite H1, H2, H3, H4, Hcl, Hd, Hcd, Hp. fold cd.
  repeat split; try done. by rewrite <- !app_assoc.
Qed.

(** In the CoffeeScript session the closures of the first loop of
    [connect] share the variable [name]: when they run it holds the last
    name of [@local.streams].  With all streams there already, every stream
    is handed to the transport in order, then the channels are created and
    the transport connects, but [streams_desc] gets one entry only: the
    last name with the id of the last stream. *)
Theorem shared_name_describes_last_stream (w0 : W) (ss : list Stream)
    (n : string) (p : pid) (s : Stream) :
  connect_p (app w0) = None -> queue w0 = [] ->
  let ents := Obj.entries (gathered_streams (app w0)) in
  Forall2
    (fun e s => pstate_of w0 (snd e) = Some (Settled (Fulfilled (JStream s))))
    ents ss ->
  last ents = Some (n, p) -> last ss = Some s ->
  let w := drain run_callback (snd (connect w0)) in
  let chans := Obj.entries (gathered_channels (app w0)) in
  let cd := RemotePeerProtocol.describe_channels chans (channels_desc (app w0)) in
  calls (app w)
  = calls (app w0)
    ++ map (fun s => RemotePeer.AddStream (JStream s)) ss
    ++ map RemotePeerOnce.channel_call chans
    ++ [RemotePeer.SetLocal cd; RemotePeer.Connect]
  /\ streams_desc (app w)
     = Obj.set n (JStr (stream_id s)) (streams_desc (app w0))
  /\ channels_desc (app w) = cd.
Proof.
  intros Hp Hq ents Hss Hle Hls w chans cd.
  assert (ents <> []) as Hne by (intros E; by rewrite E in Hle).
  pose proof (Forall2_length _ _ _ Hss) as Hlen.
  subst w. rewrite (connect_fulfilled w0 ss Hp Hss Hne). cbn [snd].
  rewrite Hq, app_nil_l. fold ents.
  set (b := length (heap w0)). set (k := length ents).
  set (a := set_connect_p (Some (b + k + 1))
              (named ents (set_name JUndefined (app w0)))).
  assert (name a = JStr n) as Hn by (apply (named_last ents n p), Hle).
  destruct (named_fields ents (set_name JUndefined (app w0)))
    as (_ & Hlo & Hsd & Hcd & _ & Hcl).
  assert (length ss = k) as Hk by done.
  assert (drain run_callback
            (mkWorld
               (heap w0 ++ map (Qwait (b + k)) (seq 0 k)
                  ++ [Await (b + k + 1) (replicate k None); derived])
               (imap (tag_job b) ss) a)
          = drain run_callback
              (mkWorld
                 ((heap w0 ++ map (Qdone n) ss)
                    ++ {| st := Settled (Fulfilled (JArr (map (pair_of n) ss)));
                          slots := slots_after n ss 0;
                          external := false |} :: [derived])
                 [JReact (body_reaction (b + k + 1))
                    (Fulfilled (JArr (map (pair_of n) ss)))] a)) as E.
  { pose proof (run_tags b (b + k) n ss 0 (heap w0)
                  [Await (b + k + 1) (replicate k None); derived] [] a
                  (eq_sym (Nat.add_0_r b)) Hn) as E1.
    rewrite app_nil_r, Hk in E1. simpl in E1.
    etrans; [exact E1|].
    pose proof (run_elems (b + k) (b + k + 1) n ss [] (heap w0 ++ map (Qdone n) ss)
                  [derived] a) as E2.
    rewrite Hk in E2. simpl in E2. rewrite <- !app_assoc in E2.
    rewrite <- !app_assoc.
    apply E2.
    - rewrite length_app, length_map. by rewrite Hk.
    - intros ->. by destruct ents. }
  rewrite E.
  destruct (run_body (b + k + 1) n ss
              ((heap w0 ++ map (Qdone n) ss)
                 ++ {| st := Settled (Fulfilled (JArr (map (pair_of n) ss)));
                       slots := slots_after n ss 0;
                       external := false |} :: [derived]) a)
    as (H1 & H2 & H3 & _).
  { rewrite !length_app, length_map. simpl. fold b. lia. }
  rewrite H1, H2, H3, Hls. subst a. simpl.
  rewrite Hcl, Hsd, Hcd. unfold gathered_channels. simpl. rewrite Hlo.
  done.
Qed.

Lemma shared_name_describes_last_stream_witness :
  let cam := mkStream "cam-1" in
  let mic := mkStream "mic-1" in
  let h := [Cell (K:=callback) (Settled (Fulfilled (JStream cam))) [] true;
            Cell (Settled (Fulfilled (JStream mic))) [] true] in
  let l := RemotePeer.mkLocal [("cam", 0); ("mic", 1)] [("chat", JObj [])] in
  let w0 := constructor [("auto_connect", JBool true)] l h in
  let w := drain run_callback (snd (connect w0)) in
  calls (app w)
  = calls (app w0)
    ++ map (fun s => RemotePeer.AddStream (JStream s)) [cam; mic]
    ++ map RemotePeerOnce.channel_call [("chat", JObj [])]
    ++ [RemotePeer.SetLocal [("chat", JObj [])]; RemotePeer.Connect]
  /\ streams_desc (app w) = [("mic", JStr "mic-1")]
  /\ channels_desc (app w) = [("chat", JObj [])].
Proof.
  intros cam mic h l w0 w.
  refine (shared_name_describes_last_stream w0 [cam; mic] "mic" 1 mic
            eq_refl eq_refl _ eq_refl eq_refl).
  repeat constructor.
Defined.

End CoffeeProtocol.

(** ** The two classes side by side *)
Module CoffeeAgreement.
Import Promise PromiseFacts HeapTactics RemotePeer RemotePeerFacts RemotePeerOnce
  RemotePeerProtocol.

(** The streams are handed over in the order of the entries; the common
    form of what the two callbacks leave behind. *)
Definition last_described (ents : list (string * pid)) (ss : list Stream)
    (d : Obj.t jsval) : Obj.t jsval :=
  match last ents, last ss with
  | Some (n, _), Some s => Obj.set n (JStr (stream_id s)) d
  | _, _ => d
  end.

(** [connect()] of the CoffeeScript class on streams that are there
    already, once its jobs have run. *)
Lemma coffee_run_fulfilled (w0 : Coffee.W) (ss : list Stream) :
  Coffee.connect_p (app w0) = None -> queue w0 = [] ->
  let ents := Obj.entries (Coffee.gathered_streams (app w0)) in
  Forall2
    (fun e s => pstate_of w0 (snd e) = Some (Settled (Fulfilled (JStream s))))
    ents ss ->
  let w := drain Coffee.run_callback (snd (Coffee.connect w0)) in
  let chans := Obj.entries (Coffee.gathered_channels (app w0)) in
  let cd := describe_channels chans (Coffee.channels_desc (app w0)) in
  Coffee.calls (app w)
  = Coffee.calls (app w0)
    ++ map (fun s => AddStream (JStream s)) ss
    ++ map channel_call chans
    ++ [SetLocal cd; Connect]
  /\ Coffee.streams_desc (app w)
     = last_described ents ss (Coffee.streams_desc (app w0))
  /\ Coffee.channels_desc (app w) = cd.
Proof.
  intros Hp Hq ents Hss w chans cd.
  pose proof (Forall2_length _ _ _ Hss) as Hlen.
  destruct (decide (ents = [])) as [E|Hne].
  - assert (ss = []) as -> by (rewrite E in Hlen; by destruct ss).
    unfold last_described. rewrite E. cbn [last map app].
    subst w. unfold Coffee.connect. rewrite Hp.
    change (Obj.entries (Coffee.gathered_streams
              (app (set_app (Coffee.set_name JUndefined (app w0)) w0))))
      with ents.
    rewrite E. cbn [Coffee.tag_streams]. unfold promise_all. hs.
    unfold settle. hs. unfold then_, subscribe. hs. rewrite Hq. hs.
    destruct (CoffeeProtocol.run_body (length (heap w0) + 1) "" []
                (heap w0 ++ [Cell (Settled (Fulfilled (JArr []))) [] false;
                             derived])
                (Coffee.set_connect_p (Some (length (heap w0) + 1))
                   (Coffee.set_name JUndefined (app w0))))
      as (H1 & H2 & H3 & _).
    { rewrite length_app. simpl. lia. }
    cbn [map] in H1, H2, H3.
    change (CoffeeProtocol.body_reaction (length (heap w0) + 1))
      with (RThen (Some Coffee.CbBody) None (length (heap w0) + 1)) in H1, H2, H3.
    unfold derived in H1, H2, H3. rewrite H1, H2, H3. done.
  - destruct (last ents) as [[n p]|] eqn:Hle; [|by apply last_None in Hle].
    assert (ss <> []) as Hne' by (intros ->; by destruct ents).
    destruct (last ss) as [s|] eqn:Hls; [|by apply last_None in Hls].
    unfold last_described. rewrite Hle, Hls.
    subst w. rewrite (CoffeeProtocol.connect_fulfilled w0 ss Hp Hss Hne).
    cbn [snd]. rewrite Hq, app_nil_l. fold ents.
    set (b := length (heap w0)). set (k := length ents).
    set (a := Coffee.set_connect_p (Some (b + k + 1))
                (CoffeeProtocol.named ents (Coffee.set_name JUndefined (app w0)))).
    assert (Coffee.name a = JStr n) as Hn
      by (apply (CoffeeProtocol.named_last ents n p), Hle).
    destruct (CoffeeProtocol.named_fields ents
                (Coffee.set_name JUndefined (app w0)))
      as (_ & Hlo & Hsd & Hcd & _ & Hcl).
    assert (length ss = k) as Hk by done.
    assert (drain Coffee.run_callback
              (mkWorld
                 (heap w0 ++ map (CoffeeProtocol.Qwait (b + k)) (seq 0 k)
                    ++ [CoffeeProtocol.Await (b + k + 1) (replicate k None);
                        derived])
                 (imap (CoffeeProtocol.tag_job b) ss) a)
            = drain Coffee.run_callback
                (mkWorld
                   ((heap w0 ++ map (CoffeeProtocol.Qdone n) ss)
                      ++ {| st := Settled
                                    (Fulfilled
                                       (JArr (map (CoffeeProtocol.pair_of n) ss)));
                            slots := CoffeeProtocol.slots_after n ss 0;
                            external := false |} :: [derived])
                   [JReact (CoffeeProtocol.body_reaction (b + k + 1))
                      (Fulfilled (JArr (map (CoffeeProtocol.pair_of n) ss)))]
                   a)) as E.
    { pose proof (CoffeeProtocol.run_tags b (b + k) n ss 0 (heap w0)
                    [CoffeeProtocol.Await (b + k + 1) (replicate k None);
                     derived] [] a
                    (eq_sym (Nat.add_0_r b)) Hn) as E1.
      rewrite app_nil_r, Hk in E1. simpl in E1.
      etrans; [exact E1|].
      pose proof (CoffeeProtocol.run_elems (b + k) (b + k + 1) n ss []
                    (heap w0 ++ map (CoffeeProtocol.Qdone n) ss)
                    [derived] a) as E2.
      rewrite Hk in E2. simpl in E2. rewrite <- !app_assoc in E2.
      rewrite <- !app_assoc.
      apply E2; [|done].
      rewrite length_app, length_map. by rewrite Hk. }
    rewrite E.
    destruct (CoffeeProtocol.run_body (b + k + 1) n ss
                ((heap w0 ++ map (CoffeeProtocol.Qdone n) ss)
                   ++ {| st := Settled
                                 (Fulfilled
                                    (JArr (map (CoffeeProtocol.pair_of n) ss)));
                         slots := CoffeeProtocol.slots_after n ss 0;
                         external := false |} :: [derived]) a)
      as (H1 & H2 & H3 & _).
    { rewrite !length_app, length_map. simpl. fold b. lia. }
    rewrite H1, H2, H3, Hls. subst a. simpl.
    rewrite Hcl, Hsd, Hcd. unfold Coffee.gathered_channels. simpl. rewrite Hlo.
    done.
Qed.

(** The same call on the TypeScript class. *)
Lemma ts_run_fulfilled (w0 : W) (ss : list Stream) :
  connect_p (app w0) = None -> queue w0 = [] -> Forall quiet (heap w0) ->
  let ents := Obj.entries (gathered_streams (app w0)) in
  Forall2
    (fun e s => pstate_of w0 (snd e) = Some (Settled (Fulfilled (JStream s))))
    ents ss ->
  let w := run_event w0 EConnect in
  let chans := Obj.entries (gathered_channels (app w0)) in
  let cd := describe_channels chans (channels_desc (app w0)) in
  calls (app w)
  = calls (app w0)
    ++ map (fun s => AddStream (JStream s)) ss
    ++ map channel_call chans
    ++ [SetLocal cd; Connect]
  /\ streams_desc (app w)
     = describe_streams (zip (map fst ents) ss) (streams_desc (app w0))
  /\ channels_desc (app w) = cd.
Proof.
  intros Hp Hq Hquiet ents Hss w chans cd.
  assert (Forall (fun e : string * pid => snd e < length (heap w0)) ents)
    as Hvalid.
  { apply Forall_forall. intros [n p] Hin.
    apply list_elem_of_lookup in Hin as [i Hi].
    destruct (Forall2_lookup_l _ _ _ _ _ Hss Hi) as (s & _ & Hs).
    unfold pstate_of in Hs. simpl in *.
    destruct (heap w0 !! p) eqn:E; [|done]. by eapply lookup_lt_Some. }
  destruct (initial (length (heap w0)) ents w0 Hp Hq Hquiet eq_refl eq_refl
              Hvalid) as [_ Hinit].
  fold w in Hinit.
  destruct (finished (length (heap w0)) ents _ w ss Hinit Hvalid) as [_ Happ].
  { eapply Forall2_impl; [exact Hss|]. intros e s Hs.
    apply (keeps_drain run_callback callbacks_tame), keeps_apply. exact Hs. }
  rewrite Happ. unfold after_body. cbn.
  change (gathered_channels (set_connect_p _ (app w0)))
    with (gathered_channels (app w0)).
  fold chans. fold cd. repeat split; try done.
  do 2 f_equal. rewrite <- (map_map snd (fun s => AddStream (JStream s))).
  f_equal. apply snd_zip. rewrite length_map.
  by rewrite (Forall2_length _ _ _ Hss).
Qed.

Lemma describe_at_most_one (ents : list (string * pid)) (ss : list Stream)
    (d : Obj.t jsval) :
  length ents = length ss -> length ss <= 1 ->
  describe_streams (zip (map fst ents) ss) d = last_described ents ss d.
Proof.
  destruct ents as [|[n p] [|e ents]], ss as [|s [|s' ss]]; simpl; try done; lia.
Qed.

(** C10, amended.  (1) When [auto_connect] is absent, [undefined] or
    [null], both constructors end with a call of [connect].  (2) For a peer
    of either class on the same shared local peer, the TypeScript
    [connect] takes under each name the peer-private declaration if there
    is one, and else the declaration the CoffeeScript [connect] takes;
    without peer-private declarations the two loops go through the same
    declarations in the same order.  (3) For two sessions on the same
    shared local peer that were not connected yet, with nothing in flight,
    without peer-private declarations and with every shared stream there
    already: the call of [connect] and its jobs make the same calls in both
    ([addStream] for each stream in order, [addDataChannel] for each
    channel, [setLocal], [connect]) and leave the same [channels_desc];
    they leave the same [streams_desc] when the local peer shares at most
    one stream. *)
Theorem coffee_ts_agreement (opts : Obj.t jsval) (l : LocalPeer)
    (h_ts : list (cell callback)) (h_cs : list (cell Coffee.callback))
    (s : state) (c : Coffee.state)
    (w_ts : W) (w_cs : Coffee.W) (ss : list Stream) :
  (nullish (default JUndefined (Obj.get "auto_connect" opts)) = true ->
   let w_ts := mkWorld h_ts [] (init opts l) in
   let w_cs := mkWorld h_cs [] (Coffee.init opts l) in
   (constructor opts l h_ts = snd (connect w_ts)
    /\ connect_p (app (constructor opts l h_ts)) = Some (fst (connect w_ts)))
   /\ (Coffee.constructor opts l h_cs = snd (Coffee.connect w_cs)
       /\ Coffee.connect_p (app (Coffee.constructor opts l h_cs))
          = Some (fst (Coffee.connect w_cs))))
  /\ (local s = Coffee.local c ->
      Obj.wf (l_streams (local s)) -> Obj.wf (private_streams s) ->
      Obj.wf (l_channels (local s)) -> Obj.wf (private_channels s) ->
      (forall k,
         Obj.get k (gathered_streams s)
         = match Obj.get k (private_streams s) with
           | Some p => Some p
           | None => Obj.get k (Coffee.gathered_streams c)
           end)
      /\ (forall k,
            Obj.get k (gathered_channels s)
            = match Obj.get k (private_channels s) with
              | Some d => Some d
              | None => Obj.get k (Coffee.gathered_channels c)
              end)
      /\ (private_streams s = [] -> private_channels s = [] ->
          Obj.entries (gathered_streams s)
          = Obj.entries (Coffee.gathered_streams c)
          /\ Obj.entries (gathered_channels s)
             = Obj.entries (Coffee.gathered_channels c)))
  /\ (local (app w_ts) = Coffee.local (app w_cs) ->
      Obj.wf (l_streams (local (app w_ts))) ->
      Obj.wf (l_channels (local (app w_ts))) ->
      private_streams (app w_ts) = [] -> private_channels (app w_ts) = [] ->
      connect_p (app w_ts) = None -> Coffee.connect_p (app w_cs) = None ->
      queue w_ts = [] -> queue w_cs = [] -> Forall quiet (heap w_ts) ->
      calls (app w_ts) = Coffee.calls (app w_cs) ->
      streams_desc (app w_ts) = Coffee.streams_desc (app w_cs) ->
      channels_desc (app w_ts) = Coffee.channels_desc (app w_cs) ->
      Forall2
        (fun e s =>
           pstate_of w_ts (snd e) = Some (Settled (Fulfilled (JStream s)))
           /\ pstate_of w_cs (snd e) = Some (Settled (Fulfilled (JStream s))))
        (Obj.entries (l_streams (local (app w_ts)))) ss ->
      let w_ts' := run_event w_ts EConnect in
      let w_cs' := drain Coffee.run_callback (snd (Coffee.connect w_cs)) in
      let chans := Obj.entries (l_channels (local (app w_ts))) in
      let cd := describe_channels chans (channels_desc (app w_ts)) in
      (calls (app w_ts')
       = calls (app w_ts)
         ++ map (fun s => AddStream (JStream s)) ss
         ++ map channel_call chans
         ++ [SetLocal cd; Connect]
       /\ Coffee.calls (app w_cs') = calls (app w_ts'))
      /\ (channels_desc (app w_ts') = cd
          /\ Coffee.channels_desc (app w_cs') = cd)
      /\ (length ss <= 1 ->
          Coffee.streams_desc (app w_cs') = streams_desc (app w_ts'))).
Proof.
  split; [|split].
  - intros Hn w_ts0 w_cs0. unfold constructor, Coffee.constructor.
    unfold auto_connect, Coffee.auto_connect.
    cbn [app init Coffee.init options Coffee.options].
    rewrite Hn. cbn [orb]. fold w_ts0 w_cs0. split; split; try done.
    + by apply RemotePeerFacts.connect_first.
    + by apply CoffeeFacts.coffee_connect_first.
  - intros Hl Hs Hps Hc Hpc.
    split; [|split].
    + intros k. unfold gathered_streams, Coffee.gathered_streams.
      rewrite <- Hl. by apply CoffeeFacts.get_gathered.
    + intros k. unfold gathered_channels, Coffee.gathered_channels.
      rewrite <- Hl. by apply CoffeeFacts.get_gathered.
    + intros E1 E2.
      unfold gathered_streams, gathered_channels, Coffee.gathered_streams,
        Coffee.gathered_channels.
      rewrite <- Hl, E1, E2. split; by apply ObjOrder.entries_merge_nil.
  - intros Hl Hs Hc E1 E2 Hp Hp' Hq Hq' Hquiet Hcalls Hsd Hcd Hss
      w_ts' w_cs' chans cd.
    assert (Obj.entries (gathered_streams (app w_ts))
            = Obj.entries (l_streams (local (app w_ts)))) as Hents.
    { unfold gathered_streams. rewrite E1.
      by apply ObjOrder.entries_merge_nil. }
    assert (Obj.entries (gathered_channels (app w_ts)) = chans) as Hchans.
    { unfold gathered_channels. rewrite E2.
      by apply ObjOrder.entries_merge_nil. }
    destruct (ts_run_fulfilled w_ts ss Hp Hq Hquiet) as (T1 & T2 & T3).
    { rewrite Hents. eapply Forall2_impl; [exact Hss|]. by intros e x [H _]. }
    destruct (coffee_run_fulfilled w_cs ss Hp' Hq') as (C1 & C2 & C3).
    { unfold Coffee.gathered_streams. rewrite <- Hl.
      eapply Forall2_impl; [exact Hss|]. by intros e x [_ H]. }
    fold w_ts' in T1, T2, T3. fold w_cs' in C1, C2, C3.
    rewrite Hchans in T1, T3. fold cd in T1, T3.
    unfold Coffee.gathered_channels, Coffee.gathered_streams in C1, C2, C3.
    rewrite <- Hl in C1, C2, C3. fold chans in C1, C3.
    rewrite <- Hcalls, <- Hcd in C1. rewrite <- Hsd in C2. rewrite <- Hcd in C3.
    fold cd in C1, C3.
    repeat split; try done.
    + by rewrite C1, T1.
    + intros Hone. rewrite C2, T2, Hents.
      symmetry. apply describe_at_most_one; [|done].
      by apply (Forall2_length _ _ _ Hss).
Qed.

Lemma coffee_ts_agreement_witness :
  let cam := mkStream "cam-1" in
  let l := mkLocal [("cam", 0)] [("chat", JObj [])] in
  let h_ts := [Cell (K:=callback) (Settled (Fulfilled (JStream cam))) [] true;
               Cell (Pending []) [] true] in
  let h_cs := [Cell (K:=Coffee.callback) (Settled (Fulfilled (JStream cam)))
                 [] true;
               Cell (Pending []) [] true] in
  let s := app (snd (addStream (JStr "screen") (JPromise 1)
                       (constructor [("auto_connect", JBool false)] l h_ts))) in
  let c := Coffee.init [("auto_connect", JBool false)] l in
  let w_ts := constructor [("auto_connect", JBool false)] l h_ts in
  let w_cs := Coffee.constructor [("auto_connect", JBool true)] l h_cs in
  ((let w_ts := mkWorld h_ts [] (init [] l) in
    let w_cs := mkWorld h_cs [] (Coffee.init [] l) in
    (constructor [] l h_ts = snd (connect w_ts)
     /\ connect_p (app (constructor [] l h_ts)) = Some (fst (connect w_ts)))
    /\ (Coffee.constructor [] l h_cs = snd (Coffee.connect w_cs)
        /\ Coffee.connect_p (app (Coffee.constructor [] l h_cs))
           = Some (fst (Coffee.connect w_cs)))))
  /\ (forall k,
        Obj.get k (gathered_streams s)
        = match Obj.get k (private_streams s) with
          | Some p => Some p
          | None => Obj.get k (Coffee.gathered_streams c)
          end)
  /\ (Obj.entries (gathered_streams (init [] l))
      = Obj.entries (Coffee.gathered_streams (Coffee.init [] l))
      /\ Obj.entries (gathered_channels (init [] l))
         = Obj.entries (Coffee.gathered_channels (Coffee.init [] l)))
  /\ (let w_ts' := run_event w_ts EConnect in
      let w_cs' := drain Coffee.run_callback (snd (Coffee.connect w_cs)) in
      (calls (app w_ts')
       = [AddStream (JStream cam); AddDataChannel "chat" (JObj []);
          SetLocal [("chat", JObj [])]; Connect]
       /\ Coffee.calls (app w_cs') = calls (app w_ts'))
      /\ (channels_desc (app w_ts') = [("chat", JObj [])]
          /\ Coffee.channels_desc (app w_cs') = [("chat", JObj [])])
      /\ streams_desc (app w_ts') = [("cam", JStr "cam-1")]
      /\ Coffee.streams_desc (app w_cs') = streams_desc (app w_ts')).
Proof.
  intros cam l h_ts h_cs s c w_ts w_cs.
  assert (forall V (k : string) (v : V), Obj.wf [(k, v)]) as W1.
  { intros V k v. repeat constructor. apply not_elem_of_nil. }
  assert (forall V, Obj.wf (@nil (string * V))) as W0 by (intros; constructor).
  split; [|split; [|split]].
  - exact (proj1 (coffee_ts_agreement [] l h_ts h_cs s c w_ts w_cs [cam])
             eq_refl).
  - exact (proj1 (proj1 (proj2 (coffee_ts_agreement [] l h_ts h_cs s c
                                  w_ts w_cs [cam]))
                    eq_refl (W1 _ _ _) (W1 _ _ _) (W1 _ _ _) (W0 _))).
  - exact (proj2 (proj2 (proj1 (proj2 (coffee_ts_agreement [] l h_ts h_cs
                                         (init [] l) (Coffee.init [] l)
                                         w_ts w_cs [cam]))
                           eq_refl (W1 _ _ _) (W0 _) (W1 _ _ _) (W0 _)))
             eq_refl eq_refl).
  - destruct (proj2 (proj2 (coffee_ts_agreement [] l h_ts h_cs s c
                               w_ts w_cs [cam]))
                eq_refl (W1 _ _ _) (W1 _ _ _) eq_refl eq_refl eq_refl eq_refl
                eq_refl eq_refl)
      as (Hcalls & Hchans & Hdesc); try reflexivity.
    + repeat constructor.
    + repeat constructor.
    + split; [exact Hcalls|]. split; [exact Hchans|].
      split; [reflexivity|]. apply Hdesc. simpl. lia.
Defined.

End CoffeeAgreement.
